(** * Semantic actions of the toy C front end ([ast.y] / [y.tab.c])

    A shallow embedding of the symbol table, the tree stack, the semantic
    actions of [yyparse] and the preorder printer, followed by the
    properties of the specification that were checked against them.

    Conventions of the embedding.
    - The C globals of the prologue are the fields of one record,
      [globals]; every C function is a function of the state monad [M]
      over it.  [None] stands for a run that does not return: a NULL
      pointer is dereferenced, an integer is divided by zero, or a branch
      depends on a value the source does not determine.
    - [struct node *] is an index into the list [first]; entries are only
      appended while parsing, so an index keeps denoting the same record.
    - [int] is [Z]; a result outside the 32-bit range is undetermined,
      and a quotient or remainder that the machine cannot form (a zero
      divisor, [INT_MIN] by [-1]) stops the run.  The level that
      [get_levels] hands down is counted as the machine counts, around
      from [INT_MAX] to [INT_MIN]; the properties of it are stated below
      that point.  [float] is IEEE binary32 ([spec_float] with precision
      24).
    - A union member that was not the last one written, and a field that
      the code leaves unset after [malloc], hold no determined value; the
      pointer fields [val], [body] and the field [level] of a fresh [Node]
      are taken to be NULL and 0.
    - Fixed-size character arrays are strings; their capacity is not
      modelled.  What is stated of a name that the code copies into such
      an array holds for names that the array has room for ([fits] for the
      field [name] of a symbol). *)

From Stdlib Require Import ZArith Lia Bool.
From Stdlib Require Import Floats.SpecFloat.
From Stdlib Require Import DecimalString.
From stdpp Require Import base list strings.

Local Open Scope string_scope.
Local Open Scope Z_scope.
Local Open Scope list_scope.

(** ** C arithmetic *)

Definition INT_MAX : Z := 2147483647.
Definition INT_MIN : Z := -2147483648.

Definition in_int (z : Z) : bool := (INT_MIN <=? z) && (z <=? INT_MAX).

(** An [int] result: determined only when it fits. *)
Definition to_int (z : Z) : option Z := if in_int z then Some z else None.

(** The [int] that the machine has for [z]: [z] itself when it fits, and
    the value 2^32 apart from it that does otherwise. *)
Definition int_wrap (z : Z) : Z := (z - INT_MIN) mod 4294967296 + INT_MIN.

(** Conversion to [char] (signed, 8 bits). *)
Definition to_char (z : Z) : Z := (z + 128) mod 256 - 128.

Module F32.

Definition prec : Z := 24.
Definition emax : Z := 128.

Definition float : Type := spec_float.

Definition zero : float := S754_zero false.

Definition add : float -> float -> float := SFadd prec emax.
Definition sub : float -> float -> float := SFsub prec emax.
Definition mul : float -> float -> float := SFmul prec emax.
Definition div : float -> float -> float := SFdiv prec emax.
Definition opp : float -> float := SFopp.
Definition eqb : float -> float -> bool := SFeqb.
Definition ltb : float -> float -> bool := SFltb.
Definition leb : float -> float -> bool := SFleb.

(** [(float) z] *)
Definition of_Z (z : Z) : float := binary_normalize prec emax z 0 false.

(** [(int) f]: truncation toward zero; undetermined out of range. *)
Definition trunc (f : float) : option Z :=
  match f with
  | S754_zero _ => Some 0
  | S754_finite s m e =>
      let a := match e with
               | Z0 => Zpos m
               | Zpos _ => Zpos m * 2 ^ e
               | Zneg _ => Zpos m / 2 ^ (- e)
               end in
      to_int (if s then - a else a)
  | _ => None
  end.

Definition one : float := of_Z 1.

Definition of_bool (b : bool) : float := if b then one else zero.

End F32.

Abbreviation float := F32.float.

(** ** printf conversions *)

Definition ESC : string := String (Ascii.ascii_of_nat 27) "".
Definition NL : string := String (Ascii.ascii_of_nat 10) "".
Definition TAB : string := String (Ascii.ascii_of_nat 9) "".

Definition fmt_d (z : Z) : string := NilZero.string_of_int (Z.to_int z).

(** ["%c"] with [sprintf]: the character as a C string, which a NUL
    character ends at once. *)
Definition fmt_c (c : Z) : string :=
  if c mod 256 =? 0 then "" else String (Ascii.ascii_of_N (Z.to_N (c mod 256))) "".

(** ["%c"] with [printf]: the one character written, a NUL included. *)
Definition put_c (c : Z) : string := String (Ascii.ascii_of_N (Z.to_N (c mod 256))) "".

Fixpoint rep (n : nat) (c : string) : string :=
  match n with
  | O => ""
  | S n' => c +:+ rep n' c
  end.

(** ["%<w>s"] and ["%0<w>d"]: right-justified in a field of [w] characters. *)
Definition pad_left (w : nat) (s : string) : string :=
  rep (w - String.length s) " " +:+ s.

Definition pad_zeros (w : nat) (s : string) : string :=
  rep (w - String.length s) "0" +:+ s.

(** ["%f"]: six decimals, the exact value rounded to nearest, ties to even.
    A NaN has no sign in [spec_float]; the sign that [printf] may put
    before [nan] is not modelled. *)
Definition fmt_f (f : float) : string :=
  match f with
  | S754_zero s => (if s then "-" else "") +:+ "0.000000"
  | S754_infinity s => (if s then "-" else "") +:+ "inf"
  | S754_nan => "nan"
  | S754_finite s m e =>
      let num := match e with Zneg _ => Zpos m * 1000000 | _ => Zpos m * 2 ^ e * 1000000 end in
      let den := match e with Zneg _ => 2 ^ (- e) | _ => 1 end in
      let q := num / den in
      let r := num mod den in
      let up := (den <? 2 * r) || ((den =? 2 * r) && Z.odd q) in
      let n := if up then q + 1 else q in
      (if s then "-" else "") +:+ fmt_d (n / 1000000) +:+ "."
        +:+ pad_zeros 6 (fmt_d (n mod 1000000))
  end.


(** ** Data model *)

(** [union value] of a symbol: the member written last. *)
Inductive value : Type :=
| Vundef
| Vi (i : Z)
| Vf (f : float)
| Vc (c : Z).

(** Reading a member.  All-zero storage (what [addfunc] writes through
    [val.i]) reads as zero through every member. *)
Definition val_i (v : value) : option Z :=
  match v with Vi i => Some i | _ => None end.
Definition val_f (v : value) : option float :=
  match v with Vf f => Some f | Vi 0 => Some F32.zero | _ => None end.
Definition val_c (v : value) : option Z :=
  match v with Vc c => Some c | Vi 0 => Some 0 | _ => None end.

Definition store_i (o : option Z) : value :=
  match o with Some i => Vi i | None => Vundef end.
Definition store_f (o : option float) : value :=
  match o with Some f => Vf f | None => Vundef end.
Definition store_c (o : option Z) : value :=
  match o with Some c => Vc c | None => Vundef end.

(** [struct node]: one symbol.  The [link] field is the list structure of
    [first]. *)
Record node : Type := mk_node {
  sym_token : string;
  sym_name : string;
  sym_dtype : Z;
  sym_scope : Z;
  sym_lineno : Z;
  sym_valid : Z;
  sym_val : value
}.

(** [struct Node]: one node of the syntax tree. *)
#[local] Unset Elimination Schemes.
Inductive Node : Type := mkNode {
  n_left : option Node;
  n_right : option Node;
  n_val : option Node;
  n_body : option Node;
  n_token : string;
  n_level : Z
}.
#[local] Set Elimination Schemes.

(** [tree_stack]: the chain of cells from [tree_top]; a cell may hold a
    NULL [node]. *)
Definition tree_stack : Type := list (option Node).

(** [union YYSTYPE]: the member written last. *)
Inductive YYSTYPE : Type :=
| Yundef
| Yival (i : Z)
| Yfval (f : float)
| Ycval (c : Z)
| Ystring (s : string)
| Yptr (p : nat).

Definition yy_ival (v : YYSTYPE) : option Z :=
  match v with Yival i => Some i | _ => None end.
Definition yy_fval (v : YYSTYPE) : option float :=
  match v with Yfval f => Some f | _ => None end.
Definition yy_cval (v : YYSTYPE) : option Z :=
  match v with Ycval c => Some c | _ => None end.
Definition yy_string (v : YYSTYPE) : option string :=
  match v with Ystring s => Some s | _ => None end.
Definition yy_ptr (v : YYSTYPE) : option nat :=
  match v with Yptr p => Some p | _ => None end.

Definition mk_fval (o : option float) : YYSTYPE :=
  match o with Some f => Yfval f | None => Yundef end.

(** Modelled from the spec: the scanner [yylex] is not in the sources.  It
    delivers classified tokens (kind, lexeme, value); an identifier is
    resolved through [checksym] when it is read, a type keyword carries
    the code of its type, and [scope] grows on block entry. *)
Inductive lexeme : Type :=
| LexNone
| LexInt (i : Z)
| LexFloat (f : float)
| LexChar (c : Z)
| LexIdent (name : string)
| LexBlockOpen.

Record token : Type := mk_token {
  tok_kind : Z;
  tok_lexeme : lexeme;
  tok_line : Z
}.

(** The globals of the prologue, the token source and standard output. *)
Record globals : Type := mk_globals {
  x : Z;
  scope : Z;
  unaryop : Z;
  assignop : Z;
  datatype : Z;
  assigntype : Z;
  idcheck : Z;
  check_un : Z;
  tempStr : string;
  first : list node;
  crt : option nat;
  lhs : option nat;
  tree_top : tree_stack;
  preBuf : string;
  line : Z;
  yyin : list token;
  stdout : list string
}.

Definition set_x (v : Z) (g : globals) : globals :=
  let '(mk_globals _ b c d e f h i j k l m n o p q r) := g in
  mk_globals v b c d e f h i j k l m n o p q r.
Definition set_scope (v : Z) (g : globals) : globals :=
  let '(mk_globals a _ c d e f h i j k l m n o p q r) := g in
  mk_globals a v c d e f h i j k l m n o p q r.
Definition set_unaryop (v : Z) (g : globals) : globals :=
  let '(mk_globals a b _ d e f h i j k l m n o p q r) := g in
  mk_globals a b v d e f h i j k l m n o p q r.
Definition set_assignop (v : Z) (g : globals) : globals :=
  let '(mk_globals a b c _ e f h i j k l m n o p q r) := g in
  mk_globals a b c v e f h i j k l m n o p q r.
Definition set_datatype (v : Z) (g : globals) : globals :=
  let '(mk_globals a b c d _ f h i j k l m n o p q r) := g in
  mk_globals a b c d v f h i j k l m n o p q r.
Definition set_assigntype (v : Z) (g : globals) : globals :=
  let '(mk_globals a b c d e _ h i j k l m n o p q r) := g in
  mk_globals a b c d e v h i j k l m n o p q r.
Definition set_idcheck (v : Z) (g : globals) : globals :=
  let '(mk_globals a b c d e f _ i j k l m n o p q r) := g in
  mk_globals a b c d e f v i j k l m n o p q r.
Definition set_check_un (v : Z) (g : globals) : globals :=
  let '(mk_globals a b c d e f h _ j k l m n o p q r) := g in
  mk_globals a b c d e f h v j k l m n o p q r.
Definition set_tempStr (v : string) (g : globals) : globals :=
  let '(mk_globals a b c d e f h i _ k l m n o p q r) := g in
  mk_globals a b c d e f h i v k l m n o p q r.
Definition set_first (v : list node) (g : globals) : globals :=
  let '(mk_globals a b c d e f h i j _ l m n o p q r) := g in
  mk_globals a b c d e f h i j v l m n o p q r.
Definition set_crt (v : option nat) (g : globals) : globals :=
  let '(mk_globals a b c d e f h i j k _ m n o p q r) := g in
  mk_globals a b c d e f h i j k v m n o p q r.
Definition set_lhs (v : option nat) (g : globals) : globals :=
  let '(mk_globals a b c d e f h i j k l _ n o p q r) := g in
  mk_globals a b c d e f h i j k l v n o p q r.
Definition set_tree_top (v : tree_stack) (g : globals) : globals :=
  let '(mk_globals a b c d e f h i j k l m _ o p q r) := g in
  mk_globals a b c d e f h i j k l m v o p q r.
Definition set_preBuf (v : string) (g : globals) : globals :=
  let '(mk_globals a b c d e f h i j k l m n _ p q r) := g in
  mk_globals a b c d e f h i j k l m n v p q r.
Definition set_line (v : Z) (g : globals) : globals :=
  let '(mk_globals a b c d e f h i j k l m n o _ q r) := g in
  mk_globals a b c d e f h i j k l m n o v q r.
Definition set_yyin (v : list token) (g : globals) : globals :=
  let '(mk_globals a b c d e f h i j k l m n o p _ r) := g in
  mk_globals a b c d e f h i j k l m n o p v r.
Definition set_stdout (v : list string) (g : globals) : globals :=
  let '(mk_globals a b c d e f h i j k l m n o p q _) := g in
  mk_globals a b c d e f h i j k l m n o p q v.

(** The initial values of the globals, given the tokens to be read. *)
Definition init_globals (input : list token) : globals :=
  {| x := 0; scope := 0; unaryop := -1; assignop := -1; datatype := -1;
     assigntype := -1; idcheck := -1; check_un := 0; tempStr := "";
     first := []; crt := None; lhs := None; tree_top := []; preBuf := "";
     line := 1; yyin := input; stdout := [] |}.

(** ** The monad of the C functions *)

Definition M (A : Type) : Type := globals -> option (A * globals).

Definition ret {A} (a : A) : M A := fun g => Some (a, g).
Definition bind {A B} (m : M A) (k : A -> M B) : M B :=
  fun g => match m g with
           | Some (a, g') => k a g'
           | None => None
           end.
Definition crash {A} : M A := fun _ => None.
Definition gets {A} (f : globals -> A) : M A := fun g => Some (f g, g).
Definition modify (f : globals -> globals) : M unit := fun g => Some (tt, f g).

Declare Scope M_scope.
Delimit Scope M_scope with M.
Notation "v <- m ;; k" := (bind m (fun v => k))
  (at level 100, m at next level, right associativity) : M_scope.
Notation "m ;;; k" := (bind m (fun _ => k))
  (at level 100, right associativity) : M_scope.
Local Open Scope M_scope.

(** A value that must be determined for the run to go on. *)
Definition need {A} (o : option A) : M A :=
  match o with Some a => ret a | None => crash end.

Definition when (b : bool) (m : M unit) : M unit := if b then m else ret tt.

(** [printf]: one call appends one string to standard output. *)
Definition printf (s : string) : M unit :=
  modify (fun g => set_stdout (stdout g ++ [s]) g).

(** ** The symbol table *)

Definition deref (p : nat) : M node :=
  g <- gets first ;; need (g !! p).

(** An assignment through a [struct node *]. *)
Definition update (p : nat) (f : node -> node) : M unit :=
  t <- deref p ;; modify (fun g => set_first (<[p := f t]> (first g)) g).

(** [vname] and its terminating NUL have room in the field
    [char name[20]] of a symbol. *)
Definition fits (vname : string) : Prop := (String.length vname < 20)%nat.

(** [malloc] followed by [addsymbol]: the new record.  [token] and [val]
    are left unset.  [strcpy] copies [vname] whatever its length, and for
    a name that does not fit it writes over the fields behind [name]; the
    record below is the one that results for a name that fits. *)
Definition addsymbol (vname : string) : M node :=
  sc <- gets scope ;;
  ln <- gets line ;;
  ret {| sym_token := ""; sym_name := vname; sym_dtype := -1; sym_scope := sc;
         sym_lineno := ln; sym_valid := 1; sym_val := Vundef |}.

Definition addfunc (t : nat) (type : Z) (s : string) : M unit :=
  n <- deref t ;;
  when (sym_dtype n =? -1)
    (update t (fun n => {| sym_token := s; sym_name := sym_name n; sym_dtype := type;
                           sym_scope := sym_scope n; sym_lineno := sym_lineno n;
                           sym_valid := sym_valid n; sym_val := Vi 0 |})).

Definition addInt (t : nat) (type : Z) (val : option Z) : M unit :=
  n <- deref t ;;
  when (sym_dtype n =? -1)
    (update t (fun n => {| sym_token := "identifier"; sym_name := sym_name n;
                           sym_dtype := type; sym_scope := sym_scope n;
                           sym_lineno := sym_lineno n; sym_valid := sym_valid n;
                           sym_val := store_i val |})).

Definition addFloat (t : nat) (type : Z) (val : option float) : M unit :=
  n <- deref t ;;
  when (sym_dtype n =? -1)
    (update t (fun n => {| sym_token := "identifier"; sym_name := sym_name n;
                           sym_dtype := type; sym_scope := sym_scope n;
                           sym_lineno := sym_lineno n; sym_valid := sym_valid n;
                           sym_val := store_f val |})).

Definition addChar (t : nat) (type : Z) (val : option Z) : M unit :=
  n <- deref t ;;
  when (sym_dtype n =? -1)
    (update t (fun n => {| sym_token := "identifier"; sym_name := sym_name n;
                           sym_dtype := type; sym_scope := sym_scope n;
                           sym_lineno := sym_lineno n; sym_valid := sym_valid n;
                           sym_val := store_c val |})).

(** The [while] loop of [checksym] from the entry [ftp] (at index [i]) on:
    the symbol it returns, or [None] when it runs off the list. *)
Fixpoint checksym_loop (vname : string) (ftp : list node) (i : nat) : M (option nat) :=
  match ftp with
  | [] => ret None
  | t :: link =>
      sc <- gets scope ;;
      if String.eqb vname (sym_name t) then
        if (sym_scope t >? sc) && (sym_valid t =? 1) then ret (Some i)
        else if (sym_scope t =? sc) && (sym_valid t =? 1) then ret (Some i)
        else if (sym_scope t <? sc) && (sym_valid t =? 1) then
          modify (set_check_un 1) ;;; ret (Some i)
        else if (sym_scope t >? sc) && (sym_valid t =? 0) then
          modify (set_check_un 0) ;;; checksym_loop vname link (S i)
        else checksym_loop vname link (S i)
      else checksym_loop vname link (S i)
  end.

Definition checksym (vname : string) : M nat :=
  fst <- gets first ;;
  match fst with
  | [] =>
      nnode <- addsymbol vname ;;
      modify (set_first [nnode]) ;;;
      ret 0%nat
  | _ =>
      same <- checksym_loop vname fst 0 ;;
      match same with
      | Some p => ret p
      | None =>
          nnode <- addsymbol vname ;;
          modify (fun g => set_first (first g ++ [nnode]) g) ;;;
          ret (length fst)
      end
  end.

(** The scope-closing loop shared by the actions of rules 23, 86 and 87;
    [params] tells whether valid [param] entries are closed too.  The
    [token] of a symbol that no declaration has typed is unset; it is
    taken not to read ["param"]. *)
Definition close_entry (params : bool) (sc : Z) (t : node) : node :=
  if ((sym_scope t =? sc) && (sym_valid t =? 1))
     || (params && String.eqb (sym_token t) "param" && (sym_valid t =? 1))
  then {| sym_token := sym_token t; sym_name := sym_name t; sym_dtype := sym_dtype t;
          sym_scope := sym_scope t; sym_lineno := sym_lineno t; sym_valid := 0;
          sym_val := sym_val t |}
  else t.

Definition close_scope (params : bool) : M unit :=
  modify (fun g => set_first (map (close_entry params (scope g)) (first g)) g) ;;;
  modify (fun g => set_scope (scope g - 1) g).

Definition cleansymbol : M unit :=
  modify (fun g =>
    set_first
      (filter (fun entry =>
                 negb ((sym_dtype entry =? -1)
                       || (String.eqb (sym_name entry) "main"
                           && String.eqb (sym_token entry) "function")))
              (first g)) g).

Definition data_type_name (dtype : Z) : option string :=
  if dtype =? 0 then Some "int"
  else if dtype =? 1 then Some "float"
  else if dtype =? 2 then Some "char"
  else if dtype =? 3 then Some "void"
  else None.

Definition print_row (ftp : node) : M unit :=
  data_type <- need (data_type_name (sym_dtype ftp)) ;;
  printf (pad_left 11 (sym_token ftp) +:+ TAB +:+ pad_left 12 (sym_name ftp) +:+ TAB
          +:+ pad_left 6 data_type +:+ TAB +:+ TAB +:+ fmt_d (sym_scope ftp)
          +:+ TAB +:+ TAB +:+ fmt_d (sym_lineno ftp) +:+ TAB +:+ TAB) ;;;
  if sym_dtype ftp =? 0 then
    i <- need (val_i (sym_val ftp)) ;;
    if i =? INT_MIN then printf ("-" +:+ NL) else printf (fmt_d i +:+ NL)
  else if sym_dtype ftp =? 1 then
    f <- need (val_f (sym_val ftp)) ;;
    if F32.eqb f (F32.of_Z INT_MIN) then printf ("-" +:+ NL) else printf (fmt_f f +:+ NL)
  else if sym_dtype ftp =? 2 then
    c <- need (val_c (sym_val ftp)) ;;
    printf (put_c c +:+ NL)
  else if String.eqb (sym_token ftp) "function" then printf ("-" +:+ NL)
  else printf ("-" +:+ TAB +:+ "Delete it" +:+ NL).

Fixpoint print_rows (ftp : list node) : M unit :=
  match ftp with
  | [] => ret tt
  | t :: link => print_row t ;;; print_rows link
  end.

Definition printsymtable : M unit :=
  printf (NL +:+ NL +:+ "Symbol Table" +:+ NL +:+ NL) ;;;
  printf ("   Symbol" +:+ TAB +:+ TAB +:+ "Name" +:+ TAB +:+ "  Type" +:+ TAB
          +:+ "      Scope" +:+ TAB +:+ "   Line Number" +:+ TAB +:+ "       Value "
          +:+ NL) ;;;
  fst <- gets first ;;
  print_rows fst ;;;
  printf (NL +:+ NL +:+ NL).

(** ** The tree stack *)

Definition push_tree (newnode : Node) : M unit :=
  modify (fun g => set_tree_top (Some newnode :: tree_top g) g).

(** [tree_top->next] with [tree_top == NULL] does not return. *)
Definition pop_tree : M (option Node) :=
  top <- gets tree_top ;;
  match top with
  | [] => crash
  | retnode :: next => modify (set_tree_top next) ;;; ret retnode
  end.

Definition create_node (token : string) (leaf : Z) : M unit :=
  lr <- (if leaf =? 0 then
           r <- pop_tree ;;
           l <- pop_tree ;;
           ret (l, r)
         else if leaf =? 1 then ret (None, None)
         else
           l <- pop_tree ;;
           ret (l, None)) ;;
  push_tree {| n_left := fst lr; n_right := snd lr; n_val := None; n_body := None;
               n_token := token; n_level := 0 |}.

(** ** The printer *)

Definition strcat_preBuf (s : string) : M unit :=
  modify (fun g => set_preBuf (preBuf g +:+ s) g).

Definition is_some {A} (o : option A) : bool :=
  match o with Some _ => true | None => false end.

Fixpoint preorder_at (node : Node) : M unit :=
  match node with
  | mkNode l r v b tok _ =>
      let inner := is_some l || is_some r || is_some v || is_some b in
      when inner (strcat_preBuf " ( ") ;;;
      strcat_preBuf tok ;;;
      strcat_preBuf " " ;;;
      match l with Some n => preorder_at n | None => ret tt end ;;;
      match r with Some n => preorder_at n | None => ret tt end ;;;
      match v with Some n => preorder_at n | None => ret tt end ;;;
      match b with Some n => preorder_at n | None => ret tt end ;;;
      when inner (strcat_preBuf ") ")
  end.

Definition preorder (node : option Node) : M unit :=
  match node with
  | None => ret tt
  | Some n => preorder_at n
  end.

(** [get_levels] writes the [level] fields of the tree in place; the
    result is the tree as it stands afterwards.  [level] is an [int], and
    so is [level + 1]. *)
Fixpoint get_levels_at (root : Node) (level : Z) : Node :=
  match root with
  | mkNode l r v b tok _ =>
      match l, r with
      | None, None => mkNode l r v b tok level
      | None, Some rn => mkNode l (Some (get_levels_at rn (int_wrap (level + 1)))) v b tok level
      | Some ln, None => mkNode (Some (get_levels_at ln (int_wrap (level + 1)))) r v b tok level
      | Some ln, Some rn =>
          mkNode (Some (get_levels_at ln (int_wrap (level + 1))))
                 (Some (get_levels_at rn (int_wrap (level + 1))))
                 v b tok level
      end
  end.

(** [root->level] with [root == NULL] does not return. *)
Definition get_levels (root : option Node) (level : Z) : M Node :=
  match root with
  | None => crash
  | Some n => ret (get_levels_at n level)
  end.

(** ** Diagnostics *)

(** The five [printf] calls that every warning of the actions consists of. *)
Definition warning (text : string) : M unit :=
  ln <- gets line ;;
  printf ("Line:" +:+ fmt_d ln +:+ ": ") ;;;
  printf (ESC +:+ "[1;35m") ;;;
  printf "warning: " ;;;
  printf (ESC +:+ "[0m") ;;;
  printf text.

(** The five [printf] calls that every error of the actions consists of. *)
Definition error (text : string) : M unit :=
  ln <- gets line ;;
  printf ("Line:" +:+ fmt_d ln +:+ ": ") ;;;
  printf (ESC +:+ "[1;31m") ;;;
  printf "error: " ;;;
  printf (ESC +:+ "[0m") ;;;
  printf text.

Definition float_to_int : string :=
  "implicit conversion from 'float' to 'int' " +:+ NL +:+ NL.
Definition char_to_float : string :=
  "implicit conversion from 'char' to 'float' " +:+ NL +:+ NL.
Definition float_to_char : string :=
  "implicit conversion from 'float' to 'char' " +:+ NL +:+ NL.
Definition division_by_zero : string :=
  "division by zero is undefined" +:+ NL +:+ NL.

Definition yyerror (str : string) : M unit :=
  error (str +:+ NL).

(** ** The semantic actions of [yyparse]

    [yyvsp k] is [yyvsp[-k]]; an action returns the value of [$$]. *)

Section Actions.

Variable yyvsp : nat -> YYSTYPE.

Definition fval (k : nat) : option float := yy_fval (yyvsp k).

(** [(int) yyvsp[-k].fval] *)
Definition ifval (k : nat) : option Z := f ← fval k; F32.trunc f.

Definition set_val (v : value) (t : node) : node :=
  {| sym_token := sym_token t; sym_name := sym_name t; sym_dtype := sym_dtype t;
     sym_scope := sym_scope t; sym_lineno := sym_lineno t; sym_valid := sym_valid t;
     sym_val := v |}.

(** The three typing branches of rule 38, on the symbol [p]. *)
Definition declare_init (p : nat) : M unit :=
  dt <- gets datatype ;;
  aty <- gets assigntype ;;
  (if dt =? 0 then
     addInt p 0 (ifval 0) ;;;
     when (aty =? 1) (warning float_to_int)
   else if dt =? 1 then
     addFloat p 1 (fval 0) ;;;
     when (aty =? 2) (warning char_to_float)
   else if dt =? 2 then
     addChar p 2 (to_char <$> ifval 0) ;;;
     when (aty =? 1) (warning float_to_char)
   else ret tt) ;;;
  modify (set_x dt).

(** The three typing branches of rule 39, on the symbol [p]. *)
Definition declare_plain (p : nat) : M unit :=
  dt <- gets datatype ;;
  (if dt =? 0 then addInt p 0 (Some INT_MIN)
   else if dt =? 1 then addFloat p 1 (Some (F32.of_Z INT_MIN))
   else if dt =? 2 then addChar p 2 (Some 45)
   else ret tt) ;;;
  modify (set_x dt).

(** Allocation of a second symbol of the same name, linked at the end. *)
Definition shadow (name : string) : M nat :=
  nnode <- addsymbol name ;;
  fst <- gets first ;;
  modify (set_first (fst ++ [nnode])) ;;;
  ret (length fst).

(** One [case] of the [switch] of rule 42.  [iv] is the [int] expression
    stored for an [int] or [char] target, [fv] the one stored for a
    [float] target. *)
Definition assign (label : string) (iv : M (option Z)) (fv : M (option float)) : M unit :=
  idc <- gets idcheck ;;
  (if idc =? 1 then
     create_node label 0 ;;;
     c <- gets crt ;;
     p <- need c ;;
     t <- deref p ;;
     aty <- gets assigntype ;;
     if sym_dtype t =? 0 then
       when (aty =? 1) (warning float_to_int) ;;;
       v <- iv ;;
       update p (set_val (store_i v))
     else if sym_dtype t =? 1 then
       when (aty =? 2) (warning char_to_float) ;;;
       v <- fv ;;
       update p (set_val (store_f v))
     else if sym_dtype t =? 2 then
       when (aty =? 1) (warning float_to_char) ;;;
       v <- iv ;;
       update p (set_val (store_c (to_char <$> v)))
     else ret tt
   else printf ("We'll see later" +:+ NL)) ;;;
  modify (set_crt None).

(** [int] arithmetic on two converted operands. *)
Definition int_op (op : Z -> Z -> Z) (a b : option Z) : option Z :=
  a ← a; b ← b; to_int (op a b).

(** [a / b] and [a % b] on [int]: the run stops on a zero divisor, and
    on [INT_MIN] with the divisor [-1], whose quotient is no [int]. *)
Definition int_div (op : Z -> Z -> Z) (a b : option Z) : M (option Z) :=
  a <- need a ;;
  b <- need b ;;
  if (b =? 0) || ((a =? INT_MIN) && (b =? -1)) then crash else ret (to_int (op a b)).

Definition float_op (op : float -> float -> float) (a b : option float) : option float :=
  a ← a; b ← b; Some (op a b).

Definition float_cmp (op : float -> float -> bool) (a b : option float) : option float :=
  a ← a; b ← b; Some (F32.of_bool (op a b)).

Definition if_node (cond then_stmt else_stmt : option Node) : Node :=
  {| n_left := cond; n_right := then_stmt; n_val := else_stmt; n_body := None;
     n_token := "if"; n_level := 0 |}.

Definition yyaction (yyn : Z) (yyval : YYSTYPE) : M (YYSTYPE + Z) :=
  match yyn with
  | 2 => (* S: program *)
      cleansymbol ;;;
      printsymtable ;;;
      ret (inr 0)
  | 14 => (* block_item_list: block_item_list block_item *)
      create_node "stmt" 0 ;;; ret (inl yyval)
  | 18 => (* block_item: RETURN expression_statement *)
      create_node "return" 1 ;;; ret (inl yyval)
  | 23 => (* statement: compound_statement *)
      close_scope false ;;; ret (inl yyval)
  | 27 => (* condition_statement: IF '(' relational_expression ')' statement *)
      then_stmt <- pop_tree ;;
      cond <- pop_tree ;;
      push_tree (if_node cond then_stmt None) ;;;
      ret (inl yyval)
  | 28 => (* condition_statement: IF '(' relational_expression ')' statement ELSE statement *)
      else_stmt <- pop_tree ;;
      then_stmt <- pop_tree ;;
      cond <- pop_tree ;;
      push_tree (if_node cond then_stmt else_stmt) ;;;
      ret (inl yyval)
  | 29 => (* iteration_statement: FOR '(' expression_statement expression_statement expression ')' statement *)
      body <- pop_tree ;;
      incr <- pop_tree ;;
      cond <- pop_tree ;;
      init <- pop_tree ;;
      push_tree {| n_left := init; n_right := cond; n_val := incr; n_body := body;
                   n_token := "for"; n_level := 0 |} ;;;
      ret (inl yyval)
  | 30 => (* iteration_statement: WHILE '(' relational_expression ')' statement *)
      create_node "while" 0 ;;; ret (inl yyval)
  | 31 | 32 | 33 | 34 => (* type_specifier: VOID | CHAR | INT | FLOAT *)
      dt <- need (yy_ival (yyvsp 0)) ;;
      modify (set_datatype dt) ;;; ret (inl yyval)
  | 37 => (* $@1: %empty *)
      p <- need (yy_ptr (yyvsp 0)) ;;
      t <- deref p ;;
      create_node (sym_name t) 1 ;;; ret (inl yyval)
  | 38 => (* init_declarator: IDENTIFIER $@1 '=' assignment_expression *)
      p <- need (yy_ptr (yyvsp 3)) ;;
      t <- deref p ;;
      sc <- gets scope ;;
      (if negb (sym_dtype t =? -1) && (sym_scope t <? sc) && (sym_valid t =? 1) then
         nnode <- shadow (sym_name t) ;;
         declare_init nnode ;;;
         create_node "=" 0
       else if negb (sym_dtype t =? -1) then
         error ("redefinition of '" +:+ sym_name t +:+ "' " +:+ NL)
       else
         create_node "=" 0 ;;;
         declare_init p) ;;;
      ret (inl yyval)
  | 39 => (* init_declarator: IDENTIFIER *)
      p <- need (yy_ptr (yyvsp 0)) ;;
      t <- deref p ;;
      sc <- gets scope ;;
      (if negb (sym_dtype t =? -1) && (sym_scope t <? sc) && (sym_valid t =? 1) then
         nnode <- shadow (sym_name t) ;;
         declare_plain nnode ;;;
         create_node ("Dc " +:+ sym_name t) 1
       else if negb (sym_dtype t =? -1) then
         error ("redefinition of '" +:+ sym_name t +:+ "' " +:+ NL)
       else
         declare_plain p ;;;
         create_node ("Dc " +:+ sym_name t) 1) ;;;
      ret (inl yyval)
  | 40 => (* assignment_expression: conditional_expression *)
      ret (inl (mk_fval (fval 0)))
  | 41 => (* $@2: %empty *)
      l <- gets lhs ;;
      modify (set_crt l) ;;; ret (inl yyval)
  | 42 => (* assignment_expression: unary_expression $@2 assignment_operator assignment_expression *)
      op <- gets assignop ;;
      (if op =? 0 then
         assign "=" (ret (ifval 0)) (ret (fval 0))
       else if op =? 1 then
         assign "+=" (ret (int_op Z.add (ifval 3) (ifval 0)))
                     (ret (float_op F32.add (fval 3) (fval 0)))
       else if op =? 2 then
         assign "-=" (ret (int_op Z.sub (ifval 3) (ifval 0)))
                     (ret (float_op F32.sub (fval 3) (fval 0)))
       else if op =? 3 then
         assign "*=" (ret (int_op Z.mul (ifval 3) (ifval 0)))
                     (ret (float_op F32.mul (fval 3) (fval 0)))
       else if op =? 4 then
         assign "/=" (int_div Z.quot (ifval 3) (ifval 0))
                     (ret (float_op F32.div (fval 3) (fval 0)))
       else if op =? 5 then
         assign "%=" (int_div Z.rem (ifval 3) (ifval 0))
                     (r <- int_div Z.rem (ifval 3) (ifval 0) ;; ret (F32.of_Z <$> r))
       else ret tt) ;;;
      modify (set_assignop (-1)) ;;;
      modify (set_assigntype (-1)) ;;;
      ret (inl yyval)
  | 43 => modify (set_assignop 0) ;;; ret (inl yyval)
  | 44 => modify (set_assignop 1) ;;; ret (inl yyval)
  | 45 => modify (set_assignop 2) ;;; ret (inl yyval)
  | 46 => modify (set_assignop 3) ;;; ret (inl yyval)
  | 47 => modify (set_assignop 4) ;;; ret (inl yyval)
  | 48 => modify (set_assignop 5) ;;; ret (inl yyval)
  | 49 => (* conditional_expression: equality_expression *)
      ret (inl (mk_fval (fval 0)))
  | 50 => (* conditional_expression: equality_expression '?' expression ':' conditional_expression *)
      else_expr <- pop_tree ;;
      then_expr <- pop_tree ;;
      cond <- pop_tree ;;
      push_tree (if_node cond then_expr else_expr) ;;;
      ret (inl (mk_fval (c ← fval 4;
                         if F32.eqb c F32.one then fval 2 else fval 0)))
  | 55 => (* primary_expression: IDENTIFIER *)
      modify (set_idcheck 1) ;;;
      p <- need (yy_ptr (yyvsp 0)) ;;
      modify (set_lhs (Some p)) ;;;
      t <- deref p ;;
      cu <- gets check_un ;;
      if (sym_dtype t =? -1) && (cu =? 0) then
        error ("use of undeclared identifier '" +:+ sym_name t +:+ "' " +:+ NL +:+ NL) ;;;
        modify (set_check_un 0) ;;;
        ret (inl yyval)
      else if sym_dtype t =? 0 then
        modify (set_assigntype 0) ;;;
        create_node (sym_name t) 1 ;;;
        ret (inl (mk_fval (F32.of_Z <$> val_i (sym_val t))))
      else if sym_dtype t =? 1 then
        modify (set_assigntype 1) ;;;
        create_node (sym_name t) 1 ;;;
        ret (inl (mk_fval (val_f (sym_val t))))
      else if sym_dtype t =? 2 then
        modify (set_assigntype 2) ;;;
        create_node (sym_name t) 1 ;;;
        ret (inl (mk_fval (F32.of_Z <$> val_c (sym_val t))))
      else ret (inl yyval)
  | 56 => (* primary_expression: INTEGER_LITERAL *)
      i <- need (yy_ival (yyvsp 0)) ;;
      modify (set_assigntype 0) ;;;
      modify (set_tempStr (fmt_d i)) ;;;
      create_node (fmt_d i) 1 ;;;
      ret (inl (Yfval (F32.of_Z i)))
  | 57 => (* primary_expression: FLOAT_LITERAL *)
      f <- need (fval 0) ;;
      modify (set_assigntype 1) ;;;
      modify (set_tempStr (fmt_f f)) ;;;
      create_node (fmt_f f) 1 ;;;
      ret (inl yyval)
  | 58 => (* primary_expression: CHARACTER_LITERAL *)
      c <- need (yy_cval (yyvsp 0)) ;;
      modify (set_assigntype 2) ;;;
      modify (set_tempStr (fmt_c c)) ;;;
      create_node (fmt_c c) 1 ;;;
      ret (inl yyval)
  | 59 => (* primary_expression: '(' expression ')' *)
      ret (inl (mk_fval (fval 1)))
  | 60 => (* postfix_expression: primary_expression *)
      ret (inl (mk_fval (fval 0)))
  | 61 => (* postfix_expression: postfix_expression INC_OP *)
      create_node "++" 0 ;;;
      ret (inl (mk_fval (float_op F32.add (fval 1) (Some F32.one))))
  | 62 => (* postfix_expression: postfix_expression DEC_OP *)
      create_node "--" 0 ;;;
      ret (inl (mk_fval (float_op F32.sub (fval 1) (Some F32.one))))
  | 63 => (* unary_expression: postfix_expression *)
      ret (inl (mk_fval (fval 0)))
  | 64 => (* unary_expression: unary_operator unary_expression *)
      op <- gets unaryop ;;
      r <- (if op =? 1 then
              create_node "'+'" 0 ;;; ret (mk_fval (fval 0))
            else if op =? 2 then
              create_node "'-'" 0 ;;; ret (mk_fval (F32.opp <$> fval 0))
            else if op =? 3 then
              create_node "!" 0 ;;;
              ret (mk_fval ((fun f => F32.of_bool (F32.eqb f F32.zero)) <$> fval 0))
            else if op =? 4 then
              create_node "~" 0 ;;;
              ret (mk_fval ((fun i => F32.of_Z (- i - 1)) <$> ifval 0))
            else if op =? 5 then
              create_node "++" 0 ;;;
              ret (mk_fval (float_op F32.add (fval 0) (Some F32.one)))
            else if op =? 6 then
              create_node "--" 0 ;;;
              ret (mk_fval (float_op F32.sub (fval 0) (Some F32.one)))
            else ret yyval) ;;
      modify (set_unaryop (-1)) ;;;
      ret (inl r)
  | 65 => modify (set_unaryop 1) ;;; ret (inl yyval)
  | 66 => modify (set_unaryop 2) ;;; ret (inl yyval)
  | 67 => modify (set_unaryop 3) ;;; ret (inl yyval)
  | 68 => modify (set_unaryop 4) ;;; ret (inl yyval)
  | 69 => modify (set_unaryop 5) ;;; ret (inl yyval)
  | 70 => modify (set_unaryop 6) ;;; ret (inl yyval)
  | 71 => (* equality_expression: relational_expression *)
      ret (inl (mk_fval (fval 0)))
  | 72 => (* equality_expression: equality_expression EQ_OP relational_expression *)
      create_node "==" 0 ;;;
      ret (inl (mk_fval (float_cmp F32.eqb (fval 2) (fval 0))))
  | 73 => (* equality_expression: equality_expression NE_OP relational_expression *)
      create_node "!=" 0 ;;;
      ret (inl (mk_fval (float_cmp (fun a b => negb (F32.eqb a b)) (fval 2) (fval 0))))
  | 74 => (* relational_expression: additive_expression *)
      ret (inl (mk_fval (fval 0)))
  | 75 => (* relational_expression: relational_expression '<' additive_expression *)
      create_node "<" 0 ;;;
      ret (inl (mk_fval (float_cmp F32.ltb (fval 2) (fval 0))))
  | 76 => (* relational_expression: relational_expression '>' additive_expression *)
      create_node ">" 0 ;;;
      ret (inl (mk_fval (float_cmp (fun a b => F32.ltb b a) (fval 2) (fval 0))))
  | 77 => (* relational_expression: relational_expression LE_OP additive_expression *)
      create_node "<=" 0 ;;;
      ret (inl (mk_fval (float_cmp F32.leb (fval 2) (fval 0))))
  | 78 => (* relational_expression: relational_expression GE_OP additive_expression *)
      create_node ">=" 0 ;;;
      ret (inl (mk_fval (float_cmp (fun a b => F32.leb b a) (fval 2) (fval 0))))
  | 79 => (* additive_expression: multiplicative_expression *)
      ret (inl (mk_fval (fval 0)))
  | 80 => (* additive_expression: additive_expression '+' multiplicative_expression *)
      create_node "+" 0 ;;;
      ret (inl (mk_fval (float_op F32.add (fval 2) (fval 0))))
  | 81 => (* additive_expression: additive_expression '-' multiplicative_expression *)
      create_node "-" 0 ;;;
      ret (inl (mk_fval (float_op F32.sub (fval 2) (fval 0))))
  | 82 => (* multiplicative_expression: unary_expression *)
      ret (inl (mk_fval (fval 0)))
  | 83 => (* multiplicative_expression: multiplicative_expression '*' unary_expression *)
      create_node "*" 0 ;;;
      ret (inl (mk_fval (float_op F32.mul (fval 2) (fval 0))))
  | 84 => (* multiplicative_expression: multiplicative_expression '/' unary_expression *)
      d <- need (fval 0) ;;
      if F32.eqb d F32.zero then
        warning division_by_zero ;;;
        ret (inl (Yfval (F32.of_Z INT_MAX)))
      else
        create_node "/" 0 ;;;
        ret (inl (mk_fval (float_op F32.div (fval 2) (Some d))))
  | 85 => (* multiplicative_expression: multiplicative_expression '%' unary_expression *)
      aty <- gets assigntype ;;
      if aty =? 1 then
        error ("invalid operands to binary expression ('float' and 'float') " +:+ NL +:+ NL) ;;;
        ret (inl yyval)
      else
        r <- int_div Z.rem (ifval 2) (ifval 0) ;;
        create_node "%" 0 ;;;
        ret (inl (mk_fval (F32.of_Z <$> r)))
  | 86 => (* function_definition: type_specifier declarator compound_statement *)
      name <- need (yy_string (yyvsp 1)) ;;
      create_node name 3 ;;;
      close_scope true ;;;
      ret (inl yyval)
  | 87 => (* function_definition: declarator compound_statement *)
      name <- need (yy_string (yyvsp 1)) ;;
      create_node name 3 ;;;
      warning ("type specifier missing, defaults to 'int' " +:+ NL) ;;;
      close_scope true ;;;
      ret (inl yyval)
  | 90 => (* declarator: IDENTIFIER *)
      p <- need (yy_ptr (yyvsp 0)) ;;
      dt <- gets datatype ;;
      addfunc p dt "function" ;;;
      t <- deref p ;;
      ret (inl (Ystring (sym_name t)))
  | 96 => (* parameter_declaration: type_specifier IDENTIFIER *)
      p <- need (yy_ptr (yyvsp 0)) ;;
      dt <- gets datatype ;;
      addfunc p dt "param" ;;;
      ret (inl yyval)
  | _ => ret (inl yyval)
  end.

End Actions.

(** ** The tables of the parser *)

Definition YYFINAL : Z := 16.
Definition YYLAST : Z := 255.
Definition YYNTOKENS : Z := 51.
Definition YYMAXUTOK : Z := 287.
Definition YYPACT_NINF : Z := -78.
Definition YYMAXDEPTH : nat := 10000.

Definition YYEMPTY : Z := -2.
Definition YYEOF : Z := 0.
Definition YYerror : Z := 256.
Definition YYUNDEF : Z := 257.

Definition YYSYMBOL_YYEOF : Z := 0.
Definition YYSYMBOL_YYerror : Z := 1.
Definition YYSYMBOL_YYUNDEF : Z := 2.

Definition yytranslate : list Z :=
  [
      0;     2;     2;     2;     2;     2;     2;     2;     2;     2;
      2;     2;     2;     2;     2;     2;     2;     2;     2;     2;
      2;     2;     2;     2;     2;     2;     2;     2;     2;     2;
      2;     2;     2;    49;     2;     2;     2;    14;     2;     2;
     44;    45;    13;    10;    46;    11;     2;    12;     2;     2;
      2;     2;     2;     2;     2;     2;     2;     2;    48;    43;
     39;    15;    40;    47;     2;     2;     2;     2;     2;     2;
      2;     2;     2;     2;     2;     2;     2;     2;     2;     2;
      2;     2;     2;     2;     2;     2;     2;     2;     2;     2;
      2;     2;     2;     2;     2;     2;     2;     2;     2;     2;
      2;     2;     2;     2;     2;     2;     2;     2;     2;     2;
      2;     2;     2;     2;     2;     2;     2;     2;     2;     2;
      2;     2;     2;    41;     2;    42;    50;     2;     2;     2;
      2;     2;     2;     2;     2;     2;     2;     2;     2;     2;
      2;     2;     2;     2;     2;     2;     2;     2;     2;     2;
      2;     2;     2;     2;     2;     2;     2;     2;     2;     2;
      2;     2;     2;     2;     2;     2;     2;     2;     2;     2;
      2;     2;     2;     2;     2;     2;     2;     2;     2;     2;
      2;     2;     2;     2;     2;     2;     2;     2;     2;     2;
      2;     2;     2;     2;     2;     2;     2;     2;     2;     2;
      2;     2;     2;     2;     2;     2;     2;     2;     2;     2;
      2;     2;     2;     2;     2;     2;     2;     2;     2;     2;
      2;     2;     2;     2;     2;     2;     2;     2;     2;     2;
      2;     2;     2;     2;     2;     2;     2;     2;     2;     2;
      2;     2;     2;     2;     2;     2;     2;     2;     2;     2;
      2;     2;     2;     2;     2;     2;     1;     2;     3;     4;
      5;     6;     7;     8;     9;    16;    17;    18;    19;    20;
     21;    22;    23;    24;    25;    26;    27;    28;    29;    30;
     31;    32;    33;    34;    35;    36;    37;    38
  ]%Z.

Definition yypact : list Z :=
  [
     38;    11; (-78); (-78); (-78); (-78); (-78);    22; (-78);   158;
  (-78); (-78);     6; (-78); (-27);     1; (-78); (-78);    24; (-25);
  (-78); (-27);    93;    43; (-78);    38;    50;    74; (-78);    54;
  (-78);    52;    17; (-78); (-78); (-78); (-78); (-78);    62; (-78);
  (-78);   101;   116;   126; (-78); (-78);   177; (-78); (-78); (-78);
    130; (-78);   135; (-78); (-78); (-78); (-78);    54; (-78); (-78);
  (-78);    44; (-78);    58;   129;   177; (-15);   189;   112;   140;
    156;   163; (-78); (-78);   191;    87; (-78);   123; (-78); (-78);
    173;   177;   217; (-78);   239; (-78); (-78);    17;   177;   177;
    179; (-78); (-78); (-78); (-78);   177; (-78); (-78);   190; (-78);
    177;   177;   177;   177;   177;   177;   177;   177;   177;   177;
    177;   177; (-78);    86; (-78); (-78);    51; (-78);   227;    38;
  (-78);   185;    17; (-78);    41;    76; (-78); (-78); (-78); (-78);
  (-78); (-78); (-78); (-78);   177;   189;   189;    45;   112;   112;
    112;   112;   140;   140; (-78); (-78); (-78);   203;   194; (-78);
  (-78); (-78); (-78);   177;   177;   165;   165; (-78);   177;   204;
    196;   198; (-78);   211; (-78); (-78);   165;   165; (-78); (-78)
  ]%Z.

Definition yydefact : list Z :=
  [
      0;     0;    90;    32;    33;    34;    31;     0;     2;     5;
      6;     8;     0;     9;     0;     0;     1;     7;    39;     0;
     35;     0;     0;     0;    87;     0;     0;     0;    22;     0;
     86;     0;     0;    65;    66;    56;    58;    57;    55;    69;
     70;     0;     0;     0;    11;    51;     0;    67;    68;    23;
      0;    13;     0;    15;    16;    26;    25;     0;    53;    40;
     24;     0;    60;    63;    82;     0;    49;    71;    74;    79;
      0;     0;    98;    93;    97;     0;    94;     0;     4;    10;
      0;     0;    39;    36;     0;    55;    18;     0;     0;     0;
      0;    12;    14;    19;    52;     0;    61;    62;     0;    64;
      0;     0;     0;     0;     0;     0;     0;     0;     0;     0;
      0;     0;    17;     0;    96;    91;     0;    92;     0;     0;
     38;     0;     0;    82;     0;     0;    59;    54;    43;    46;
     47;    48;    44;    45;     0;    72;    73;     0;    77;    78;
     75;    76;    80;    81;    84;    83;    85;    89;     0;    95;
     99;     3;    20;     0;     0;     0;     0;    42;     0;    88;
      0;     0;    30;    27;    50;    21;     0;     0;    29;    28
  ]%Z.

Definition yypgoto : list Z :=
  [
  (-78); (-78); (-22); (-78);   241; (-78);  (-1); (-78);   201; (-78);
      4;    67; (-78); (-78); (-21); (-78);   223; (-78); (-76); (-78);
  (-78);    95; (-28); (-46); (-78); (-78); (-58); (-78); (-78); (-77);
    132;    96; (-78); (-78);  (-6); (-78);   138;   142
  ]%Z.

Definition yydefgoto : list Z :=
  [
      0;     7;     8;     9;    10;    80;    49;    50;    51;    52;
     11;    54;    55;    56;    12;    19;    20;    27;    58;    98;
    134;    59;    60;    61;    62;    63;    64;    65;    66;    67;
     68;    69;    13;    70;    14;    75;    76;    77
  ]%Z.

Definition yytable : list Z :=
  [
     90;    57;    74;    78;    86;   120;    21;    99;    25;   100;
    101;   124;   125;    24;    22;    15;    71;    23;    28;   127;
     30;    29;    16;   135;   136;    18;    53;    33;    34;    57;
    123;   123;   102;    35;    36;    37;    85;    39;    40; (-37);
     26;     1;   123;   123;    71;   123;   123;   123;   123;   123;
    123;   144;   145;   146;    53;    79;   137;     2;   157;   122;
     45;    46;    72;   103;   104; (-90);    47;    48; (-90);     3;
      4;     5;     6;    82;     3;     4;     5;     6;    96;    97;
    105;   106;     3;     4;     5;     6;   155;    94;    73;    81;
     95;    95;    74;   158;   154;    74;    84;   151;   103;   104;
    123;    31;    32;    33;    34;    72; (-90);   160;   161;    35;
     36;    37;    38;    39;    40;   105;   106;     3;     4;     5;
      6;   156;   107;   108;     3;     4;     5;     6;    41;    42;
     43;   147;   115;   116;    22;    44;    45;    46;    31;    32;
     33;    34;    47;    48; (-41);    87;    35;    36;    37;    38;
     39;    40;   109;   110;   111; (-41); (-41); (-41); (-41); (-41);
     88;     3;     4;     5;     6;    41;    42;    43;   117;   118;
     89;    22;    91;    45;    46;    33;    34;     2;    93;    47;
     48;    35;    36;    37;    85;    39;    40;    33;    34;     3;
      4;     5;     6;    35;    36;    37;    85;    39;    40;   112;
     41;    42;    43;   142;   143;   128;    22;   113;    45;    46;
    114;   103;   104;   119;    47;    48;   129;   130;   131;   132;
    133;    46;   162;   163;   126;    95;    47;    48;   105;   106;
    152;   153; (-37);   168;   169;   138;   139;   140;   141;   159;
    118;   165;    95;   166;    95;   121;   150; (-93); (-92);   167;
     17;    92;    83;   164;   149;   148
  ]%Z.

Definition yycheck : list Z :=
  [
     46;    22;    23;    25;    32;    81;    12;    65;     7;    24;
     25;    88;    89;    14;    41;     4;    22;    44;    43;    95;
     21;    46;     0;   100;   101;    19;    22;    10;    11;    50;
     88;    89;    47;    16;    17;    18;    19;    20;    21;    15;
     39;     3;   100;   101;    50;   103;   104;   105;   106;   107;
    108;   109;   110;   111;    50;     5;   102;    19;   134;    87;
     43;    44;    19;    22;    23;    41;    49;    50;    44;    31;
     32;    33;    34;    19;    31;    32;    33;    34;    20;    21;
     39;    40;    31;    32;    33;    34;    45;    43;    45;    15;
     46;    46;   113;    48;   122;   116;    44;   119;    22;    23;
    158;     8;     9;    10;    11;    19;    44;   153;   154;    16;
     17;    18;    19;    20;    21;    39;    40;    31;    32;    33;
     34;    45;    10;    11;    31;    32;    33;    34;    35;    36;
     37;    45;    45;    46;    41;    42;    43;    44;     8;     9;
     10;    11;    49;    50;    15;    44;    16;    17;    18;    19;
     20;    21;    12;    13;    14;    26;    27;    28;    29;    30;
     44;    31;    32;    33;    34;    35;    36;    37;    45;    46;
     44;    41;    42;    43;    44;    10;    11;    19;    43;    49;
     50;    16;    17;    18;    19;    20;    21;    10;    11;    31;
     32;    33;    34;    16;    17;    18;    19;    20;    21;    43;
     35;    36;    37;   107;   108;    15;    41;    44;    43;    44;
     19;    22;    23;    40;    49;    50;    26;    27;    28;    29;
     30;    44;   155;   156;    45;    46;    49;    50;    39;    40;
     45;    46;    15;   166;   167;   103;   104;   105;   106;    45;
     46;    45;    46;    45;    46;     6;    19;    44;    44;    38;
      9;    50;    29;   158;   116;   113
  ]%Z.

Definition yyr1 : list Z :=
  [
      0;    51;    52;    53;    53;    53;    54;    54;    55;    55;
     56;    57;    57;    58;    58;    59;    59;    59;    59;    59;
     60;    60;    61;    62;    62;    62;    62;    63;    63;    64;
     64;    65;    65;    65;    65;    66;    66;    68;    67;    67;
     69;    70;    69;    71;    71;    71;    71;    71;    71;    72;
     72;    73;    73;    74;    74;    75;    75;    75;    75;    75;
     76;    76;    76;    77;    77;    78;    78;    78;    78;    78;
     78;    79;    79;    79;    80;    80;    80;    80;    80;    81;
     81;    81;    82;    82;    82;    82;    83;    83;    84;    84;
     85;    85;    85;    85;    86;    86;    87;    87;    88;    88
  ]%Z.

Definition yyr2 : list Z :=
  [
      0;     2;     1;     6;     4;     1;     1;     2;     1;     1;
      1;     2;     3;     1;     2;     1;     1;     2;     2;     2;
      4;     6;     3;     1;     1;     1;     1;     5;     7;     7;
      5;     1;     1;     1;     1;     1;     3;     0;     4;     1;
      1;     0;     4;     1;     1;     1;     1;     1;     1;     1;
      5;     1;     2;     1;     3;     1;     1;     1;     1;     3;
      1;     2;     2;     1;     2;     1;     1;     1;     1;     1;
      1;     1;     3;     3;     1;     3;     3;     3;     3;     1;
      3;     3;     1;     3;     3;     3;     3;     2;     4;     3;
      1;     4;     4;     3;     1;     3;     2;     1;     1;     3
  ]%Z.

(** [table[i]] for an index within range. *)
Definition at_ (table : list Z) (i : Z) : Z := nth (Z.to_nat i) table 0.

Definition YYTRANSLATE (yyx : Z) : Z :=
  if (0 <=? yyx) && (yyx <=? YYMAXUTOK) then at_ yytranslate yyx else YYSYMBOL_YYUNDEF.

(** ** The scanner, as far as the actions depend on it *)

(** Modelled from the spec: [yylex] hands over the next token of [yyin],
    with the effects of reading it: [line] is the line of the token, an
    identifier goes through [checksym], an opening brace enters a block.
    A token without a value leaves [yylval] as it is.  At the end of the
    input it returns 0. *)
Definition yylex (yylval : YYSTYPE) : M (Z * YYSTYPE) :=
  input <- gets yyin ;;
  match input with
  | [] => ret (YYEOF, yylval)
  | t :: rest =>
      modify (set_yyin rest) ;;;
      modify (set_line (tok_line t)) ;;;
      match tok_lexeme t with
      | LexNone => ret (tok_kind t, yylval)
      | LexInt i => ret (tok_kind t, Yival i)
      | LexFloat f => ret (tok_kind t, Yfval f)
      | LexChar c => ret (tok_kind t, Ycval c)
      | LexIdent name => p <- checksym name ;; ret (tok_kind t, Yptr p)
      | LexBlockOpen =>
          modify (fun g => set_scope (scope g + 1) g) ;;;
          ret (tok_kind t, yylval)
      end
  end.

(** ** [yyparse] *)

(** The locals of [yyparse] that live across its labels.  Both stacks have
    their top at the head; [yyss] is never empty. *)
Record parser : Type := mk_parser {
  yyss : list Z;
  yyvs : list YYSTYPE;
  yychar : Z;
  yylval : YYSTYPE;
  yynerrs : Z;
  yyerrstatus : Z
}.

Inductive outcome : Type :=
| Goto (p : parser)
| Return (yyresult : Z).

Definition yystate (p : parser) : Z := hd 0 (yyss p).

(** [yynewstate]: push [st]; [yysetstate] gives up when the stacks cannot
    grow any more. *)
Definition yynewstate (st : Z) (vs : list YYSTYPE) (p : parser) : M outcome :=
  if (YYMAXDEPTH <=? S (length (yyss p)))%nat then
    yyerror "memory exhausted" ;;; ret (Return 2)
  else
    ret (Goto {| yyss := st :: yyss p; yyvs := vs; yychar := yychar p;
                 yylval := yylval p; yynerrs := yynerrs p;
                 yyerrstatus := yyerrstatus p |}).

(** [yyreduce] with rule [yyn]. *)
Definition yyreduce (yyn : Z) (p : parser) : M outcome :=
  let yylen := Z.to_nat (at_ yyr2 yyn) in
  let yyvsp := fun k => nth k (yyvs p) Yundef in
  let yyval := match yylen with O => Yundef | S k => yyvsp k end in
  r <- yyaction yyvsp yyn yyval ;;
  match r with
  | inr yyresult => ret (Return yyresult)
  | inl yyval =>
      let ss := drop yylen (yyss p) in
      let vs := drop yylen (yyvs p) in
      let yylhs := at_ yyr1 yyn - YYNTOKENS in
      let top := hd 0 ss in
      let yyi := at_ yypgoto yylhs + top in
      let st := if (0 <=? yyi) && (yyi <=? YYLAST) && (at_ yycheck yyi =? top)
                then at_ yytable yyi else at_ yydefgoto yylhs in
      yynewstate st (yyval :: vs)
        {| yyss := ss; yyvs := vs; yychar := yychar p; yylval := yylval p;
           yynerrs := yynerrs p; yyerrstatus := yyerrstatus p |}
  end.

(** The loop of [yyerrlab1]: pop states until one shifts the error token. *)
Fixpoint yyerrpop (ss : list Z) (vs : list YYSTYPE) : option (Z * list Z * list YYSTYPE) :=
  match ss with
  | [] => None
  | st :: below =>
      let yyn := at_ yypact st in
      let yyi := yyn + YYSYMBOL_YYerror in
      if negb (yyn =? YYPACT_NINF) && (0 <=? yyi) && (yyi <=? YYLAST)
         && (at_ yycheck yyi =? YYSYMBOL_YYerror) && (0 <? at_ yytable yyi)
      then Some (at_ yytable yyi, ss, vs)
      else match below with
           | [] => None
           | _ => yyerrpop below (tl vs)
           end
  end.

Definition yyerrlab1 (p : parser) : M outcome :=
  match yyerrpop (yyss p) (yyvs p) with
  | None => ret (Return 1)
  | Some (st, ss, vs) =>
      yynewstate st (yylval p :: vs)
        {| yyss := ss; yyvs := vs; yychar := yychar p; yylval := yylval p;
           yynerrs := yynerrs p; yyerrstatus := 3 |}
  end.

Definition yyerrlab (p : parser) : M outcome :=
  when (yyerrstatus p =? 0) (yyerror "syntax error") ;;;
  let n := if yyerrstatus p =? 0 then yynerrs p + 1 else yynerrs p in
  if (yyerrstatus p =? 3) && (yychar p =? YYEOF) then ret (Return 1)
  else
    yyerrlab1 {| yyss := yyss p; yyvs := yyvs p;
                 yychar := if (yyerrstatus p =? 3) && (YYEOF <? yychar p)
                           then YYEMPTY else yychar p;
                 yylval := yylval p; yynerrs := n; yyerrstatus := yyerrstatus p |}.

Definition yydefault (p : parser) : M outcome :=
  let yyn := at_ yydefact (yystate p) in
  if yyn =? 0 then yyerrlab p else yyreduce yyn p.

(** The part of [yybackup] after the lookahead [yytoken] is known: shift
    it, reduce, or go to the default action. *)
Definition yylookahead (yytoken yyn : Z) (p : parser) : M outcome :=
  let yyn := yyn + yytoken in
  if (yyn <? 0) || (YYLAST <? yyn) || negb (at_ yycheck yyn =? yytoken) then yydefault p
  else
    let yyn := at_ yytable yyn in
    if yyn <=? 0 then yyreduce (- yyn) p
    else
      yynewstate yyn (yylval p :: yyvs p)
        {| yyss := yyss p; yyvs := yyvs p; yychar := YYEMPTY; yylval := yylval p;
           yynerrs := yynerrs p;
           yyerrstatus := if yyerrstatus p =? 0 then 0 else yyerrstatus p - 1 |}.

(** One round from [yysetstate] to the next [yynewstate]. *)
Definition yybackup (p : parser) : M outcome :=
  if yystate p =? YYFINAL then ret (Return 0)
  else
    let yyn := at_ yypact (yystate p) in
    if yyn =? YYPACT_NINF then yydefault p
    else
      cl <- (if yychar p =? YYEMPTY then yylex (yylval p)
             else ret (yychar p, yylval p)) ;;
      let c := fst cl in
      let lval := snd cl in
      if c <=? YYEOF then
        yylookahead YYSYMBOL_YYEOF yyn
          {| yyss := yyss p; yyvs := yyvs p; yychar := YYEOF; yylval := lval;
             yynerrs := yynerrs p; yyerrstatus := yyerrstatus p |}
      else if c =? YYerror then
        yyerrlab1 {| yyss := yyss p; yyvs := yyvs p; yychar := YYUNDEF; yylval := lval;
                     yynerrs := yynerrs p; yyerrstatus := yyerrstatus p |}
      else
        yylookahead (YYTRANSLATE c) yyn
          {| yyss := yyss p; yyvs := yyvs p; yychar := c; yylval := lval;
             yynerrs := yynerrs p; yyerrstatus := yyerrstatus p |}.

(** [yyparse] for at most [fuel] rounds: its result and its locals at the
    end, or [None] when the rounds are used up. *)
Fixpoint yyloop (fuel : nat) (p : parser) : M (option (Z * parser)) :=
  match fuel with
  | O => ret None
  | S fuel' =>
      o <- yybackup p ;;
      match o with
      | Return yyresult => ret (Some (yyresult, p))
      | Goto p' => yyloop fuel' p'
      end
  end.

Definition yyinit : parser :=
  {| yyss := [0]; yyvs := [Yundef]; yychar := YYEMPTY; yylval := Yundef;
     yynerrs := 0; yyerrstatus := 0 |}.

Definition yyparse (fuel : nat) : M (option Z) :=
  r <- yyloop fuel yyinit ;; ret (fst <$> r).

(** ** [main] *)

(** The part of [main] up to the return of [yyparse]. *)
Definition main_parse (fuel : nat) : M (option Z) :=
  modify (set_tree_top [None]) ;;;
  printf NL ;;;
  yyparse fuel.

(** The part of [main] after [yyparse]. *)
Definition main_print : M Z :=
  root <- pop_tree ;;
  root <- get_levels root 1 ;;
  preorder (Some root) ;;;
  printf (NL +:+ NL +:+ "Preorder Traversal" +:+ NL +:+ NL) ;;;
  buf <- gets preBuf ;;
  printf (buf +:+ NL) ;;;
  ret 0.

Definition main (fuel : nat) : M (option Z) :=
  r <- main_parse fuel ;;
  match r with
  | None => ret None
  | Some _ => z <- main_print ;; ret (Some z)
  end.

(** ** Tokens *)

Definition RETURN : Z := 264.
Definition INTEGER_LITERAL : Z := 265.
Definition CHARACTER_LITERAL : Z := 266.
Definition FLOAT_LITERAL : Z := 267.
Definition IDENTIFIER : Z := 268.
Definition INC_OP : Z := 269.
Definition DEC_OP : Z := 270.
Definition LE_OP : Z := 271.
Definition GE_OP : Z := 272.
Definition EQ_OP : Z := 273.
Definition NE_OP : Z := 274.
Definition MUL_ASSIGN : Z := 275.
Definition DIV_ASSIGN : Z := 276.
Definition MOD_ASSIGN : Z := 277.
Definition ADD_ASSIGN : Z := 278.
Definition SUB_ASSIGN : Z := 279.
Definition CHAR : Z := 280.
Definition INT : Z := 281.
Definition FLOAT : Z := 282.
Definition VOID : Z := 283.
Definition FOR : Z := 284.
Definition WHILE : Z := 285.
Definition IF : Z := 286.
Definition ELSE : Z := 287.

(** Modelled from the spec: what the scanner delivers for the lexemes used
    in the scenarios.  The codes of the type keywords are the ones the
    actions and [printsymtable] test for. *)
Module Lex.

(** A token that is its own character, as [yylex] returns it. *)
Definition chr (c : string) (ln : Z) : token :=
  match c with
  | String a _ =>
      let k := Z.of_N (Ascii.N_of_ascii a) in
      {| tok_kind := k; tok_lexeme := if k =? 123 then LexBlockOpen else LexNone;
         tok_line := ln |}
  | EmptyString => {| tok_kind := YYUNDEF; tok_lexeme := LexNone; tok_line := ln |}
  end.

Definition kw (kind : Z) (ln : Z) : token :=
  {| tok_kind := kind; tok_lexeme := LexNone; tok_line := ln |}.

Definition int_ (ln : Z) : token :=
  {| tok_kind := INT; tok_lexeme := LexInt 0; tok_line := ln |}.
Definition float_ (ln : Z) : token :=
  {| tok_kind := FLOAT; tok_lexeme := LexInt 1; tok_line := ln |}.
Definition char_ (ln : Z) : token :=
  {| tok_kind := CHAR; tok_lexeme := LexInt 2; tok_line := ln |}.
Definition void_ (ln : Z) : token :=
  {| tok_kind := VOID; tok_lexeme := LexInt 3; tok_line := ln |}.

Definition id (name : string) (ln : Z) : token :=
  {| tok_kind := IDENTIFIER; tok_lexeme := LexIdent name; tok_line := ln |}.
Definition num (i : Z) (ln : Z) : token :=
  {| tok_kind := INTEGER_LITERAL; tok_lexeme := LexInt i; tok_line := ln |}.

(** The tokens of one source line: each builder gets the line number. *)
Definition on_line (ln : Z) (ts : list (Z -> token)) : list token :=
  map (fun t => t ln) ts.

End Lex.


(** ** Notions used in the statements *)

(** [hoare P m Q]: a run of [m] that starts in [P] and returns ends in [Q]. *)
Definition hoare {A} (P : globals -> Prop) (m : M A) (Q : A -> globals -> Prop) : Prop :=
  forall g a g', P g -> m g = Some (a, g') -> Q a g'.

Definition warning_text (ln : Z) (text : string) : list string :=
  ["Line:" +:+ fmt_d ln +:+ ": "; ESC +:+ "[1;35m"; "warning: "; ESC +:+ "[0m"; text].

Definition opt_all (P : Node -> Prop) (o : option Node) : Prop :=
  match o with Some n => P n | None => True end.

(** Induction on trees: the property holds of a node when it holds of the
    children that are there. *)
Section Node_induction.

Variable P : Node -> Prop.
Hypothesis step : forall l r v b tok lvl,
  opt_all P l -> opt_all P r -> opt_all P v -> opt_all P b -> P (mkNode l r v b tok lvl).

Fixpoint Node_ind (n : Node) : P n :=
  match n with
  | mkNode l r v b tok lvl =>
      step l r v b tok lvl
        (match l with Some c => Node_ind c | None => I end)
        (match r with Some c => Node_ind c | None => I end)
        (match v with Some c => Node_ind c | None => I end)
        (match b with Some c => Node_ind c | None => I end)
  end.

End Node_induction.

(** The text that one run of [preorder] adds to [preBuf]. *)
Fixpoint serialize (node : Node) : string :=
  match node with
  | mkNode l r v b tok _ =>
      let inner := is_some l || is_some r || is_some v || is_some b in
      (if inner then " ( " else "") +:+ tok +:+ " "
      +:+ match l with Some n => serialize n | None => "" end
      +:+ match r with Some n => serialize n | None => "" end
      +:+ match v with Some n => serialize n | None => "" end
      +:+ match b with Some n => serialize n | None => "" end
      +:+ (if inner then ") " else "")
  end.

Definition serialize_opt (o : option Node) : string :=
  match o with Some n => serialize n | None => "" end.

Definition leaf (tok : string) : Node := mkNode None None None None tok 0.
Definition binary (tok : string) (l r : Node) : Node :=
  mkNode (Some l) (Some r) None None tok 0.

(** The tree of [if (a < b) x = 1; else x = 2;]. *)
Definition if_tree : Node :=
  mkNode (Some (binary "<" (leaf "a") (leaf "b")))
         (Some (binary "=" (leaf "x") (leaf "1")))
         (Some (binary "=" (leaf "x") (leaf "2")))
         None "if" 0.

(** A program around the statement:
<<
int a; int b; int x;
int main() {
if (a < b) x = 1; else x = 2;
}
>> *)
Definition if_program : list token :=
  Lex.on_line 1 [Lex.int_; Lex.id "a"; Lex.chr ";"; Lex.int_; Lex.id "b"; Lex.chr ";";
                 Lex.int_; Lex.id "x"; Lex.chr ";"] ++
  Lex.on_line 2 [Lex.int_; Lex.id "main"; Lex.chr "("; Lex.chr ")"; Lex.chr "{"] ++
  Lex.on_line 3 [Lex.kw IF; Lex.chr "("; Lex.id "a"; Lex.chr "<"; Lex.id "b"; Lex.chr ")";
                 Lex.id "x"; Lex.chr "="; Lex.num 1; Lex.chr ";";
                 Lex.kw ELSE; Lex.id "x"; Lex.chr "="; Lex.num 2; Lex.chr ";"] ++
  Lex.on_line 4 [Lex.chr "}"].

(** What a run returns together with an observation of the state it ends
    in. *)
Definition observe {A B} (f : globals -> B) (r : option (A * globals)) : option (A * B) :=
  match r with
  | Some (a, g) => Some (a, f g)
  | None => None
  end.


(** ** Resolution of a name, declaratively *)

(** A symbol that [checksym] returns for [name]: same name and valid. *)
Definition visible (name : string) (t : node) : bool :=
  String.eqb name (sym_name t) && (sym_valid t =? 1).

(** A symbol of that name of a block that has been closed, deeper than
    the current scope [sc]. *)
Definition closed_inner (name : string) (sc : Z) (t : node) : bool :=
  String.eqb name (sym_name t) && (sym_scope t >? sc) && (sym_valid t =? 0).

Definition first_visible (name : string) (l : list node) : option (nat * node) :=
  list_find (fun t => visible name t = true) l.

(** [check_un] after the loop has gone over the entries [scanned] without
    returning. *)
Definition flag_after (name : string) (sc old : Z) (scanned : list node) : Z :=
  if existsb (closed_inner name sc) scanned then 0 else old.

(** The record that [checksym] allocates for [name] in the state [g]. *)
Definition new_symbol (name : string) (g : globals) : node :=
  {| sym_token := ""; sym_name := name; sym_dtype := -1; sym_scope := scope g;
     sym_lineno := line g; sym_valid := 1; sym_val := Vundef |}.

(** What [checksym name] does in the state [g], read off the table. *)
Definition resolution (name : string) (g : globals) : nat * globals :=
  match first_visible name (first g) with
  | Some (i, t) =>
      (i, set_check_un (if sym_scope t <? scope g then 1
                        else flag_after name (scope g) (check_un g) (take i (first g))) g)
  | None =>
      (length (first g),
       set_first (first g ++ [new_symbol name g])
         (set_check_un (flag_after name (scope g) (check_un g) (first g)) g))
  end.

(** The four outcomes of [resolveOrDeclare] in the words of the
    specification, in its order of precedence. *)
Inductive outcome4 : Type :=
| Inherited (i : nat)
| Current (i : nat)
| Reopened
| Unknown.

Definition outer_visible (name : string) (sc : Z) (t : node) : bool :=
  visible name t && (sym_scope t <? sc).
Definition current_visible (name : string) (sc : Z) (t : node) : bool :=
  visible name t && (sym_scope t =? sc).

Definition resolveOrDeclare_outcome (name : string) (g : globals) : outcome4 :=
  match list_find (fun t => outer_visible name (scope g) t = true) (first g) with
  | Some (i, _) => Inherited i
  | None =>
      match list_find (fun t => current_visible name (scope g) t = true) (first g) with
      | Some (i, _) => Current i
      | None => if existsb (closed_inner name (scope g)) (first g) then Reopened else Unknown
      end
  end.

(** The symbol returned, the table afterwards, and whether the inherited
    flag is set. *)
Definition resolveOrDeclare (name : string) (g : globals) : nat * list node * bool :=
  match resolveOrDeclare_outcome name g with
  | Inherited i => (i, first g, true)
  | Current i => (i, first g, false)
  | Reopened => (length (first g), first g ++ [new_symbol name g], false)
  | Unknown => (length (first g), first g ++ [new_symbol name g], false)
  end.

(** [checksym] decides as the specification says, in the state [g]. *)
Definition follows_precedence (name : string) (g : globals) : Prop :=
  exists p g',
    checksym name g = Some (p, g') /\
    (p, first g') = fst (resolveOrDeclare name g) /\
    (snd (resolveOrDeclare name g) = true -> check_un g' = 1).

(** The valid symbols called [name] lie in the table in the order of
    their scopes, none deeper than the current scope. *)
Definition scope_ordered (name : string) (g : globals) : Prop :=
  forall i j ti tj,
    (i <= j)%nat -> first g !! i = Some ti -> first g !! j = Some tj ->
    visible name ti = true -> visible name tj = true ->
    sym_scope ti <= sym_scope tj <= scope g.

Definition sym (name : string) (dtype sc valid : Z) (v : value) : node :=
  {| sym_token := "identifier"; sym_name := name; sym_dtype := dtype; sym_scope := sc;
     sym_lineno := 1; sym_valid := valid; sym_val := v |}.

(** A table in which the symbol of the current scope comes before the one
    of the outer scope. *)
Definition inverted_table : globals :=
  set_scope 1 (set_first [sym "a" 0 1 1 (Vi 6); sym "a" 0 0 1 (Vi 5)] (init_globals [])).


(** ** Declarations and blocks as events *)

(** What the parser and the scanner do to the symbol table for a block
    and for a declaration or a use of a name in it. *)
Inductive scope_event : Type :=
| BlockOpen
| BlockClose
| DeclareInit (dt : Z) (name : string) (i : Z)
| DeclarePlain (dt : Z) (name : string)
| Use (name : string).

(** The value stack of an action whose right-hand side is [vs], the last
    symbol first. *)
Definition stack_of (vs : list YYSTYPE) : nat -> YYSTYPE :=
  fun k => nth k vs Yundef.

Definition reduce (yyn : Z) (vs : list YYSTYPE) : M unit :=
  yyaction (stack_of vs) yyn (default Yundef (last vs)) ;;; ret tt.

(** - [BlockOpen]: the scanner reads an opening brace.
    - [BlockClose]: rule 23 after the closing brace.
    - [DeclareInit dt name i], for [T name = i;]: rules 31 to 34 on the
      type keyword, the scanner on the identifier, the mid-rule action 37,
      rule 56 on the literal, rule 38.
    - [DeclarePlain dt name], for [T name;]: the type keyword, the
      identifier, rule 39.
    - [Use name], for [name] in an expression: the identifier, rule 55. *)
Definition run_event (e : scope_event) : M unit :=
  match e with
  | BlockOpen => modify (fun g => set_scope (scope g + 1) g)
  | BlockClose => reduce 23 [Yundef]
  | DeclareInit dt name i =>
      reduce 33 [Yival dt] ;;;
      p <- checksym name ;;
      reduce 37 [Yptr p] ;;;
      reduce 56 [Yival i] ;;;
      reduce 38 [Yfval (F32.of_Z i); Yundef; Yundef; Yptr p]
  | DeclarePlain dt name =>
      reduce 33 [Yival dt] ;;;
      p <- checksym name ;;
      reduce 39 [Yptr p]
  | Use name =>
      p <- checksym name ;;
      reduce 55 [Yptr p]
  end.

Fixpoint run_events (es : list scope_event) : M unit :=
  match es with
  | [] => ret tt
  | e :: es' => run_event e ;;; run_events es'
  end.

(** The statements of a block that bear on the symbols: the events above
    and the assignment [name = v;] of an integer literal to a name. *)
Inductive block_event : Type :=
| Scoped (e : scope_event)
| Assign (name : string) (v : Z).

(** [Assign name v], for [name = v;]: the scanner on the identifier, rule
    55, the mid-rule action 41, rule 43 on ['='], rule 56 on the literal,
    rule 42, with the value of the literal as the value of the right-hand
    side; ['='] does not read the value of the left-hand side. *)
Definition run_block_event (e : block_event) : M unit :=
  match e with
  | Scoped e => run_event e
  | Assign name v =>
      p <- checksym name ;;
      reduce 55 [Yptr p] ;;;
      reduce 41 [] ;;;
      reduce 43 [Yundef] ;;;
      reduce 56 [Yival v] ;;;
      reduce 42 [Yfval (F32.of_Z v); Yundef; Yundef; Yundef]
  end.

Fixpoint run_block_events (es : list block_event) : M unit :=
  match es with
  | [] => ret tt
  | e :: es' => run_block_event e ;;; run_block_events es'
  end.



(** The program of the scenario up to the end of the inner block:
<<
int main() {
int a = 5;
{ int a = 6; }
>> *)
Definition shadow_program : list token :=
  Lex.on_line 1 [Lex.int_; Lex.id "main"; Lex.chr "("; Lex.chr ")"; Lex.chr "{"] ++
  Lex.on_line 2 [Lex.int_; Lex.id "a"; Lex.chr "="; Lex.num 5; Lex.chr ";"] ++
  Lex.on_line 3 [Lex.chr "{"; Lex.int_; Lex.id "a"; Lex.chr "="; Lex.num 6; Lex.chr ";";
                 Lex.chr "}"].

(** [main] up to the point where [yyparse] has gone through [rounds]
    rounds. *)
Definition main_rounds (rounds : nat) : M unit :=
  modify (set_tree_top [None]) ;;;
  printf NL ;;;
  yyloop rounds yyinit ;;;
  ret tt.

(** What the events and the parser can be compared on: the table without
    the line numbers, the scope, the tree stack and what has been
    printed. *)
Definition table_view (g : globals)
  : list (string * string * Z * Z * Z * value) * Z * tree_stack * list string :=
  (map (fun t => (sym_token t, sym_name t, sym_dtype t, sym_scope t, sym_valid t, sym_val t))
       (first g),
   scope g, tree_top g, stdout g).


(** The symbol at [i], the record [t], is the first valid symbol called
    [name], and the scope is [c]. *)
Definition keeps (name : string) (i : nat) (t : node) (c : Z) (g : globals) : Prop :=
  first_visible name (first g) = Some (i, t) /\ scope g = c.

(** The runs of [m] keep that, whatever the scope is. *)
Definition stable {A} (name : string) (i : nat) (t : node) (m : M A) : Prop :=
  forall c, hoare (keeps name i t c) m (fun _ => keeps name i t c).




(** ** Programs of the scenarios *)

(** The nodes that a tree stack holds, the NULL cells left out. *)
Definition nodes_of (s : tree_stack) : list Node := omap id s.

(**
<<
int main() {
float x = 10 / 0;
}
>> *)
Definition division_program : list token :=
  Lex.on_line 1 [Lex.int_; Lex.id "main"; Lex.chr "("; Lex.chr ")"; Lex.chr "{"] ++
  Lex.on_line 2 [Lex.float_; Lex.id "x"; Lex.chr "="; Lex.num 10; Lex.chr "/"; Lex.num 0;
                 Lex.chr ";"] ++
  Lex.on_line 3 [Lex.chr "}"].

(**
<<
int main() {
int a = 1;
a++;
}
>> *)
Definition increment_program : list token :=
  Lex.on_line 1 [Lex.int_; Lex.id "main"; Lex.chr "("; Lex.chr ")"; Lex.chr "{"] ++
  Lex.on_line 2 [Lex.int_; Lex.id "a"; Lex.chr "="; Lex.num 1; Lex.chr ";"] ++
  Lex.on_line 3 [Lex.id "a"; Lex.kw INC_OP; Lex.chr ";"] ++
  Lex.on_line 4 [Lex.chr "}"].

(**
<<
int main() {
int a = 1;
return a;
}
>> *)
Definition return_program : list token :=
  Lex.on_line 1 [Lex.int_; Lex.id "main"; Lex.chr "("; Lex.chr ")"; Lex.chr "{"] ++
  Lex.on_line 2 [Lex.int_; Lex.id "a"; Lex.chr "="; Lex.num 1; Lex.chr ";"] ++
  Lex.on_line 3 [Lex.kw RETURN; Lex.id "a"; Lex.chr ";"] ++
  Lex.on_line 4 [Lex.chr "}"].

(**
<<
int main() {
int a = 5;
{ int a = 6; a = 7; }
}
>> *)
Definition inner_assignment_program : list token :=
  Lex.on_line 1 [Lex.int_; Lex.id "main"; Lex.chr "("; Lex.chr ")"; Lex.chr "{"] ++
  Lex.on_line 2 [Lex.int_; Lex.id "a"; Lex.chr "="; Lex.num 5; Lex.chr ";"] ++
  Lex.on_line 3 [Lex.chr "{"; Lex.int_; Lex.id "a"; Lex.chr "="; Lex.num 6; Lex.chr ";";
                 Lex.id "a"; Lex.chr "="; Lex.num 7; Lex.chr ";"; Lex.chr "}"] ++
  Lex.on_line 4 [Lex.chr "}"].

(**
<<
int main() {
float x = 1;
x /= 0;
}
>> *)
Definition compound_division_program : list token :=
  Lex.on_line 1 [Lex.int_; Lex.id "main"; Lex.chr "("; Lex.chr ")"; Lex.chr "{"] ++
  Lex.on_line 2 [Lex.float_; Lex.id "x"; Lex.chr "="; Lex.num 1; Lex.chr ";"] ++
  Lex.on_line 3 [Lex.id "x"; Lex.kw DIV_ASSIGN; Lex.num 0; Lex.chr ";"] ++
  Lex.on_line 4 [Lex.chr "}"].

(** The same with [int x = 1;] in line 2. *)
Definition compound_division_int_program : list token :=
  Lex.on_line 1 [Lex.int_; Lex.id "main"; Lex.chr "("; Lex.chr ")"; Lex.chr "{"] ++
  Lex.on_line 2 [Lex.int_; Lex.id "x"; Lex.chr "="; Lex.num 1; Lex.chr ";"] ++
  Lex.on_line 3 [Lex.id "x"; Lex.kw DIV_ASSIGN; Lex.num 0; Lex.chr ";"] ++
  Lex.on_line 4 [Lex.chr "}"].

(** A table with one declaration, [int a = 5;] at the top level. *)
Definition outer_table : globals :=
  set_first [sym "a" 0 0 1 (Vi 5)] (init_globals []).


(** ** Functions of the front end that the parser does not call *)

(** [addtosymbol]: the record [n], which [addsymbol] has set up (its
    [link] is NULL), is linked after the last symbol; the result is the
    pointer to it. *)
Definition addtosymbol (n : node) : M nat :=
  fst <- gets first ;;
  match fst with
  | [] => modify (set_first [n]) ;;; ret 0%nat
  | _ => modify (set_first (fst ++ [n])) ;;; ret (length fst)
  end.

(** The [while] loop of [getmaxlevel], from [temp] with [count]. *)
Fixpoint getmaxlevel_loop (temp : Node) (count : Z) : Z :=
  match temp with
  | mkNode l _ _ _ _ _ =>
      match l with
      | Some n => getmaxlevel_loop n (count + 1)
      | None => count
      end
  end.

(** [temp->left] with [root == NULL] does not return. *)
Definition getmaxlevel (root : option Node) : option Z :=
  match root with
  | None => None
  | Some n => to_int (getmaxlevel_loop n 0 * 2)
  end.

(** [m] run [k] times. *)
Fixpoint times (k : nat) (m : M unit) : M unit :=
  match k with
  | O => ret tt
  | S k' => m ;;; times k' m
  end.

(** [for (int j = 0; j <= h-1-level; j++) printf(" ");] *)
Definition blanks (level h : Z) : M unit :=
  a <- need (to_int (h - 1)) ;;
  n <- need (to_int (a - level)) ;;
  times (Z.to_nat (n + 1)) (printf " ").

Fixpoint printGivenLevel_at (root : Node) (level h : Z) : M unit :=
  match root with
  | mkNode l r _ _ tok _ =>
      if level =? 1 then
        blanks level h ;;;
        printf (tok +:+ " ")
      else if level >? 1 then
        match l with Some n => printGivenLevel_at n (level - 1) h | None => ret tt end ;;;
        blanks level h ;;;
        match r with Some n => printGivenLevel_at n (level - 1) h | None => ret tt end
      else ret tt
  end.

Definition printGivenLevel (root : option Node) (level h : Z) : M unit :=
  match root with
  | None => ret tt
  | Some n => printGivenLevel_at n level h
  end.

(** The body of [printtree] is commented out. *)
Definition printtree (root : option Node) : M unit := ret tt.

(** ** Further notions used in the statements *)

Definition error_text (ln : Z) (text : string) : list string :=
  ["Line:" +:+ fmt_d ln +:+ ": "; ESC +:+ "[1;31m"; "error: "; ESC +:+ "[0m"; text].

(** The number of cells that [create_node] takes off the tree stack. *)
Definition cells_taken (leaf : Z) : nat :=
  if leaf =? 0 then 2%nat else if leaf =? 1 then 0%nat else 1%nat.

(** The child of [n] on one side. *)
Definition child (right : bool) (n : Node) : option Node :=
  if right then n_right n else n_left n.

(** The node at the end of a path of left ([false]) and right ([true])
    steps from [n]. *)
Fixpoint descend (path : list bool) (n : Node) : option Node :=
  match path with
  | [] => Some n
  | d :: path' => c ← child d n; descend path' c
  end.

(** The labels of the nodes [d] steps below [n] over [left] and [right],
    from left to right. *)
Fixpoint labels_at (d : nat) (n : Node) : list string :=
  match d with
  | O => [n_token n]
  | S d' =>
      match n with
      | mkNode l r _ _ _ _ =>
          match l with Some c => labels_at d' c | None => [] end ++
          match r with Some c => labels_at d' c | None => [] end
      end
  end.

(** What [printsymtable] needs of a row: a type it has a name for, and a
    value of that type. *)
Definition printable (t : node) : bool :=
  if sym_dtype t =? 0 then is_some (val_i (sym_val t))
  else if sym_dtype t =? 1 then is_some (val_f (sym_val t))
  else if sym_dtype t =? 2 then is_some (val_c (sym_val t))
  else sym_dtype t =? 3.

(** The symbols that [cleansymbol] unlinks. *)
Definition unlinked (t : node) : bool :=
  (sym_dtype t =? -1)
  || (String.eqb (sym_name t) "main" && String.eqb (sym_token t) "function").

(** The warning of an initialisation or an assignment, by the type of the
    variable and the type of the last operand read. *)
Definition conversion_warning (dtype aty : Z) : option string :=
  if (dtype =? 0) && (aty =? 1) then Some float_to_int
  else if (dtype =? 1) && (aty =? 2) then Some char_to_float
  else if (dtype =? 2) && (aty =? 1) then Some float_to_char
  else None.

Definition warning_lines (ln : Z) (w : option string) : list string :=
  match w with
  | Some text => warning_text ln text
  | None => []
  end.

Definition YYNSTATES : Z := 170.

(** State [st] shifts the error token. *)
Definition shifts_error (st : Z) : bool :=
  let yyn := at_ yypact st in
  let yyi := yyn + YYSYMBOL_YYerror in
  negb (yyn =? YYPACT_NINF) && (0 <=? yyi) && (yyi <=? YYLAST)
  && (at_ yycheck yyi =? YYSYMBOL_YYerror) && (0 <? at_ yytable yyi).

(**
<<
int a;
int main() {
a = 1; b = 2;
}
>> *)
Definition unreported_program : list token :=
  Lex.on_line 1 [Lex.int_; Lex.id "a"; Lex.chr ";"] ++
  Lex.on_line 2 [Lex.int_; Lex.id "main"; Lex.chr "("; Lex.chr ")"; Lex.chr "{"] ++
  Lex.on_line 3 [Lex.id "a"; Lex.chr "="; Lex.num 1; Lex.chr ";";
                 Lex.id "b"; Lex.chr "="; Lex.num 2; Lex.chr ";"] ++
  Lex.on_line 4 [Lex.chr "}"].

(** The value that a declaration or an assignment stores in a variable
    of type [dtype] for the expression value [f]: converted to [int] for
    an [int], and further to [char] for a [char]. *)
Definition converted (dtype : Z) (f : option float) : value :=
  if dtype =? 0 then store_i (f ≫= F32.trunc)
  else if dtype =? 1 then store_f f
  else store_c (to_char <$> (f ≫= F32.trunc)).





(** The record of a variable once a declaration has typed it. *)
Definition declared (t : node) (dtype : Z) (v : value) : node :=
  {| sym_token := "identifier"; sym_name := sym_name t; sym_dtype := dtype;
     sym_scope := sym_scope t; sym_lineno := sym_lineno t; sym_valid := sym_valid t;
     sym_val := v |}.

(** The parser is not recovering from an error, and the states on its
    stack are states of the automaton. *)
Definition in_order (p : parser) : Prop :=
  yyerrstatus p = 0 /\ Forall (fun st => st < YYNSTATES) (yyss p).

(** The label of the node that rule 64 builds for the unary operator
    that [unaryop] stands for. *)
Definition unary_label (op : Z) : option string :=
  if op =? 1 then Some "'+'"
  else if op =? 2 then Some "'-'"
  else if op =? 3 then Some "!"
  else if op =? 4 then Some "~"
  else if op =? 5 then Some "++"
  else if op =? 6 then Some "--"
  else None.


(** * The lexical analyser

    The second program of the file: it reads a source file and lists the
    keywords, identifiers, operators, numbers and other symbols in it.

    Conventions of the embedding.
    - A [std::string] is a [string]; the index [i] into [content] is
      represented by the rest of the content from [i] on, which is empty
      when [i] has reached or passed the length.
    - A [std::set] is the list of its elements in increasing order, each
      once.
    - [isalnum] and [isdigit] are those of the C locale; a byte above 127
      is neither.
    - [cout] and [cerr] are the texts written to them. *)

Module Lexical.

Definition keywords : list string :=
  [ "auto"; "break"; "case"; "char"; "const"; "continue"; "default";
    "do"; "double"; "else"; "enum"; "extern"; "float"; "for"; "goto";
    "if"; "int"; "long"; "register"; "return"; "short"; "signed";
    "sizeof"; "static"; "struct"; "switch"; "typedef"; "union";
    "unsigned"; "void"; "volatile"; "while" ].

(** The [for] loop of [isKeyword] over the keywords from [i] on. *)
Fixpoint isKeyword_loop (rest : list string) (buffer : string) : Z :=
  match rest with
  | [] => 0
  | k :: rest' => if String.eqb k buffer then 1 else isKeyword_loop rest' buffer
  end.

Definition isKeyword (buffer : string) : Z := isKeyword_loop keywords buffer.

Definition logicalOps : list string :=
  ["&&"; "||"; "!"; "<"; ">"; "<="; ">="; "=="; "!="].

Definition mathOps : list string :=
  ["+"; "-"; "*"; "/"; "="; "+="; "-="; "*="; "/="; "%"].

(** [unordered_set::count], as a truth value. *)
Definition count (ops : list string) (s : string) : bool :=
  existsb (String.eqb s) ops.

Definition isLogicalOperator (s : string) : bool := count logicalOps s.
Definition isMathOperator (s : string) : bool := count mathOps s.

(** [std::set::insert]. *)
Fixpoint set_insert {A} (compare : A -> A -> comparison) (x : A) (s : list A) : list A :=
  match s with
  | [] => [x]
  | y :: s' =>
      match compare x y with
      | Lt => x :: s
      | Eq => s
      | Gt => y :: set_insert compare x s'
      end
  end.

Definition quote : Ascii.ascii := Ascii.ascii_of_nat 34.
Definition backslash : Ascii.ascii := Ascii.ascii_of_nat 92.
Definition newline : Ascii.ascii := Ascii.ascii_of_nat 10.
Definition slash : Ascii.ascii := Ascii.ascii_of_nat 47.
Definition star : Ascii.ascii := Ascii.ascii_of_nat 42.
Definition underscore : Ascii.ascii := Ascii.ascii_of_nat 95.

Definition otherSymbols : string :=
  ",;(){}[]'" +:+ String quote (":" +:+ String backslash "&|").

(** [otherSymbols.find(c) != string::npos] *)
Fixpoint find (c : Ascii.ascii) (s : string) : bool :=
  match s with
  | EmptyString => false
  | String c' s' => Ascii.eqb c c' || find c s'
  end.

Record operators : Type := mk_operators {
  logicalOperators : list string;
  mathOperators : list string;
  others : list Ascii.ascii
}.

Record words : Type := mk_words {
  keywordsFound : list string;
  identifiersFound : list string;
  numericalValues : list string
}.

Definition insert_logical (s : string) (o : operators) : operators :=
  {| logicalOperators := set_insert String.compare s (logicalOperators o);
     mathOperators := mathOperators o; others := others o |}.
Definition insert_math (s : string) (o : operators) : operators :=
  {| logicalOperators := logicalOperators o;
     mathOperators := set_insert String.compare s (mathOperators o);
     others := others o |}.
Definition insert_other (c : Ascii.ascii) (o : operators) : operators :=
  {| logicalOperators := logicalOperators o; mathOperators := mathOperators o;
     others := set_insert Ascii.compare c (others o) |}.

(** [++i], from the rest at [i] to the rest at [i + 1]. *)
Definition advance (s : string) : string :=
  match s with
  | String _ s' => s'
  | EmptyString => EmptyString
  end.

(** [while (i < content.length() && content[i] != '\n') ++i;] *)
Fixpoint skip_line (s : string) : string :=
  match s with
  | EmptyString => s
  | String c s' => if Ascii.eqb c newline then s else skip_line s'
  end.

(** [while (i + 1 < content.length() &&
           !(content[i] == '*' && content[i + 1] == '/')) ++i;] *)
Fixpoint skip_block (s : string) : string :=
  match s with
  | String c s' =>
      match s' with
      | String c' _ => if Ascii.eqb c star && Ascii.eqb c' slash then s else skip_block s'
      | EmptyString => s
      end
  | EmptyString => s
  end.

(** The [while] loop over a string literal: up to the closing double
    quote or the end, a backslash taking the character after it along. *)
Fixpoint skip_string (s : string) : string :=
  match s with
  | EmptyString => s
  | String c s' =>
      if Ascii.eqb c quote then s
      else if Ascii.eqb c backslash then
        match s' with
        | String _ s'' => skip_string s''
        | EmptyString => EmptyString
        end
      else skip_string s'
  end.

(** The end of the body of the first loop, for the one character [c]. *)
Definition one_char (c : Ascii.ascii) (o : operators) : operators :=
  let oneChar := String c EmptyString in
  if isLogicalOperator oneChar then insert_logical oneChar o
  else if isMathOperator oneChar then insert_math oneChar o
  else if find c otherSymbols then insert_other c o
  else o.

(** One round of the first loop, at the character [c] with [rest] after
    it: the rest of the content at which the next round starts, its
    [++i] included, and the sets. *)
Definition operators_round (c : Ascii.ascii) (rest : string) (o : operators)
  : string * operators :=
  match rest with
  | String c1 rest1 =>
      if Ascii.eqb c slash && Ascii.eqb c1 slash then
        (advance (skip_line rest1), o)
      else if Ascii.eqb c slash && Ascii.eqb c1 star then
        (advance (advance (skip_block rest1)), o)
      else if Ascii.eqb c quote then
        (advance (skip_string rest), o)
      else
        let twoCharOp := String c (String c1 EmptyString) in
        if isLogicalOperator twoCharOp then (rest1, insert_logical twoCharOp o)
        else if isMathOperator twoCharOp then (rest1, insert_math twoCharOp o)
        else (rest, one_char c o)
  | EmptyString =>
      if Ascii.eqb c quote then (advance (skip_string rest), o)
      else (rest, one_char c o)
  end.

(** The first loop, for at most [fuel] rounds. *)
Fixpoint operators_loop (fuel : nat) (s : string) (o : operators) : operators :=
  match fuel with
  | O => o
  | S fuel' =>
      match s with
      | EmptyString => o
      | String c rest =>
          let '(s', o') := operators_round c rest o in
          operators_loop fuel' s' o'
      end
  end.

(** Every round takes at least one character, so as many rounds as the
    content has characters are enough. *)
Definition operators_of (content : string) : operators :=
  operators_loop (String.length content) content
    {| logicalOperators := []; mathOperators := []; others := [] |}.

Definition isdigit (c : Ascii.ascii) : bool :=
  let n := Ascii.nat_of_ascii c in (48 <=? n)%nat && (n <=? 57)%nat.

Definition isalpha (c : Ascii.ascii) : bool :=
  let n := Ascii.nat_of_ascii c in
  ((65 <=? n)%nat && (n <=? 90)%nat) || ((97 <=? n)%nat && (n <=? 122)%nat).

Definition isalnum (c : Ascii.ascii) : bool := isalpha c || isdigit c.

Definition word_char (ch : Ascii.ascii) : bool := isalnum ch || Ascii.eqb ch underscore.

(** [if (!token.empty()) { ... token.clear(); }]: the sets afterwards. *)
Definition classify (token : string) (w : words) : words :=
  match token with
  | EmptyString => w
  | String c0 _ =>
      if isdigit c0 then
        {| keywordsFound := keywordsFound w; identifiersFound := identifiersFound w;
           numericalValues := set_insert String.compare token (numericalValues w) |}
      else if negb (isKeyword token =? 0) then
        {| keywordsFound := set_insert String.compare token (keywordsFound w);
           identifiersFound := identifiersFound w; numericalValues := numericalValues w |}
      else
        {| keywordsFound := keywordsFound w;
           identifiersFound := set_insert String.compare token (identifiersFound w);
           numericalValues := numericalValues w |}
  end.

(** The rounds of the second loop for [i < content.length()]: [token]
    and the sets after them. *)
Fixpoint words_scan (s : string) (token : string) (w : words) : string * words :=
  match s with
  | EmptyString => (token, w)
  | String ch rest =>
      if word_char ch then words_scan rest (token +:+ String ch EmptyString) w
      else words_scan rest EmptyString (classify token w)
  end.

(** The second loop: after these rounds, the last one, for
    [i == content.length()], has the blank for [ch]. *)
Definition words_of (content : string) : words :=
  let '(token, w) :=
    words_scan content EmptyString
      {| keywordsFound := []; identifiersFound := []; numericalValues := [] |} in
  classify token w.

Definition size {A} (s : list A) : string := fmt_d (Z.of_nat (length s)).

(** The loop that writes the elements of a set, [per_line] to a line,
    and the test after it. *)
Fixpoint items {A} (show : A -> string) (per_line : nat) (count : nat) (s : list A)
  : string :=
  match s with
  | [] => if (count mod per_line =? 0)%nat then "" else NL
  | item :: s' =>
      "  " +:+ show item
      +:+ (if (S count mod per_line =? 0)%nat then NL else "")
      +:+ items show per_line (S count) s'
  end.

Definition rule : string := "----------------------------------------" +:+ NL.

Definition heading {A} (label : string) (s : list A) : string :=
  rule +:+ label +:+ " (" +:+ size s +:+ "):" +:+ NL.

Definition printSet (label : string) (s : list string) : string :=
  heading label s +:+ items (fun item => item) 8 0 s.

Definition report (w : words) (o : operators) : string :=
  NL +:+ "========== Lexical Analysis Result ==========" +:+ NL
  +:+ printSet "Keywords" (keywordsFound w)
  +:+ printSet "Identifiers" (identifiersFound w)
  +:+ heading "Math Operators" (mathOperators o)
  +:+ items (fun op => op) 8 0 (mathOperators o)
  +:+ heading "Logical Operators" (logicalOperators o)
  +:+ items (fun op => op) 8 0 (logicalOperators o)
  +:+ printSet "Numerical Values" (numericalValues w)
  +:+ heading "Others" (others o)
  +:+ items (fun ch => String ch EmptyString) 16 0 (others o)
  +:+ "========================================" +:+ NL.

(** What [main] returns and writes. *)
Record run : Type := mk_run {
  status : Z;
  cout : string;
  cerr : string
}.

(** [main], given the arguments and the files that can be opened, with
    their contents.  Without [argv[0]] the usage message has nothing to
    print: no determined course. *)
Definition main (argv : list string) (files : string -> option string) : option run :=
  match argv with
  | [] => None
  | [argv0] =>
      Some {| status := 1; cout := "";
              cerr := "Usage: " +:+ argv0 +:+ " <input_cpp_file>" +:+ NL |}
  | argv0 :: argv1 :: _ =>
      match files argv1 with
      | None =>
          Some {| status := 1; cout := "";
                  cerr := "Error opening file: " +:+ argv1 +:+ NL |}
      | Some content =>
          Some {| status := 0; cout := report (words_of content) (operators_of content);
                  cerr := "" |}
      end
  end.

(** A text as the list of its characters. *)
Fixpoint chars (s : string) : list Ascii.ascii :=
  match s with
  | EmptyString => []
  | String c s' => c :: chars s'
  end.

(** The first loop from the rest [s] of the content on, with the sets
    [o] found so far. *)
Definition operators_from (s : string) (o : operators) : operators :=
  operators_loop (String.length s) s o.

(** A word: letters, digits and underscores, at least one. *)
Definition is_word (s : string) : Prop :=
  s <> EmptyString /\ Forall (fun c => word_char c = true) (chars s).

(** No word runs on from the end of [pre], or into the start of [post]. *)
Definition stops_before (pre : string) : Prop :=
  pre = EmptyString \/
  exists p c, pre = p +:+ String c EmptyString /\ word_char c = false.

Definition stops_after (post : string) : Prop :=
  post = EmptyString \/
  exists c p, post = String c p /\ word_char c = false.

(** What the three sets of words hold. *)
Definition classified (w : words) : Prop :=
  (forall s, s ∈ numericalValues w ->
     is_word s /\ exists c rest, s = String c rest /\ isdigit c = true) /\
  (forall s, s ∈ keywordsFound w -> s ∈ keywords) /\
  (forall s, s ∈ identifiersFound w ->
     is_word s /\ (s ∉ keywords) /\ exists c rest, s = String c rest /\ isdigit c = false).

(** The sets of [w'] hold what the sets of [w] hold. *)
Definition grows (w w' : words) : Prop :=
  (forall s, s ∈ numericalValues w -> s ∈ numericalValues w') /\
  (forall s, s ∈ keywordsFound w -> s ∈ keywordsFound w') /\
  (forall s, s ∈ identifiersFound w -> s ∈ identifiersFound w').

Definition listed (s : string) (w : words) : Prop :=
  s ∈ numericalValues w \/ s ∈ keywordsFound w \/ s ∈ identifiersFound w.

(** What the three sets of the first pass hold. *)
Definition vocabulary (o : operators) : Prop :=
  (forall s, s ∈ logicalOperators o -> s ∈ logicalOps) /\
  (forall s, s ∈ mathOperators o -> s ∈ mathOps) /\
  (forall c, c ∈ others o -> c ∈ chars otherSymbols /\ c <> quote).

End Lexical.

(** A small source text. *)
Definition sample_source : string :=
  "int x1 = 42; // if (a<=b)" +:+ NL +:+ "x1 += 7;".

(** The text that [preorder] appends for a node with the four children
    [l], [r], [v] and [b], at least one of them there, and the label
    [tok]. *)
Definition serialize_node (tok : string) (l r v b : option Node) : string :=
  " ( " +:+ tok +:+ " " +:+ serialize_opt l +:+ serialize_opt r
  +:+ serialize_opt v +:+ serialize_opt b +:+ ") ".

(** The valid symbols of every name lie in the table in the order of
    their scopes, none deeper than the current scope. *)
Definition ordered (g : globals) : Prop := forall name, scope_ordered name g.

(** The runs of [m] that return keep [I]. *)
Definition preserves {A} (I : globals -> Prop) (m : M A) : Prop :=
  hoare I m (fun _ => I).

(** The nodes of the items of a block after the first, each followed by
    the action of rule 14, which the parser runs once the item is
    complete. *)
Fixpoint block_items (items : list Node) : M unit :=
  match items with
  | [] => ret tt
  | n :: items' => push_tree n ;;; reduce 14 [Yundef; Yundef] ;;; block_items items'
  end.

(** The tree of a block with the first item [n] and the further items
    [items]. *)
Definition statements (n : Node) (items : list Node) : Node :=
  fold_left (binary "stmt") items n.
(** * Properties *)

(** ** Reasoning about [M] *)

(** Every projection of an updated record is computed once the record is
    a constructor. *)
Ltac globals g :=
  destruct g as [?g_x ?g_scope ?g_unaryop ?g_assignop ?g_datatype ?g_assigntype
                 ?g_idcheck ?g_check_un ?g_tempStr ?g_first ?g_crt ?g_lhs ?g_tree_top
                 ?g_preBuf ?g_line ?g_yyin ?g_stdout];
  cbn in *.

Lemma bind_Some {A B} (m : M A) (k : A -> M B) g a g' :
  m g = Some (a, g') -> bind m k g = k a g'.
Proof. unfold bind. now intros ->. Qed.

Lemma bind_inv {A B} (m : M A) (k : A -> M B) g b g'' :
  bind m k g = Some (b, g'') ->
  exists a g', m g = Some (a, g') /\ k a g' = Some (b, g'').
Proof.
  unfold bind. destruct (m g) as [[a g']|] eqn:E; [|discriminate].
  intros H. now exists a, g'.
Qed.

Lemma hoare_bind {A B} (m : M A) (k : A -> M B) P R Q :
  hoare P m R -> (forall a, hoare (R a) (k a) Q) -> hoare P (bind m k) Q.
Proof.
  intros Hm Hk g b g'' HP H.
  apply bind_inv in H as (a & g' & H1 & H2).
  eapply Hk; [|exact H2]. eapply Hm; eauto.
Qed.

Lemma hoare_crash {A} P (Q : A -> globals -> Prop) : hoare P crash Q.
Proof. intros g a g' _ [=]. Qed.

(** ** The tree stack (C3) *)

Lemma pop_tree_cons g retnode next :
  tree_top g = retnode :: next -> pop_tree g = Some (retnode, set_tree_top next g).
Proof. intros H. unfold pop_tree, bind, gets. now rewrite H. Qed.

Lemma create_node_binary token g r l rest :
  tree_top g = r :: l :: rest ->
  create_node token 0 g
  = Some (tt, set_tree_top (Some (mkNode l r None None token 0) :: rest) g).
Proof. intros H. globals g. now subst. Qed.

Lemma create_node_leaf token g :
  create_node token 1 g
  = Some (tt, set_tree_top (Some (mkNode None None None None token 0) :: tree_top g) g).
Proof. now globals g. Qed.

Lemma create_node_unary token leaf g l rest :
  leaf <> 0 -> leaf <> 1 -> tree_top g = l :: rest ->
  create_node token leaf g
  = Some (tt, set_tree_top (Some (mkNode l None None None token 0) :: rest) g).
Proof.
  intros H0 H1 H. unfold create_node.
  destruct (Z.eqb_spec leaf 0); [easy|]. destruct (Z.eqb_spec leaf 1); [easy|].
  globals g. now subst.
Qed.

(** C3.  On a stack that holds at least two entries, building a binary
    node takes them off in LIFO order: the entry on top, pushed last,
    becomes the right child, the entry below it the left child, of the node
    that is pushed in their place. *)
Theorem create_node_binary_pops_right_then_left (token : string) (g : globals) :
  (2 <= length (tree_top g))%nat ->
  exists r l rest,
    tree_top g = r :: l :: rest /\
    create_node token 0 g
    = Some (tt, set_tree_top
                  (Some {| n_left := l; n_right := r; n_val := None; n_body := None;
                           n_token := token; n_level := 0 |} :: rest) g).
Proof.
  intros H. destruct (tree_top g) as [|r [|l rest]] eqn:E; cbn in H; try lia.
  exists r, l, rest. split; [reflexivity|]. now apply create_node_binary.
Qed.

Lemma create_node_binary_pops_right_then_left_witness :
  let a := mkNode None None None None "a" 0 in
  let b := mkNode None None None None "b" 0 in
  let g := set_tree_top [Some b; Some a; None] (init_globals []) in
  (2 <= length (tree_top g))%nat /\
  exists r l rest,
    tree_top g = r :: l :: rest /\
    create_node "+" 0 g
    = Some (tt, set_tree_top (Some (mkNode l r None None "+" 0) :: rest) g).
Proof.
  intros a b g. split; [cbn; lia|].
  apply (create_node_binary_pops_right_then_left "+" g). cbn; lia.
Defined.

(** Pushing [a] and then [b] and building a binary node: [a] is the left
    child and [b] the right one. *)
Lemma push_push_create_node token a b g :
  (push_tree a ;;; push_tree b ;;; create_node token 0) g
  = Some (tt, set_tree_top (Some (mkNode (Some a) (Some b) None None token 0) :: tree_top g) g).
Proof. now globals g. Qed.

(** ** Typing a symbol (C6) *)

Lemma deref_Some g t n : first g !! t = Some n -> deref t g = Some (n, g).
Proof. intros H. unfold deref, bind, gets, need. now rewrite H. Qed.

Lemma update_Some g t n f :
  first g !! t = Some n -> update t f g = Some (tt, set_first (<[t := f n]> (first g)) g).
Proof. intros H. unfold update. now rewrite (bind_Some _ _ _ _ _ (deref_Some _ _ _ H)). Qed.

Lemma typed_not_untyped n : sym_dtype n <> -1 -> (sym_dtype n =? -1) = false.
Proof. intros H. now apply Z.eqb_neq. Qed.

(** C6.  A symbol whose kind is no longer untyped ([dtype != -1]) is left
    as it is by [addInt], [addFloat], [addChar] and [addfunc]: the call
    returns and nothing in the state has changed, neither the kind nor
    the value, and nothing is printed. *)
Theorem typing_takes_effect_only_when_untyped
    (g : globals) (t : nat) (n : node) (type : Z)
    (iv : option Z) (fv : option float) (cv : option Z) (s : string) :
  first g !! t = Some n ->
  sym_dtype n <> -1 ->
  addInt t type iv g = Some (tt, g) /\
  addFloat t type fv g = Some (tt, g) /\
  addChar t type cv g = Some (tt, g) /\
  addfunc t type s g = Some (tt, g).
Proof.
  intros Ht Hty. apply typed_not_untyped in Hty.
  unfold addInt, addFloat, addChar, addfunc.
  rewrite !(bind_Some _ _ _ _ _ (deref_Some _ _ _ Ht)), Hty. now cbn.
Qed.

Lemma typing_takes_effect_only_when_untyped_witness :
  let n := {| sym_token := "identifier"; sym_name := "a"; sym_dtype := 0; sym_scope := 0;
              sym_lineno := 1; sym_valid := 1; sym_val := Vi 5 |} in
  let g := set_first [n] (init_globals []) in
  first g !! 0%nat = Some n /\
  sym_dtype n <> -1 /\
  addInt 0 1 (Some 6) g = Some (tt, g) /\
  addFloat 0 1 (Some F32.one) g = Some (tt, g) /\
  addChar 0 2 (Some 45) g = Some (tt, g) /\
  addfunc 0 3 "function" g = Some (tt, g).
Proof.
  intros n g.
  assert (Ht : first g !! 0%nat = Some n) by reflexivity.
  assert (Hty : sym_dtype n <> -1) by (cbn; lia).
  split; [exact Ht|]. split; [exact Hty|].
  exact (typing_takes_effect_only_when_untyped
           g 0 n _ (Some 6) (Some F32.one) (Some 45) "function" Ht Hty).
Defined.

(** On an untyped symbol the call takes effect: it sets the token, the
    kind and the value, and nothing else. *)
Lemma typing_sets_kind_and_value
    (g : globals) (t : nat) (n : node) (type : Z)
    (iv : option Z) (fv : option float) (cv : option Z) (s : string) :
  first g !! t = Some n ->
  sym_dtype n = -1 ->
  let typed tok v :=
    set_first (<[t := {| sym_token := tok; sym_name := sym_name n; sym_dtype := type;
                         sym_scope := sym_scope n; sym_lineno := sym_lineno n;
                         sym_valid := sym_valid n; sym_val := v |}]> (first g)) g in
  addInt t type iv g = Some (tt, typed "identifier" (store_i iv)) /\
  addFloat t type fv g = Some (tt, typed "identifier" (store_f fv)) /\
  addChar t type cv g = Some (tt, typed "identifier" (store_c cv)) /\
  addfunc t type s g = Some (tt, typed s (Vi 0)).
Proof.
  intros Ht Hun typed.
  assert (E : (sym_dtype n =? -1) = true) by now apply Z.eqb_eq.
  unfold addInt, addFloat, addChar, addfunc.
  rewrite !(bind_Some _ _ _ _ _ (deref_Some _ _ _ Ht)), E. cbn [when].
  rewrite !(update_Some _ _ _ _ Ht). now repeat split.
Qed.

(** ** Division by zero (C8, C10, X30) *)

Lemma warning_prints text g :
  warning text g = Some (tt, set_stdout (stdout g ++ warning_text (line g) text) g).
Proof.
  unfold warning, printf, bind, gets, modify, warning_text.
  globals g. rewrite <- ?app_assoc. reflexivity.
Qed.

Lemma division_zero yyvsp yyval g d :
  yy_fval (yyvsp 0%nat) = Some d -> F32.eqb d F32.zero = true ->
  yyaction yyvsp 84 yyval g
  = Some (inl (Yfval (F32.of_Z INT_MAX)),
          set_stdout (stdout g ++ warning_text (line g) division_by_zero) g).
Proof.
  intros Hd Hz. cbn [yyaction]. unfold fval. rewrite Hd. cbn [need].
  unfold bind at 1. cbn [ret]. rewrite Hz.
  unfold bind. now rewrite warning_prints.
Qed.

Lemma division_nonzero yyvsp yyval g d r l rest :
  yy_fval (yyvsp 0%nat) = Some d -> F32.eqb d F32.zero = false ->
  tree_top g = r :: l :: rest ->
  yyaction yyvsp 84 yyval g
  = Some (inl (mk_fval (float_op F32.div (yy_fval (yyvsp 2%nat)) (Some d))),
          set_tree_top (Some (mkNode l r None None "/" 0) :: rest) g).
Proof.
  intros Hd Hz Ht. cbn [yyaction]. unfold fval. rewrite Hd. cbn [need].
  unfold bind at 1. cbn [ret]. rewrite Hz.
  unfold bind. now rewrite (create_node_binary _ _ _ _ _ Ht).
Qed.

(** X30.  When the right-hand operand of ['/'] is zero, the action of
    the rule (rule 84) prints one warning (the five pieces of
    [Line:<n>: warning: division by zero is undefined]) and nothing else,
    the value of the expression is [INT_MAX] (converted to [float], the
    type of the value), the tree stack is what it was, so no ["/"] node
    has been built, and the action returns to the parser, which goes
    on. *)
Theorem division_by_zero_warns_and_yields_int_max
    (yyvsp : nat -> YYSTYPE) (yyval : YYSTYPE) (g : globals) (d : float) :
  yy_fval (yyvsp 0%nat) = Some d ->
  F32.eqb d F32.zero = true ->
  exists g',
    yyaction yyvsp 84 yyval g = Some (inl (Yfval (F32.of_Z INT_MAX)), g') /\
    stdout g' = (stdout g ++ warning_text (line g) division_by_zero)%list /\
    tree_top g' = tree_top g /\
    first g' = first g.
Proof.
  intros Hd Hz. eexists. split; [now apply division_zero with d|].
  now globals g.
Qed.

Lemma division_by_zero_warns_and_yields_int_max_witness :
  let yyvsp := fun k : nat => match k with O => Yfval F32.zero | _ => Yfval (F32.of_Z 10) end in
  let g := init_globals [] in
  yy_fval (yyvsp 0%nat) = Some F32.zero /\
  F32.eqb F32.zero F32.zero = true /\
  exists g',
    yyaction yyvsp 84 Yundef g = Some (inl (Yfval (F32.of_Z INT_MAX)), g') /\
    stdout g' = (stdout g ++ warning_text (line g) division_by_zero)%list /\
    tree_top g' = tree_top g /\
    first g' = first g.
Proof.
  intros yyvsp g. split; [reflexivity|]. split; [reflexivity|].
  apply (division_by_zero_warns_and_yields_int_max yyvsp Yundef g F32.zero);
    reflexivity.
Defined.

(** C8 (the division of ['/='] has no test of the divisor).  The action
    of ['/'] tests its right operand, the case of ['/='] in the action of
    an assignment (rule 42) divides without a test.  When the parser has
    gone through [int main() { float x = 1; x /= 0;], no warning has been
    printed (the output is the newline that [main] prints at its start),
    the ["/="] node has been built and lies on top of the tree stack, and
    the value stored in [x] is not [INT_MAX] but the quotient of the
    machine, infinity.  With [int x = 1;] in the place of the declaration
    the division is one of [int]s: the parser gets as far as the action
    of the assignment, and that action does not return, so the parse
    does not go on. *)
Theorem compound_division_by_zero_is_not_caught :
  (observe (fun g => (stdout g, sym_val <$> (first g !! 1%nat), head (tree_top g)))
           (main_rounds 47 (init_globals compound_division_program))
   = Some (tt, ([NL], Some (Vf (S754_infinity false)),
                Some (Some (binary "/=" (leaf "x") (leaf "0")))))) /\
  (observe (fun g => (stdout g, sym_val <$> (first g !! 1%nat), assignop g))
           (main_rounds 46 (init_globals compound_division_int_program))
   = Some (tt, ([NL], Some (Vi 1), 4))) /\
  main_rounds 47 (init_globals compound_division_int_program) = None /\
  main_parse 300 (init_globals compound_division_int_program) = None.
Proof. repeat split; vm_compute; reflexivity. Qed.

(** C10.  With a zero divisor the action of the division rule takes
    nothing off the tree stack and puts nothing on it: the two operand
    nodes stay where they are.  With a non-zero divisor it takes both off
    and pushes the ["/"] node, so after the error path the stack is one
    entry deeper than after the normal one. *)
Theorem division_by_zero_leaves_operands_on_stack
    (yyvsp : nat -> YYSTYPE) (yyval : YYSTYPE) (g : globals) (d : float)
    (r l : option Node) (rest : tree_stack) :
  yy_fval (yyvsp 0%nat) = Some d ->
  tree_top g = r :: l :: rest ->
  exists v g',
    yyaction yyvsp 84 yyval g = Some (inl v, g') /\
    (F32.eqb d F32.zero = true ->
       tree_top g' = r :: l :: rest /\
       length (tree_top g') = S (S (length rest))) /\
    (F32.eqb d F32.zero = false ->
       tree_top g' = Some (mkNode l r None None "/" 0) :: rest /\
       length (tree_top g') = S (length rest)).
Proof.
  intros Hd Ht. destruct (F32.eqb d F32.zero) eqn:Hz.
  - eexists _, _. split; [now apply division_zero with d|].
    split; [intros _|intros [=]]. globals g. now subst.
  - eexists _, _. split; [eapply division_nonzero; eassumption|].
    split; [intros [=]|intros _]. now globals g.
Qed.

Lemma division_by_zero_leaves_operands_on_stack_witness :
  let yyvsp := fun k : nat => match k with O => Yfval F32.zero | _ => Yfval (F32.of_Z 10) end in
  let ten := Some (mkNode None None None None "10" 0) in
  let zero := Some (mkNode None None None None "0" 0) in
  let g := set_tree_top [zero; ten; None] (init_globals []) in
  yy_fval (yyvsp 0%nat) = Some F32.zero /\
  tree_top g = [zero; ten; None] /\
  exists v g',
    yyaction yyvsp 84 Yundef g = Some (inl v, g') /\
    (F32.eqb F32.zero F32.zero = true ->
       tree_top g' = [zero; ten; None] /\ length (tree_top g') = 3%nat) /\
    (F32.eqb F32.zero F32.zero = false ->
       tree_top g' = [Some (mkNode ten zero None None "/" 0); None] /\
       length (tree_top g') = 2%nat).
Proof.
  intros yyvsp ten zero g. split; [reflexivity|]. split; [reflexivity|].
  apply (division_by_zero_leaves_operands_on_stack yyvsp Yundef g F32.zero zero ten [None]);
    reflexivity.
Defined.

(** ** The printer (C2, C9) *)

Lemma append_nil_r (s : string) : s +:+ "" = s.
Proof. induction s as [|a s IH]; [reflexivity|]. change (String a (s +:+ "") = String a s). now rewrite IH. Qed.

Lemma append_assoc (s1 s2 s3 : string) : (s1 +:+ s2) +:+ s3 = s1 +:+ s2 +:+ s3.
Proof.
  induction s1 as [|a s1 IH]; [reflexivity|].
  change (String a ((s1 +:+ s2) +:+ s3) = String a (s1 +:+ s2 +:+ s3)). now rewrite IH.
Qed.





(** The parser builds [if_tree] for the statement, as the body of [main],
    and [main] prints its serialization inside the one of [main]. *)
Lemma if_program_tree :
  observe (fun g => hd None (tree_top g)) (main_parse 200 (init_globals if_program))
  = Some (Some 0, Some (mkNode (Some if_tree) None None None "main" 0)).
Proof. vm_compute. reflexivity. Qed.

Lemma if_program_output :
  observe preBuf (main 200 (init_globals if_program))
  = Some (Some 0, " ( main  ( if  ( < a b )  ( = x 1 )  ( = x 2 ) ) ) ").
Proof. vm_compute. reflexivity. Qed.





(** ** Resolution of a name (C4) *)

Lemma set_check_un_same g : set_check_un (check_un g) g = g.
Proof. now globals g. Qed.

Lemma set_check_un_twice a b g : set_check_un a (set_check_un b g) = set_check_un a g.
Proof. now globals g. Qed.

Lemma visible_true name t :
  visible name t = true <-> String.eqb name (sym_name t) = true /\ sym_valid t = 1.
Proof. unfold visible. rewrite andb_true_iff, Z.eqb_eq. tauto. Qed.

Lemma checksym_loop_spec name l : forall i g,
  checksym_loop name l i g =
  match first_visible name l with
  | Some (j, t) =>
      Some (Some (i + j)%nat,
            set_check_un (if sym_scope t <? scope g then 1
                          else flag_after name (scope g) (check_un g) (take j l)) g)
  | None => Some (None, set_check_un (flag_after name (scope g) (check_un g) l) g)
  end.
Proof.
  induction l as [|t l IH]; intros i g.
  - cbn. unfold flag_after. cbn. now rewrite set_check_un_same.
  - unfold first_visible. cbn [list_find checksym_loop]. unfold bind at 1, gets at 1.
    destruct (decide (visible name t = true)) as [Hv|Hv].
    + apply visible_true in Hv as [-> Hval]. rewrite Hval. cbn [Z.eqb Pos.eqb andb].
      rewrite !andb_true_r, Nat.add_0_r. cbn [take].
      unfold flag_after. cbn [existsb].
      rewrite Z.gtb_ltb.
      destruct (Z.ltb_spec (scope g) (sym_scope t)); [cbn; destruct (Z.ltb_spec (sym_scope t) (scope g)); [lia|]; now rewrite set_check_un_same|].
      destruct (Z.eqb_spec (sym_scope t) (scope g)) as [E|E].
      * cbn. destruct (Z.ltb_spec (sym_scope t) (scope g)); [lia|]. now rewrite set_check_un_same.
      * destruct (Z.ltb_spec (sym_scope t) (scope g)); [|lia]. now globals g.
    + fold (first_visible name l).
      assert (Hstep :
        (if String.eqb name (sym_name t)
         then
           if (sym_scope t >? scope g) && (sym_valid t =? 1) then ret (Some i)
           else if (sym_scope t =? scope g) && (sym_valid t =? 1) then ret (Some i)
           else if (sym_scope t <? scope g) && (sym_valid t =? 1)
                then modify (set_check_un 1) ;;; ret (Some i)
           else if (sym_scope t >? scope g) && (sym_valid t =? 0)
                then modify (set_check_un 0) ;;; checksym_loop name l (S i)
           else checksym_loop name l (S i)
         else checksym_loop name l (S i)) g
        = checksym_loop name l (S i)
            (set_check_un (if closed_inner name (scope g) t then 0 else check_un g) g)).
      { unfold closed_inner. destruct (String.eqb name (sym_name t)) eqn:En.
        - assert (Hval : (sym_valid t =? 1) = false).
          { apply not_true_is_false. intros Hval. apply Hv. unfold visible.
            now rewrite En, Hval. }
          rewrite Hval, !andb_false_r. cbn [andb].
          destruct ((sym_scope t >? scope g) && (sym_valid t =? 0)).
          + reflexivity.
          + now rewrite set_check_un_same.
        - cbn [andb]. now rewrite set_check_un_same. }
      rewrite Hstep, IH. clear Hstep IH.
      assert (Hsc : scope (set_check_un (if closed_inner name (scope g) t then 0 else check_un g) g)
                    = scope g) by now globals g.
      assert (Hcu : check_un (set_check_un (if closed_inner name (scope g) t then 0 else check_un g) g)
                    = if closed_inner name (scope g) t then 0 else check_un g) by now globals g.
      rewrite Hsc, Hcu.
      destruct (first_visible name l) as [[j tj]|]; cbn [fmap option_fmap option_map prod_map fst snd id].
      * rewrite set_check_un_twice, Nat.add_succ_r. cbn [take]. unfold flag_after.
        cbn [existsb]. do 3 f_equal.
        destruct (sym_scope tj <? scope g); [reflexivity|].
        destruct (closed_inner name (scope g) t); cbn; [|reflexivity].
        now destruct (existsb _ _).
      * rewrite set_check_un_twice. unfold flag_after. cbn [existsb]. do 3 f_equal.
        destruct (closed_inner name (scope g) t); cbn; [|reflexivity].
        now destruct (existsb _ _).
Qed.

(** [checksym] returns the first valid symbol of the name in the order of
    the table, and allocates one when there is none. *)
Lemma checksym_resolution name g :
  checksym name g = Some (resolution name g).
Proof.
  unfold checksym, resolution, bind at 1, gets at 1.
  destruct (first g) as [|t l] eqn:E.
  - unfold addsymbol, new_symbol, flag_after. globals g. now subst.
  - unfold bind at 1. rewrite checksym_loop_spec.
    destruct (first_visible name (t :: l)) as [[j tj]|].
    + reflexivity.
    + unfold addsymbol, new_symbol. globals g. now subst.
Qed.

Lemma first_visible_Some name l i t :
  first_visible name l = Some (i, t) <->
  l !! i = Some t /\ visible name t = true /\
  forall j tj, l !! j = Some tj -> (j < i)%nat -> visible name tj = false.
Proof.
  unfold first_visible. rewrite list_find_Some.
  split; intros (H1 & H2 & H3); repeat split; auto; intros j tj Hj Hlt.
  - apply not_true_is_false. eauto.
  - rewrite (H3 j tj Hj Hlt). discriminate.
Qed.

Lemma first_visible_None name l :
  first_visible name l = None <-> forall j tj, l !! j = Some tj -> visible name tj = false.
Proof.
  unfold first_visible. rewrite list_find_None, Forall_lookup.
  split; intros H j tj Hj.
  - apply not_true_is_false. eauto.
  - rewrite (H j tj Hj). discriminate.
Qed.


(** The order of the table is needed for that.  In [inverted_table],
    which no run of the parser builds, a valid symbol of the current scope
    lies before one of the outer scope; [checksym] returns the first and
    leaves the flag alone, and the precedence gives the second. *)
Lemma checksym_ignores_precedence :
  checksym "a" inverted_table = Some (0%nat, inverted_table) /\
  check_un inverted_table = 0 /\
  resolveOrDeclare "a" inverted_table = (1%nat, first inverted_table, true) /\
  ~ follows_precedence "a" inverted_table.
Proof.
  assert (E : checksym "a" inverted_table = Some (0%nat, inverted_table))
    by (vm_compute; reflexivity).
  assert (R : resolveOrDeclare "a" inverted_table = (1%nat, first inverted_table, true))
    by (vm_compute; reflexivity).
  split; [exact E|]. split; [reflexivity|]. split; [exact R|].
  intros (p & g' & H & Hp & _). rewrite E in H. injection H as <- <-.
  rewrite R in Hp. discriminate.
Qed.

(** What [checksym] does in a table in which the valid symbols of the
    name lie in the order of their scopes, outcome by outcome. *)
Lemma precedence_in_order name g :
  scope_ordered name g ->
  exists p g',
    checksym name g = Some (p, g') /\
    match resolveOrDeclare_outcome name g with
    | Inherited i =>
        p = i /\ first g' = first g /\ check_un g' = 1 /\
        exists t, first g !! i = Some t /\
                  sym_name t = name /\ sym_valid t = 1 /\ sym_scope t < scope g
    | Current i =>
        p = i /\ first g' = first g /\
        check_un g' = flag_after name (scope g) (check_un g) (take i (first g)) /\
        exists t, first g !! i = Some t /\
                  sym_name t = name /\ sym_valid t = 1 /\ sym_scope t = scope g
    | Reopened =>
        p = length (first g) /\ first g' = first g ++ [new_symbol name g] /\
        check_un g' = 0
    | Unknown =>
        p = length (first g) /\ first g' = first g ++ [new_symbol name g] /\
        check_un g' = check_un g
    end.
Proof.
  intros Hord. rewrite checksym_resolution.
  unfold resolution, resolveOrDeclare_outcome.
  destruct (first_visible name (first g)) as [[i t]|] eqn:Hfv.
  - apply first_visible_Some in Hfv as (Hi & Hv & Hmin).
    pose proof Hv as [Hname Hvalid]%visible_true. apply String.eqb_eq in Hname.
    destruct (Hord i i t t (le_n _) Hi Hi Hv Hv) as [_ Hle].
    destruct (Z.ltb_spec (sym_scope t) (scope g)) as [Hlt|Hge].
    + assert (E : list_find (fun t => outer_visible name (scope g) t = true) (first g)
                  = Some (i, t)).
      { apply list_find_Some. split; [exact Hi|]. split.
        - unfold outer_visible. rewrite Hv. cbn. now apply Z.ltb_lt.
        - intros j tj Hj Hji. unfold outer_visible. now rewrite (Hmin j tj Hj Hji). }
      rewrite E. eexists _, _. split; [reflexivity|].
      split; [reflexivity|]. split; [now globals g|]. split; [now globals g|].
      exists t. auto.
    + assert (Eo : list_find (fun t => outer_visible name (scope g) t = true) (first g) = None).
      { apply list_find_None, Forall_lookup. intros j tj Hj. unfold outer_visible.
        destruct (visible name tj) eqn:Hvj; [|cbn; discriminate].
        destruct (Nat.lt_ge_cases j i) as [Hji|Hij].
        - rewrite (Hmin j tj Hj Hji) in Hvj. discriminate.
        - destruct (Hord i j t tj Hij Hi Hj Hv Hvj) as [H1 _].
          cbn. destruct (Z.ltb_spec (sym_scope tj) (scope g)); [lia|discriminate]. }
      assert (Ec : list_find (fun t => current_visible name (scope g) t = true) (first g)
                   = Some (i, t)).
      { apply list_find_Some. split; [exact Hi|]. split.
        - unfold current_visible. rewrite Hv. cbn. apply Z.eqb_eq. lia.
        - intros j tj Hj Hji. unfold current_visible. now rewrite (Hmin j tj Hj Hji). }
      rewrite Eo, Ec. eexists _, _. split; [reflexivity|].
      split; [reflexivity|]. split; [now globals g|]. split; [now globals g|].
      exists t. repeat split; auto. lia.
  - assert (Hnone : forall j tj, first g !! j = Some tj -> visible name tj = false)
      by now apply first_visible_None.
    assert (Eo : list_find (fun t => outer_visible name (scope g) t = true) (first g) = None).
    { apply list_find_None, Forall_lookup. intros j tj Hj. unfold outer_visible.
      rewrite (Hnone j tj Hj). discriminate. }
    assert (Ec : list_find (fun t => current_visible name (scope g) t = true) (first g) = None).
    { apply list_find_None, Forall_lookup. intros j tj Hj. unfold current_visible.
      rewrite (Hnone j tj Hj). discriminate. }
    rewrite Eo, Ec. unfold flag_after. eexists _, _. split; [reflexivity|].
    destruct (existsb _ _); (split; [reflexivity|]; split; now globals g).
Qed.

(** ** Scopes: what the events keep *)



Lemma visible_close_entry name params sc t :
  visible name (close_entry params sc t) = true -> visible name t = true.
Proof.
  unfold close_entry. destruct (_ || _); [|auto].
  unfold visible. cbn. rewrite andb_false_r. discriminate.
Qed.


Lemma deref_inv p g n g' : deref p g = Some (n, g') -> g' = g /\ first g !! p = Some n.
Proof.
  unfold deref, bind, gets, need. destruct (first g !! p); cbn; [|discriminate].
  now intros [= <- <-].
Qed.

Section Survival.

Variables (name : string) (i : nat) (t : node).
Hypothesis typed : sym_dtype t <> -1.

#[local] Abbreviation kept := (keeps name i t).
#[local] Abbreviation st := (stable name i t).

Lemma stable_ret {A} (a : A) : st (ret a).
Proof. intros c g b g' H [= <- <-]. exact H. Qed.

Lemma stable_bind {A B} (m : M A) (k : A -> M B) :
  st m -> (forall a, st (k a)) -> st (bind m k).
Proof. intros Hm Hk c. eapply hoare_bind; [apply Hm|]. intros a. apply Hk. Qed.

Lemma stable_crash {A} : st (@crash A).
Proof. intros c. apply hoare_crash. Qed.

Lemma stable_need {A} (o : option A) : st (need o).
Proof. intros c g a g' H. destruct o; cbn; [intros [= <- <-]; auto | intros [=]]. Qed.

Lemma stable_gets {A} (f : globals -> A) : st (gets f).
Proof. intros c g a g' H [= <- <-]. exact H. Qed.

Lemma stable_modify (f : globals -> globals) :
  (forall g, first (f g) = first g /\ scope (f g) = scope g) -> st (modify f).
Proof.
  intros Hf c g [] g' [H1 H2] [= <-]. destruct (Hf g) as [E1 E2].
  unfold keeps. now rewrite E1, E2.
Qed.

Lemma stable_when (b : bool) (m : M unit)  : st m -> st (when b m).
Proof. destruct b; cbn; [auto|]. intros _. apply stable_ret. Qed.

Lemma stable_printf s : st (printf s).
Proof. apply stable_modify. intros g. now globals g. Qed.

Ltac stab_with prim :=
  repeat first
    [ prim
    | lazymatch goal with
      | |- stable _ _ _ (bind _ _) => apply stable_bind; [|intro]
      | |- stable _ _ _ (ret _) => apply stable_ret
      | |- stable _ _ _ crash => apply stable_crash
      | |- stable _ _ _ (need _) => apply stable_need
      | |- stable _ _ _ (gets _) => apply stable_gets
      | |- stable _ _ _ (printf _) => apply stable_printf
      | |- stable _ _ _ (when _ _) => apply stable_when
      | |- stable _ _ _ (modify _) =>
          apply stable_modify; let g := fresh "g" in intros g; now globals g
      | |- stable _ _ _ (if ?b then _ else _) => destruct b
      | |- stable _ _ _ (match ?o with _ => _ end) => destruct o
      end ].

Ltac stab := stab_with fail.







Lemma stable_addsymbol n : st (addsymbol n).
Proof. unfold addsymbol. stab. Qed.












End Survival.

(** *** The events return *)







Section Firm.

Variables n k : nat.



















End Firm.













(** The events are what the parser does: from the state in which it has
    read [int main() {], the events of [int a = 5; { int a = 6; }] lead to
    the table, the scope, the tree stack and the output that the parser
    itself arrives at. *)
Lemma events_agree_with_parser :
  observe table_view
    ((main_rounds 10 ;;;
      run_events [DeclareInit 0 "a" 5; BlockOpen; DeclareInit 0 "a" 6; BlockClose])
       (init_globals shadow_program))
  = observe table_view (main_rounds 54 (init_globals shadow_program)).
Proof. vm_compute. reflexivity. Qed.

(** ** One node at the end (C1) and arities (C7) *)

(** C1 (the division by zero leaves nodes behind).  The program
    [int main() { float x = 10 / 0; }] is accepted by the parser, and
    when [yyparse] returns the tree stack holds two nodes above the cell
    that [main] put there: the tree of [main], in which the assignment has
    the operands of the division as its children, and the leaf [x].
    [main] takes the first for the root and prints it alone. *)
Theorem division_by_zero_leaves_two_nodes :
  observe tree_top (main_parse 200 (init_globals division_program))
  = Some (Some 0,
          [Some (mkNode (Some (binary "=" (leaf "10") (leaf "0"))) None None None "main" 0);
           Some (leaf "x"); None]) /\
  observe (fun g => length (nodes_of (tree_top g)))
          (main_parse 200 (init_globals division_program))
  = Some (Some 0, 2%nat) /\
  observe (fun g => (preBuf g, nodes_of (tree_top g)))
          (main 200 (init_globals division_program))
  = Some (Some 0, (" ( main  ( = 10 0 ) ) ", [leaf "x"])).
Proof. repeat split; vm_compute; reflexivity. Qed.

(** C7 (the nodes of [return] and of [++] get the wrong number of
    children).  The action of [RETURN expression_statement] builds a node
    without children and takes nothing off the stack; the action of the
    postfix [++] builds a node with two children, the operand on the right
    and, on the left, whatever lay below it.  In
    [int main() { int a = 1; a++; }] the left child of ["++"] is the
    declaration before it, and the statement list takes the cell of [main]
    for its left operand; in [int main() { int a = 1; return a; }] the
    node ["return"] is a leaf beside its operand, and the declaration
    stays on the stack. *)
Theorem return_and_increment_have_wrong_arity :
  (forall yyvsp yyval g,
     yyaction yyvsp 18 yyval g
     = Some (inl yyval, set_tree_top (Some (leaf "return") :: tree_top g) g)) /\
  (forall yyvsp yyval g r l rest,
     exists v,
       yyaction yyvsp 61 yyval (set_tree_top (r :: l :: rest) g)
       = Some (inl v, set_tree_top (Some (mkNode l r None None "++" 0) :: rest) g)) /\
  observe tree_top (main_parse 200 (init_globals increment_program))
  = Some (Some 0,
          [Some (mkNode
                   (Some (mkNode None
                            (Some (binary "++" (binary "=" (leaf "a") (leaf "1")) (leaf "a")))
                            None None "stmt" 0))
                   None None None "main" 0)]) /\
  observe tree_top (main_parse 200 (init_globals return_program))
  = Some (Some 0,
          [Some (mkNode (Some (binary "stmt" (leaf "a") (leaf "return")))
                        None None None "main" 0);
           Some (binary "=" (leaf "a") (leaf "1")); None]).
Proof.
  split; [|split; [|split; vm_compute; reflexivity]].
  - intros yyvsp yyval g. cbn [yyaction]. unfold bind. now rewrite create_node_leaf.
  - intros yyvsp yyval g r l rest. eexists. cbn [yyaction]. unfold bind.
    rewrite (create_node_binary "++" _ r l rest) by now globals g.
    cbn [ret]. do 2 f_equal. now globals g.
Qed.


(** * Further properties of the code *)

(** ** Lookup in the symbol table *)

Lemma visible_new_symbol name g : visible name (new_symbol name g) = true.
Proof. unfold visible, new_symbol. cbn. now rewrite String.eqb_refl. Qed.

Lemma visible_name name t : visible name t = true -> sym_name t = name /\ sym_valid t = 1.
Proof. intros [H1 H2]%visible_true. apply String.eqb_eq in H1. now split. Qed.

Lemma first_visible_fresh name l n :
  first_visible name l = None -> visible name n = true ->
  first_visible name (l ++ [n]) = Some (length l, n).
Proof.
  intros Hn Hv. apply list_find_app_Some. right. split; [lia|]. split; [exact Hn|].
  rewrite Nat.sub_diag. cbn. now rewrite decide_True.
Qed.

Lemma no_valid_symbol name l :
  (forall t, t ∈ l -> sym_name t = name -> sym_valid t <> 1) ->
  first_visible name l = None.
Proof.
  intros H. apply first_visible_None. intros j tj Hj.
  apply not_true_is_false. intros [Hn Hv]%visible_name.
  apply (H tj); [eapply list_elem_of_lookup_2; eauto|exact Hn|exact Hv].
Qed.

(** X1.  For a name that fits the name field of a symbol (fewer than
    20 characters), [checksym] always returns, and the symbol it returns
    is valid and carries the name asked for.  It changes and removes no
    symbol: the table is what it was, or one record has been appended to
    it, which is then the symbol returned: untyped, of the current scope
    and the current line.  Of the other globals only [check_un] can have
    changed. *)
Theorem checksym_appends_at_most_one_symbol (name : string) (g : globals) :
  fits name ->
  exists p g' t,
    checksym name g = Some (p, g') /\
    first g' !! p = Some t /\ sym_name t = name /\ sym_valid t = 1 /\
    (first g' = first g \/
     first g' = first g ++ [t] /\ p = length (first g) /\
     sym_dtype t = -1 /\ sym_scope t = scope g /\ sym_lineno t = line g) /\
    set_check_un (check_un g) (set_first (first g) g') = g.
Proof.
  intros _. rewrite checksym_resolution. unfold resolution.
  destruct (first_visible name (first g)) as [[i t]|] eqn:E.
  - apply first_visible_Some in E as (Hi & [Hn Hv]%visible_name & _).
    eexists i, _, t. split; [reflexivity|].
    split; [now globals g|]. split; [exact Hn|]. split; [exact Hv|].
    split; [left|]; now globals g.
  - eexists _, _, (new_symbol name g). split; [reflexivity|].
    split; [globals g; now apply list_lookup_middle|].
    split; [reflexivity|]. split; [reflexivity|].
    split; [right|]; now globals g.
Qed.

Lemma checksym_appends_at_most_one_symbol_witness :
  let g := outer_table in
  fits "b" /\
  exists p g' t,
    checksym "b" g = Some (p, g') /\
    first g' !! p = Some t /\ sym_name t = "b" /\ sym_valid t = 1 /\
    (first g' = first g \/
     first g' = first g ++ [t] /\ p = length (first g) /\
     sym_dtype t = -1 /\ sym_scope t = scope g /\ sym_lineno t = line g) /\
    set_check_un (check_un g) (set_first (first g) g') = g.
Proof.
  intros g.
  assert (H : fits "b") by (unfold fits; cbn; lia).
  exact (conj H (checksym_appends_at_most_one_symbol "b" g H)).
Defined.

(** X2.  Asking for the same name again gives the same symbol and
    allocates nothing: what [checksym] has appended for a name that fits
    the name field it finds. *)
Theorem checksym_again_returns_same_symbol (name : string) (g : globals) :
  fits name ->
  exists p g1 g2,
    checksym name g = Some (p, g1) /\
    checksym name g1 = Some (p, g2) /\
    first g2 = first g1.
Proof.
  intros _. rewrite checksym_resolution. unfold resolution at 1.
  destruct (first_visible name (first g)) as [[i t]|] eqn:E.
  - eexists i, _, _. split; [reflexivity|]. rewrite checksym_resolution.
    unfold resolution.
    replace (first (set_check_un _ g)) with (first g) by now globals g.
    rewrite E. split; [reflexivity|]. now globals g.
  - eexists _, _, _. split; [reflexivity|]. rewrite checksym_resolution.
    unfold resolution.
    replace (first (set_first _ _)) with (first g ++ [new_symbol name g]) by now globals g.
    rewrite (first_visible_fresh _ _ _ E (visible_new_symbol name g)).
    split; [reflexivity|]. now globals g.
Qed.

Lemma checksym_again_returns_same_symbol_witness :
  let g := outer_table in
  fits "b" /\
  exists p g1 g2,
    checksym "b" g = Some (p, g1) /\
    checksym "b" g1 = Some (p, g2) /\
    first g2 = first g1.
Proof.
  intros g.
  assert (H : fits "b") by (unfold fits; cbn; lia).
  exact (conj H (checksym_again_returns_same_symbol "b" g H)).
Defined.

Lemma addtosymbol_appends n g :
  addtosymbol n g = Some (length (first g), set_first (first g ++ [n]) g).
Proof. unfold addtosymbol, bind, gets, modify, ret. destruct (first g) eqn:E; now globals g; subst. Qed.

(** X3.  A valid record that [addtosymbol] links to a table without a
    valid symbol of its name is the symbol that [checksym] then returns
    for the name; the symbols before it stay where they are. *)
Theorem addtosymbol_then_checksym (n : node) (g : globals) :
  sym_valid n = 1 ->
  (forall t, t ∈ first g -> sym_name t = sym_name n -> sym_valid t <> 1) ->
  exists p g1 g2,
    addtosymbol n g = Some (p, g1) /\
    first g1 = first g ++ [n] /\
    first g1 !! p = Some n /\
    checksym (sym_name n) g1 = Some (p, g2) /\
    first g2 = first g1.
Proof.
  intros Hv Hnone. apply no_valid_symbol in Hnone.
  eexists _, _, _. split; [apply addtosymbol_appends|].
  split; [now globals g|]. split; [globals g; now apply list_lookup_middle|].
  rewrite checksym_resolution. unfold resolution.
  replace (first (set_first _ g)) with (first g ++ [n]) by now globals g.
  assert (Hvis : visible (sym_name n) n = true).
  { unfold visible. rewrite String.eqb_refl, Hv. reflexivity. }
  rewrite (first_visible_fresh _ _ _ Hnone Hvis).
  split; [reflexivity|]. now globals g.
Qed.

Lemma addtosymbol_then_checksym_witness :
  let n := sym "b" 0 0 1 (Vi 1) in
  sym_valid n = 1 /\
  (forall t, t ∈ first outer_table -> sym_name t = sym_name n -> sym_valid t <> 1) /\
  exists p g1 g2,
    addtosymbol n outer_table = Some (p, g1) /\
    first g1 = first outer_table ++ [n] /\
    first g1 !! p = Some n /\
    checksym (sym_name n) g1 = Some (p, g2) /\
    first g2 = first g1.
Proof.
  intros n.
  assert (H1 : sym_valid n = 1) by reflexivity.
  assert (H2 : forall t, t ∈ first outer_table -> sym_name t = sym_name n -> sym_valid t <> 1).
  { intros t Ht Hn. apply list_elem_of_singleton in Ht. subst t. discriminate Hn. }
  exact (conj H1 (conj H2 (addtosymbol_then_checksym n outer_table H1 H2))).
Defined.

(** ** Running the actions step by step *)

Lemma error_prints text g :
  error text g = Some (tt, set_stdout (stdout g ++ error_text (line g) text) g).
Proof.
  unfold error, printf, bind, gets, modify, error_text.
  globals g. rewrite <- ?app_assoc. reflexivity.
Qed.

Lemma run_ret {A B} (a : A) (k : A -> M B) g : bind (ret a) k g = k a g.
Proof. reflexivity. Qed.

Lemma run_gets {A B} (f : globals -> A) (k : A -> M B) g : bind (gets f) k g = k (f g) g.
Proof. reflexivity. Qed.

Lemma run_modify {B} (f : globals -> globals) (k : unit -> M B) g :
  bind (modify f) k g = k tt (f g).
Proof. reflexivity. Qed.

Lemma run_assoc {A B C} (m : M A) (k : A -> M B) (k' : B -> M C) g :
  bind (bind m k) k' g = bind m (fun a => bind (k a) k') g.
Proof. unfold bind. now destruct (m g) as [[a g']|]. Qed.

Lemma run_printf {B} s (k : unit -> M B) g :
  bind (printf s) k g = k tt (set_stdout (stdout g ++ [s]) g).
Proof. reflexivity. Qed.

Lemma run_error {B} s (k : unit -> M B) g :
  bind (error s) k g = k tt (set_stdout (stdout g ++ error_text (line g) s) g).
Proof. unfold bind at 1. now rewrite error_prints. Qed.

Lemma run_warning {B} s (k : unit -> M B) g :
  bind (warning s) k g = k tt (set_stdout (stdout g ++ warning_text (line g) s) g).
Proof. unfold bind at 1. now rewrite warning_prints. Qed.

Lemma run_deref {B} p t (k : node -> M B) g :
  first g !! p = Some t -> bind (deref p) k g = k t g.
Proof. intros H. now rewrite (bind_Some _ _ _ _ _ (deref_Some _ _ _ H)). Qed.

Lemma run_checksym {B} name (k : nat -> M B) g :
  bind (checksym name) k g = k (fst (resolution name g)) (snd (resolution name g)).
Proof. unfold bind at 1. rewrite checksym_resolution. now destruct (resolution name g). Qed.

Lemma run_leaf {B} tok (k : unit -> M B) g :
  bind (create_node tok 1) k g = k tt (set_tree_top (Some (leaf tok) :: tree_top g) g).
Proof. unfold bind at 1. now rewrite create_node_leaf. Qed.

Lemma run_binary {B} tok (k : unit -> M B) g r l rest :
  tree_top g = r :: l :: rest ->
  bind (create_node tok 0) k g
  = k tt (set_tree_top (Some (mkNode l r None None tok 0) :: rest) g).
Proof. intros H. unfold bind at 1. now rewrite (create_node_binary _ _ _ _ _ H). Qed.

(** The projections of a state that is written out. *)
Ltac proj :=
  cbn [x scope unaryop assignop datatype assigntype idcheck check_un tempStr first crt lhs
       tree_top preBuf line yyin stdout
       set_x set_scope set_unaryop set_assignop set_datatype set_assigntype set_idcheck
       set_check_un set_tempStr set_first set_crt set_lhs set_tree_top set_preBuf set_line
       set_yyin set_stdout] in *.

(** The state written out, with only its projections computed. *)
Ltac record g :=
  destruct g as [?g_x ?g_scope ?g_unaryop ?g_assignop ?g_datatype ?g_assigntype
                 ?g_idcheck ?g_check_un ?g_tempStr ?g_first ?g_crt ?g_lhs ?g_tree_top
                 ?g_preBuf ?g_line ?g_yyin ?g_stdout];
  proj.

(** The steps of a run that need no fact about the state. *)
Ltac run :=
  repeat (first [ rewrite run_assoc | rewrite run_ret | rewrite run_gets | rewrite run_modify
                | rewrite run_printf | rewrite run_error | rewrite run_warning
                | rewrite run_leaf ]; cbv beta; proj).

(** ** Blocks *)

Lemma close_entry_valid params sc t :
  sym_valid t <> 1 -> close_entry params sc t = t.
Proof.
  intros H. unfold close_entry. destruct (Z.eqb_spec (sym_valid t) 1); [contradiction|].
  now rewrite !andb_false_r.
Qed.

Lemma close_entry_scope sc t :
  sym_scope t <> sc -> close_entry false sc t = t.
Proof.
  intros H. unfold close_entry. now destruct (Z.eqb_spec (sym_scope t) sc).
Qed.

Lemma close_entry_closed sc t :
  sym_scope t = sc -> sym_valid (close_entry false sc t) <> 1.
Proof.
  intros H. unfold close_entry. rewrite H, Z.eqb_refl. cbn [andb orb].
  destruct (Z.eqb_spec (sym_valid t) 1) as [E|E]; cbn; [discriminate|exact E].
Qed.

Lemma close_entry_fields params sc t :
  sym_token (close_entry params sc t) = sym_token t /\
  sym_name (close_entry params sc t) = sym_name t /\
  sym_dtype (close_entry params sc t) = sym_dtype t /\
  sym_scope (close_entry params sc t) = sym_scope t /\
  sym_lineno (close_entry params sc t) = sym_lineno t /\
  sym_val (close_entry params sc t) = sym_val t.
Proof. unfold close_entry. now destruct (_ || _). Qed.

Lemma reduce_23 yyvsp yyval g :
  yyaction yyvsp 23 yyval g
  = Some (inl yyval,
          set_scope (scope g - 1)
            (set_first (close_entry false (scope g) <$> first g) g)).
Proof. globals g. reflexivity. Qed.


(** X4.  The action at the end of a block (rule 23) returns, lowers
    [scope] by one and leaves no symbol of the block valid.  It changes
    nothing else: every symbol keeps its place and all its other fields,
    the symbols of other scopes and the symbols that were invalid already
    are what they were, and nothing is printed or built. *)
Theorem block_end_invalidates_the_symbols_of_the_block
    (yyvsp : nat -> YYSTYPE) (yyval : YYSTYPE) (g : globals) :
  exists g',
    yyaction yyvsp 23 yyval g = Some (inl yyval, g') /\
    scope g' = scope g - 1 /\
    length (first g') = length (first g) /\
    (forall t', t' ∈ first g' -> sym_scope t' = scope g -> sym_valid t' <> 1) /\
    (forall i t, first g !! i = Some t ->
       exists t', first g' !! i = Some t' /\
         sym_token t' = sym_token t /\ sym_name t' = sym_name t /\
         sym_dtype t' = sym_dtype t /\ sym_scope t' = sym_scope t /\
         sym_lineno t' = sym_lineno t /\ sym_val t' = sym_val t /\
         (sym_scope t <> scope g \/ sym_valid t <> 1 -> t' = t)) /\
    tree_top g' = tree_top g /\ stdout g' = stdout g.
Proof.
  eexists. split; [apply reduce_23|].
  split; [now globals g|]. split; [globals g; apply length_fmap|].
  split; [|split; [|now globals g]].
  - intros t' Ht' Hsc.
    replace (first _) with (close_entry false (scope g) <$> first g) in Ht' by now globals g.
    apply list_elem_of_fmap in Ht' as (t & -> & _).
    apply close_entry_closed.
    now destruct (close_entry_fields false (scope g) t) as (_ & _ & _ & <- & _).
  - intros i t Hi. exists (close_entry false (scope g) t).
    split; [globals g; now rewrite list_lookup_fmap, Hi|].
    destruct (close_entry_fields false (scope g) t) as (H1 & H2 & H3 & H4 & H5 & H6).
    repeat (split; [assumption|]).
    intros [H|H]; [now apply close_entry_scope|now apply close_entry_valid].
Qed.

(** ** Names that are not declared *)









(** The parser gets there: in [unreported_program] the use of the global
    [a] sets [check_un], and the assignment to the undeclared [b] is
    accepted without a message; all that is printed is the symbol table. *)
Lemma unreported_program_prints_no_error :
  observe (fun g => (check_un g, length (stdout g), filter (fun s => s = "error: ") (stdout g)))
          (main_parse 300 (init_globals unreported_program))
  = Some (Some 0, (1, 6%nat, [])).
Proof. vm_compute. reflexivity. Qed.

(** ** Declaring a name twice *)

Lemma run_reduce_33 {B} dt (k : unit -> M B) g :
  bind (reduce 33 [Yival dt]) k g = k tt (set_datatype dt g).
Proof. unfold reduce. cbn [yyaction stack_of nth yy_ival need default last]. now run. Qed.

Lemma run_reduce_37 {B} p t (k : unit -> M B) g :
  first g !! p = Some t ->
  bind (reduce 37 [Yptr p]) k g
  = k tt (set_tree_top (Some (leaf (sym_name t)) :: tree_top g) g).
Proof.
  intros Hp. unfold reduce. cbn [yyaction stack_of nth yy_ptr need default last].
  run. rewrite (run_deref p t) by exact Hp. now run.
Qed.

Lemma run_reduce_56 {B} i (k : unit -> M B) g :
  bind (reduce 56 [Yival i]) k g
  = k tt (set_tree_top (Some (leaf (fmt_d i)) :: tree_top g)
            (set_tempStr (fmt_d i) (set_assigntype 0 g))).
Proof.
  unfold reduce. cbn [yyaction stack_of nth yy_ival need default last].
  run. globals g. reflexivity.
Qed.

Lemma redefinition_check t sc :
  sym_dtype t <> -1 -> sc <= sym_scope t ->
  negb (sym_dtype t =? -1) && (sym_scope t <? sc) && (sym_valid t =? 1) = false /\
  negb (sym_dtype t =? -1) = true.
Proof.
  intros Hty Hsc. destruct (Z.eqb_spec (sym_dtype t) (-1)); [contradiction|].
  destruct (Z.ltb_spec (sym_scope t) sc); [lia|]. now split.
Qed.

Lemma reduce_39_redefinition p t g :
  first g !! p = Some t -> sym_dtype t <> -1 -> scope g <= sym_scope t ->
  reduce 39 [Yptr p] g
  = Some (tt, set_stdout (stdout g ++ error_text (line g)
                            ("redefinition of '" +:+ sym_name t +:+ "' " +:+ NL)) g).
Proof.
  intros Hp Hty Hsc. destruct (redefinition_check t (scope g) Hty Hsc) as [E1 E2].
  unfold reduce. cbn [yyaction stack_of nth yy_ptr need default last].
  run. rewrite (run_deref p t) by exact Hp. run. rewrite E1, E2. now run.
Qed.

Lemma reduce_38_redefinition p t v g :
  first g !! p = Some t -> sym_dtype t <> -1 -> scope g <= sym_scope t ->
  reduce 38 [Yfval v; Yundef; Yundef; Yptr p] g
  = Some (tt, set_stdout (stdout g ++ error_text (line g)
                            ("redefinition of '" +:+ sym_name t +:+ "' " +:+ NL)) g).
Proof.
  intros Hp Hty Hsc. destruct (redefinition_check t (scope g) Hty Hsc) as [E1 E2].
  unfold reduce. cbn [yyaction stack_of nth yy_ptr need default last].
  run. rewrite (run_deref p t) by exact Hp. run. rewrite E1, E2. now run.
Qed.

(** X7.  A declaration of a name whose first valid symbol is typed and
    is not of an outer scope is rejected: [redefinition of] is printed and
    the table is left as it is.  Without an initialiser nothing is built;
    with one, the leaves of the name and of the literal have been pushed
    by then and stay on the tree stack, with no ["="] node over them. *)
Theorem redeclaration_in_the_same_scope_is_rejected
    (dt : Z) (name : string) (v : Z) (g : globals) (i : nat) (t : node) :
  first_visible name (first g) = Some (i, t) ->
  sym_dtype t <> -1 ->
  scope g <= sym_scope t ->
  let message := error_text (line g) ("redefinition of '" +:+ name +:+ "' " +:+ NL) in
  (exists g',
     run_event (DeclarePlain dt name) g = Some (tt, g') /\
     first g' = first g /\
     stdout g' = stdout g ++ message /\
     tree_top g' = tree_top g) /\
  (exists g',
     run_event (DeclareInit dt name v) g = Some (tt, g') /\
     first g' = first g /\
     stdout g' = stdout g ++ message /\
     tree_top g' = Some (leaf (fmt_d v)) :: Some (leaf name) :: tree_top g).
Proof.
  intros Hfv Hty Hsc message.
  pose proof Hfv as (Hi & [Hn Hv]%visible_name & _)%first_visible_Some.
  assert (Hres : forall g0, first g0 = first g -> scope g0 = scope g ->
            exists c, resolution name g0 = (i, set_check_un c g0)).
  { intros g0 E1 E2. unfold resolution. rewrite E1, Hfv. eauto. }
  split.
  - cbn [run_event]. rewrite run_reduce_33, run_checksym.
    destruct (Hres (set_datatype dt g)) as (c & ->); [now globals g..|]. cbn [fst snd].
    rewrite (reduce_39_redefinition i t) by (globals g; auto).
    eexists. split; [reflexivity|]. subst message. rewrite Hn. now globals g.
  - cbn [run_event]. rewrite run_reduce_33, run_checksym.
    destruct (Hres (set_datatype dt g)) as (c & ->); [now globals g..|]. cbn [fst snd].
    rewrite (run_reduce_37 i t) by (globals g; auto).
    rewrite run_reduce_56.
    rewrite (reduce_38_redefinition i t) by (globals g; auto).
    eexists. split; [reflexivity|]. subst message. rewrite Hn. now globals g.
Qed.

Lemma redeclaration_in_the_same_scope_is_rejected_witness :
  let t := sym "a" 0 0 1 (Vi 5) in
  let g := outer_table in
  let message := error_text (line g) ("redefinition of '" +:+ "a" +:+ "' " +:+ NL) in
  first_visible "a" (first g) = Some (0%nat, t) /\
  sym_dtype t <> -1 /\
  scope g <= sym_scope t /\
  (exists g',
     run_event (DeclarePlain 1 "a") g = Some (tt, g') /\
     first g' = first g /\
     stdout g' = stdout g ++ message /\
     tree_top g' = tree_top g) /\
  (exists g',
     run_event (DeclareInit 1 "a" 7) g = Some (tt, g') /\
     first g' = first g /\
     stdout g' = stdout g ++ message /\
     tree_top g' = Some (leaf (fmt_d 7)) :: Some (leaf "a") :: tree_top g).
Proof.
  intros t g message.
  assert (H1 : first_visible "a" (first g) = Some (0%nat, t)) by reflexivity.
  assert (H2 : sym_dtype t <> -1) by discriminate.
  assert (H3 : scope g <= sym_scope t) by (cbn; lia).
  exact (conj H1 (conj H2 (conj H3
    (redeclaration_in_the_same_scope_is_rejected 1 "a" 7 g 0 t H1 H2 H3)))).
Defined.

(** ** Initialisers *)

Lemma run_addInt {B} p t ty v (k : unit -> M B) g :
  first g !! p = Some t -> sym_dtype t = -1 ->
  bind (addInt p ty v) k g = k tt (set_first (<[p := declared t ty (store_i v)]> (first g)) g).
Proof.
  intros Hp Hty. unfold bind at 1.
  now rewrite (proj1 (typing_sets_kind_and_value g p t ty v None None "" Hp Hty)).
Qed.

Lemma run_addFloat {B} p t ty v (k : unit -> M B) g :
  first g !! p = Some t -> sym_dtype t = -1 ->
  bind (addFloat p ty v) k g = k tt (set_first (<[p := declared t ty (store_f v)]> (first g)) g).
Proof.
  intros Hp Hty. unfold bind at 1.
  now rewrite (proj1 (proj2 (typing_sets_kind_and_value g p t ty None v None "" Hp Hty))).
Qed.

Lemma run_addChar {B} p t ty v (k : unit -> M B) g :
  first g !! p = Some t -> sym_dtype t = -1 ->
  bind (addChar p ty v) k g = k tt (set_first (<[p := declared t ty (store_c v)]> (first g)) g).
Proof.
  intros Hp Hty. unfold bind at 1.
  now rewrite (proj1 (proj2 (proj2
    (typing_sets_kind_and_value g p t ty None None v "" Hp Hty)))).
Qed.

(** X8.  A declaration with an initialiser of a name that is still
    untyped (rule 38) builds the ["="] node over the two nodes on top of
    the tree stack and sets [x] to the declared type.  For [int], [float]
    and [char] it types the symbol and stores the value of the
    initialiser, converted to that type; for another type ([void], or no
    type at all) the symbol stays untyped.  One warning is printed when,
    and only when, the declared type and the type of the last operand read
    are [int] and [float], [float] and [char], or [char] and [float]. *)
Theorem initialiser_types_the_symbol_and_warns_on_conversion
    (yyvsp : nat -> YYSTYPE) (yyval : YYSTYPE) (g : globals)
    (p : nat) (t : node) (r l : option Node) (rest : tree_stack) :
  yy_ptr (yyvsp 3%nat) = Some p ->
  first g !! p = Some t ->
  sym_dtype t = -1 ->
  tree_top g = r :: l :: rest ->
  exists g',
    yyaction yyvsp 38 yyval g = Some (inl yyval, g') /\
    tree_top g' = Some (mkNode l r None None "=" 0) :: rest /\
    x g' = datatype g /\
    first g' = (if (0 <=? datatype g) && (datatype g <=? 2)
                then <[p := declared t (datatype g)
                               (converted (datatype g) (yy_fval (yyvsp 0%nat)))]> (first g)
                else first g) /\
    stdout g' = stdout g
                ++ warning_lines (line g) (conversion_warning (datatype g) (assigntype g)).
Proof.
  intros Hptr Hp Hty Htop. globals g. subst g_tree_top.
  cbn [yyaction]. rewrite Hptr. cbn [need].
  run. rewrite (run_deref p t) by exact Hp. run.
  rewrite Hty. cbn [Z.eqb Pos.eqb negb andb]. run.
  rewrite (run_binary "=" _ _ r l rest) by reflexivity.
  unfold declare_init. run.
  unfold conversion_warning, converted, ifval, fval.
  destruct (Z.eqb_spec g_datatype 0) as [E0|E0].
  { rewrite E0. cbn [Z.leb Z.compare andb Z.eqb Pos.eqb]. run.
    rewrite (run_addInt p t) by assumption.
    destruct (Z.eqb_spec g_assigntype 1) as [E1|E1]; cbn [when andb warning_lines];
      run; eexists; (split; [reflexivity|]); proj;
      rewrite ?app_nil_r; now repeat split. }
  destruct (Z.eqb_spec g_datatype 1) as [E1|E1].
  { rewrite E1. cbn [Z.leb Z.compare andb Z.eqb Pos.eqb]. run.
    rewrite (run_addFloat p t) by assumption.
    destruct (Z.eqb_spec g_assigntype 2) as [E2|E2]; cbn [when andb warning_lines];
      run; eexists; (split; [reflexivity|]); proj;
      rewrite ?app_nil_r; now repeat split. }
  destruct (Z.eqb_spec g_datatype 2) as [E2|E2].
  { rewrite E2. cbn [Z.leb Z.compare andb Z.eqb Pos.eqb]. run.
    rewrite (run_addChar p t) by assumption.
    destruct (Z.eqb_spec g_assigntype 1) as [E3|E3]; cbn [when andb warning_lines];
      run; eexists; (split; [reflexivity|]); proj;
      rewrite ?app_nil_r; now repeat split. }
  cbn [andb warning_lines]. run.
  replace ((0 <=? g_datatype) && (g_datatype <=? 2)) with false
    by (symmetry; apply andb_false_iff; rewrite !Z.leb_gt; lia).
  eexists. split; [reflexivity|]. proj. rewrite ?app_nil_r. now repeat split.
Qed.

Lemma initialiser_types_the_symbol_and_warns_on_conversion_witness :
  let half := F32.div (F32.of_Z 5) (F32.of_Z 2) in
  let yyvsp := fun k : nat =>
    match k with O => Yfval half | 3%nat => Yptr 0 | _ => Yundef end in
  let t := new_symbol "a" (init_globals []) in
  let g := set_assigntype 1 (set_datatype 0
             (set_tree_top [Some (leaf "2.500000"); Some (leaf "a"); None]
                (set_first [t] (init_globals [])))) in
  yy_ptr (yyvsp 3%nat) = Some 0%nat /\
  first g !! 0%nat = Some t /\
  sym_dtype t = -1 /\
  tree_top g = [Some (leaf "2.500000"); Some (leaf "a"); None] /\
  exists g',
    yyaction yyvsp 38 Yundef g = Some (inl Yundef, g') /\
    tree_top g' = [Some (binary "=" (leaf "a") (leaf "2.500000")); None] /\
    x g' = 0 /\
    first g' = [declared t 0 (Vi 2)] /\
    stdout g' = warning_text 1 float_to_int.
Proof.
  intros half yyvsp t g.
  assert (H1 : yy_ptr (yyvsp 3%nat) = Some 0%nat) by reflexivity.
  assert (H2 : first g !! 0%nat = Some t) by reflexivity.
  assert (H3 : sym_dtype t = -1) by reflexivity.
  assert (H4 : tree_top g = [Some (leaf "2.500000"); Some (leaf "a"); None]) by reflexivity.
  split; [exact H1|]. split; [exact H2|]. split; [exact H3|]. split; [exact H4|].
  exact (initialiser_types_the_symbol_and_warns_on_conversion
           yyvsp Yundef g 0 t _ _ _ H1 H2 H3 H4).
Defined.

(** ** The remainder *)

(** X9.  The action of ['%'] (rule 85) looks at the type of the last
    operand read only: when that is [float] it prints the error
    [invalid operands to binary expression] and does nothing else, so the
    nodes of the two operands stay on the tree stack and no ["%"] node is
    built. *)
Theorem remainder_of_a_float_operand_is_rejected
    (yyvsp : nat -> YYSTYPE) (yyval : YYSTYPE) (g : globals) :
  assigntype g = 1 ->
  yyaction yyvsp 85 yyval g
  = Some (inl yyval,
          set_stdout
            (stdout g ++ error_text (line g)
               ("invalid operands to binary expression ('float' and 'float') "
                +:+ NL +:+ NL)) g).
Proof.
  intros Hty. globals g. subst. cbn [yyaction]. run. cbn [Z.eqb Pos.eqb]. now run.
Qed.

Lemma remainder_of_a_float_operand_is_rejected_witness :
  let g := set_assigntype 1 (init_globals []) in
  assigntype g = 1 /\
  yyaction (fun _ => Yundef) 85 Yundef g
  = Some (inl Yundef,
          set_stdout
            (stdout g ++ error_text (line g)
               ("invalid operands to binary expression ('float' and 'float') "
                +:+ NL +:+ NL)) g).
Proof.
  intros g. assert (H : assigntype g = 1) by reflexivity.
  exact (conj H (remainder_of_a_float_operand_is_rejected (fun _ => Yundef) Yundef g H)).
Defined.

Lemma to_int_Some z i : to_int z = Some i -> z = i /\ INT_MIN <= i <= INT_MAX.
Proof.
  unfold to_int, in_int. destruct (Z.leb_spec INT_MIN z); [|discriminate].
  destruct (Z.leb_spec z INT_MAX); [|discriminate]. cbn. intros [= <-]. lia.
Qed.

Lemma trunc_in_int f i : F32.trunc f = Some i -> INT_MIN <= i <= INT_MAX.
Proof.
  unfold F32.trunc. destruct f as [s| | |s m e].
  - intros [= <-]. unfold INT_MIN, INT_MAX. lia.
  - discriminate.
  - discriminate.
  - intros H. now apply to_int_Some in H.
Qed.

Lemma rem_in_int a b :
  INT_MIN <= a <= INT_MAX -> INT_MIN <= b <= INT_MAX -> b <> 0 ->
  to_int (Z.rem a b) = Some (Z.rem a b).
Proof.
  intros Ha Hb Hb0. unfold to_int, in_int.
  pose proof (Z.rem_bound_abs a b Hb0) as H. unfold INT_MIN, INT_MAX in *.
  destruct (Z.leb_spec (-2147483648) (Z.rem a b)); [|lia].
  destruct (Z.leb_spec (Z.rem a b) 2147483647); [reflexivity|lia].
Qed.

(** X10.  With operands that are no [float]s, the action of ['%']
    converts both values to [int] and takes the remainder of the C
    division (its sign is the sign of the left operand); it builds the
    ["%"] node over the two nodes on top of the tree stack.  There is no
    test of the divisor, unlike in the action of ['/']: with a right
    operand that converts to 0 the run does not return, and neither does
    it for [INT_MIN % -1], the one other case in which the machine cannot
    divide. *)
Theorem remainder_by_zero_does_not_return
    (yyvsp : nat -> YYSTYPE) (yyval : YYSTYPE) (g : globals)
    (a d : float) (ia id : Z) (r l : option Node) (rest : tree_stack) :
  assigntype g <> 1 ->
  yy_fval (yyvsp 2%nat) = Some a -> F32.trunc a = Some ia ->
  yy_fval (yyvsp 0%nat) = Some d -> F32.trunc d = Some id ->
  tree_top g = r :: l :: rest ->
  yyaction yyvsp 85 yyval g
  = if (id =? 0) || ((ia =? INT_MIN) && (id =? -1)) then None
    else Some (inl (Yfval (F32.of_Z (Z.rem ia id))),
               set_tree_top (Some (mkNode l r None None "%" 0) :: rest) g).
Proof.
  intros Hty Ha Hia Hd Hid Htop. globals g. subst g_tree_top.
  cbn [yyaction]. run. destruct (Z.eqb_spec g_assigntype 1); [contradiction|].
  unfold int_div, ifval, fval. rewrite Ha, Hd. cbn [mbind option_bind].
  rewrite Hia, Hid. cbn [need]. run.
  destruct ((id =? 0) || ((ia =? INT_MIN) && (id =? -1))) eqn:E.
  - reflexivity.
  - apply orb_false_iff in E as [E _]. apply Z.eqb_neq in E.
    run. rewrite (run_binary "%" _ _ r l rest) by reflexivity. run.
    rewrite rem_in_int by eauto using trunc_in_int. reflexivity.
Qed.

Lemma remainder_by_zero_does_not_return_witness :
  let yyvsp := fun k : nat =>
    match k with O => Yfval F32.zero | _ => Yfval (F32.of_Z 7) end in
  let g := set_assigntype 0
             (set_tree_top [Some (leaf "0"); Some (leaf "7"); None] (init_globals [])) in
  assigntype g <> 1 /\
  yy_fval (yyvsp 2%nat) = Some (F32.of_Z 7) /\ F32.trunc (F32.of_Z 7) = Some 7 /\
  yy_fval (yyvsp 0%nat) = Some F32.zero /\ F32.trunc F32.zero = Some 0 /\
  tree_top g = [Some (leaf "0"); Some (leaf "7"); None] /\
  yyaction yyvsp 85 Yundef g = None.
Proof.
  intros yyvsp g.
  assert (H1 : assigntype g <> 1) by discriminate.
  assert (H2 : yy_fval (yyvsp 2%nat) = Some (F32.of_Z 7)) by reflexivity.
  assert (H3 : F32.trunc (F32.of_Z 7) = Some 7) by reflexivity.
  assert (H4 : yy_fval (yyvsp 0%nat) = Some F32.zero) by reflexivity.
  assert (H5 : F32.trunc F32.zero = Some 0) by reflexivity.
  assert (H6 : tree_top g = [Some (leaf "0"); Some (leaf "7"); None]) by reflexivity.
  repeat (split; [assumption|]).
  exact (remainder_by_zero_does_not_return yyvsp Yundef g _ _ 7 0 _ _ _ H1 H2 H3 H4 H5 H6).
Defined.

(** ** The end of the parse: the symbol table *)

Lemma print_row_prints t g :
  printable t = true ->
  exists s1 s2, print_row t g = Some (tt, set_stdout (stdout g ++ [s1; s2]) g).
Proof.
  intros H. unfold printable in H. globals g. unfold print_row, data_type_name.
  destruct (Z.eqb_spec (sym_dtype t) 0) as [E0|E0].
  { destruct (val_i (sym_val t)) as [i|]; [|discriminate]. cbn [need]. run.
    destruct (i =? INT_MIN); run; eexists _, _; unfold printf, modify; proj; rewrite <- app_assoc; reflexivity. }
  destruct (Z.eqb_spec (sym_dtype t) 1) as [E1|E1].
  { destruct (val_f (sym_val t)) as [f|]; [|discriminate]. cbn [need]. run.
    destruct (F32.eqb f (F32.of_Z INT_MIN)); run; eexists _, _; unfold printf, modify; proj; rewrite <- app_assoc;
      reflexivity. }
  destruct (Z.eqb_spec (sym_dtype t) 2) as [E2|E2].
  { destruct (val_c (sym_val t)) as [c|]; [|discriminate]. cbn [need]. run.
    eexists _, _; unfold printf, modify; proj; rewrite <- app_assoc; reflexivity. }
  rewrite H. cbn [need]. run.
  destruct (String.eqb _ _); run; eexists _, _; unfold printf, modify; proj; rewrite <- app_assoc; reflexivity.
Qed.

Lemma print_rows_print l :
  Forall (fun t => printable t = true) l ->
  forall g, exists rows,
    print_rows l g = Some (tt, set_stdout (stdout g ++ rows) g) /\
    length rows = (2 * length l)%nat.
Proof.
  induction 1 as [|t l Ht _ IH]; intros g.
  - exists []. split; [|reflexivity]. cbn. globals g. now rewrite app_nil_r.
  - destruct (print_row_prints t g Ht) as (s1 & s2 & E).
    destruct (IH (set_stdout (stdout g ++ [s1; s2]) g)) as (rows & E' & Hlen).
    exists (s1 :: s2 :: rows). split; [|cbn; lia].
    cbn [print_rows]. rewrite (bind_Some _ _ _ _ _ E), E'.
    globals g. now rewrite <- app_assoc.
Qed.

(** X11.  The action of the start rule (rule 2) ends the parse with the
    result 0.  It unlinks the untyped symbols and the function [main] from
    the table and keeps the other symbols in their order; when each of
    those has a type that [printsymtable] knows and a value of that type,
    it prints the title, the column heads, two strings for every symbol
    kept and the closing blank lines, and nothing else. *)
Theorem accepted_program_prints_one_row_per_typed_symbol
    (yyvsp : nat -> YYSTYPE) (yyval : YYSTYPE) (g : globals) :
  (forall t, t ∈ first g -> unlinked t = false -> printable t = true) ->
  exists g' rows,
    yyaction yyvsp 2 yyval g = Some (inr 0, g') /\
    (forall t, t ∈ first g' <-> t ∈ first g /\ unlinked t = false) /\
    first g' `sublist_of` first g /\
    length rows = (2 * length (first g'))%nat /\
    stdout g' = stdout g
      ++ [NL +:+ NL +:+ "Symbol Table" +:+ NL +:+ NL;
          "   Symbol" +:+ TAB +:+ TAB +:+ "Name" +:+ TAB +:+ "  Type" +:+ TAB
          +:+ "      Scope" +:+ TAB +:+ "   Line Number" +:+ TAB +:+ "       Value "
          +:+ NL]
      ++ rows ++ [NL +:+ NL +:+ NL] /\
    tree_top g' = tree_top g.
Proof.
  intros Hall. globals g. cbn [yyaction]. unfold cleansymbol, printsymtable. run.
  set (kept := filter _ g_first).
  assert (Hkept : forall t, t ∈ kept <-> t ∈ g_first /\ unlinked t = false).
  { intros t. unfold kept. rewrite list_elem_of_filter. fold (unlinked t).
    destruct (unlinked t); cbn; intuition discriminate. }
  assert (Hprint : Forall (fun t => printable t = true) kept).
  { apply Forall_forall. intros t [Ht Hu]%Hkept. now apply Hall. }
  match goal with |- context [bind (print_rows kept) _ ?g0] =>
    destruct (print_rows_print kept Hprint g0) as (rows & E & Hlen) end.
  eexists _, rows. unfold bind at 1. rewrite E. run.
  split; [reflexivity|]. proj. split; [exact Hkept|].
  split; [apply sublist_filter|]. split; [lia|].
  split; [|reflexivity]. now rewrite <- !app_assoc.
Qed.

Lemma accepted_program_prints_one_row_per_typed_symbol_witness :
  let g := set_first [{| sym_token := "function"; sym_name := "main"; sym_dtype := 0;
                         sym_scope := 0; sym_lineno := 1; sym_valid := 1;
                         sym_val := Vi 0 |};
                      sym "a" 0 1 0 (Vi 5);
                      new_symbol "b" (init_globals [])] (init_globals []) in
  (forall t, t ∈ first g -> unlinked t = false -> printable t = true) /\
  exists g' rows,
    yyaction (fun _ => Yundef) 2 Yundef g = Some (inr 0, g') /\
    (forall t, t ∈ first g' <-> t ∈ first g /\ unlinked t = false) /\
    first g' `sublist_of` first g /\
    length rows = (2 * length (first g'))%nat /\
    stdout g' = stdout g
      ++ [NL +:+ NL +:+ "Symbol Table" +:+ NL +:+ NL;
          "   Symbol" +:+ TAB +:+ TAB +:+ "Name" +:+ TAB +:+ "  Type" +:+ TAB
          +:+ "      Scope" +:+ TAB +:+ "   Line Number" +:+ TAB +:+ "       Value "
          +:+ NL]
      ++ rows ++ [NL +:+ NL +:+ NL] /\
    tree_top g' = tree_top g.
Proof.
  intros g.
  assert (H : forall t, t ∈ first g -> unlinked t = false -> printable t = true).
  { intros t Ht. repeat (apply elem_of_cons in Ht as [->|Ht]); [..|now apply elem_of_nil in Ht];
      vm_compute; congruence. }
  exact (conj H (accepted_program_prints_one_row_per_typed_symbol (fun _ => Yundef) Yundef g H)).
Defined.

(** ** The levels and the final output *)

Lemma int_wrap_int z : INT_MIN <= z <= INT_MAX -> int_wrap z = z.
Proof.
  unfold int_wrap, INT_MIN, INT_MAX. intros H.
  rewrite Z.mod_small by lia. lia.
Qed.

Lemma child_get_levels_at d n k :
  child d (get_levels_at n k) = (fun c => get_levels_at c (int_wrap (k + 1))) <$> child d n.
Proof. destruct n as [[l|] [r|] v b tok lvl], d; reflexivity. Qed.

Lemma descend_get_levels_at path : forall n k,
  INT_MIN <= k -> k + Z.of_nat (length path) <= INT_MAX ->
  descend path (get_levels_at n k)
  = (fun m => get_levels_at m (k + Z.of_nat (length path))) <$> descend path n.
Proof.
  induction path as [|d path IH]; intros n k Hlo Hhi.
  - cbn. now rewrite Z.add_0_r.
  - cbn [descend length] in *. rewrite child_get_levels_at.
    rewrite int_wrap_int by lia.
    destruct (child d n) as [c|]; cbn; [|reflexivity].
    rewrite IH by lia. now replace (k + 1 + Z.of_nat (length path))
                         with (k + Z.of_nat (S (length path))) by lia.
Qed.

Lemma n_level_get_levels_at n k : n_level (get_levels_at n k) = k.
Proof. now destruct n as [[l|] [r|] v b tok lvl]. Qed.

Lemma serialize_get_levels_at n : forall k, serialize (get_levels_at n k) = serialize n.
Proof.
  induction n as [l r v b tok lvl IHl IHr IHv IHb] using Node_ind. intros k.
  destruct l as [l|], r as [r|]; cbn [get_levels_at serialize is_some orb];
    cbn [opt_all] in IHl, IHr; rewrite ?IHl, ?IHr; reflexivity.
Qed.

(** X12.  [get_levels] numbers the nodes along the [left] and [right]
    links: the root gets [level], and a node that is reached from the root
    by a path of such links gets [level] plus the length of the path, as
    long as that sum is an [int], that is, up to [INT_MAX] ([main] calls
    it with the level 1).  It does not follow [val] and [body], so the
    third and the fourth child of a node and all below them keep the level
    they had.  It changes no label and no link: the tree prints as
    before. *)
Theorem get_levels_numbers_the_left_and_right_paths (n : Node) (level : Z) :
  INT_MIN <= level <= INT_MAX ->
  n_level (get_levels_at n level) = level /\
  (forall path,
     level + Z.of_nat (length path) <= INT_MAX ->
     descend path (get_levels_at n level)
     = (fun m => get_levels_at m (level + Z.of_nat (length path))) <$> descend path n) /\
  (forall path,
     level + Z.of_nat (length path) <= INT_MAX ->
     n_level <$> descend path (get_levels_at n level)
     = (fun _ => level + Z.of_nat (length path)) <$> descend path n) /\
  n_val (get_levels_at n level) = n_val n /\
  n_body (get_levels_at n level) = n_body n /\
  serialize (get_levels_at n level) = serialize n.
Proof.
  intros [Hlo Hhi].
  split; [apply n_level_get_levels_at|].
  split; [intros path Hp; now apply descend_get_levels_at|].
  split.
  - intros path Hp. rewrite descend_get_levels_at by assumption.
    destruct (descend path n) as [m|]; cbn; [|reflexivity].
    now rewrite n_level_get_levels_at.
  - split; [|split; [|apply serialize_get_levels_at]];
      now destruct n as [[l|] [r|] v b tok lvl].
Qed.

Lemma get_levels_numbers_the_left_and_right_paths_witness :
  let n := binary "=" (leaf "a") (binary "+" (leaf "b") (leaf "1")) in
  INT_MIN <= 1 <= INT_MAX /\
  n_level (get_levels_at n 1) = 1 /\
  (forall path,
     1 + Z.of_nat (length path) <= INT_MAX ->
     descend path (get_levels_at n 1)
     = (fun m => get_levels_at m (1 + Z.of_nat (length path))) <$> descend path n) /\
  (forall path,
     1 + Z.of_nat (length path) <= INT_MAX ->
     n_level <$> descend path (get_levels_at n 1)
     = (fun _ => 1 + Z.of_nat (length path)) <$> descend path n) /\
  n_val (get_levels_at n 1) = n_val n /\
  n_body (get_levels_at n 1) = n_body n /\
  serialize (get_levels_at n 1) = serialize n.
Proof.
  intros n.
  assert (H : INT_MIN <= 1 <= INT_MAX) by (unfold INT_MIN, INT_MAX; lia).
  exact (conj H (get_levels_numbers_the_left_and_right_paths n 1 H)).
Defined.


(** ** The tree stack *)

(** X14.  [create_node] returns exactly when the tree stack holds the
    cells it takes off: two for [leaf == 0], none for [leaf == 1], one for
    any other value.  It then leaves one cell in their place, which holds
    the new node, and changes nothing but the stack. *)
Theorem create_node_returns_when_the_stack_holds_its_operands
    (token : string) (leaf : Z) (g : globals) :
  if (cells_taken leaf <=? length (tree_top g))%nat
  then exists n,
         create_node token leaf g
         = Some (tt, set_tree_top (Some n :: drop (cells_taken leaf) (tree_top g)) g) /\
         n_token n = token /\
         n_right n = (if leaf =? 0 then mjoin (tree_top g !! 0%nat) else None) /\
         n_left n = (if leaf =? 1 then None
                     else mjoin (tree_top g !! (cells_taken leaf - 1)%nat))
  else create_node token leaf g = None.
Proof.
  unfold cells_taken. globals g. unfold create_node.
  destruct (Z.eqb_spec leaf 0) as [E0|E0].
  { subst leaf. destruct g_tree_top as [|r [|l rest]]; cbn; try reflexivity.
    eexists. now repeat split. }
  destruct (Z.eqb_spec leaf 1) as [E1|E1].
  { cbn. eexists. now repeat split. }
  destruct g_tree_top as [|l rest]; cbn; try reflexivity.
  eexists. now repeat split.
Qed.

(** ** The functions of the level-wise printer *)

Lemma getmaxlevel_loop_counts n : forall c,
  exists (k : nat) (m : Node),
    getmaxlevel_loop n c = c + Z.of_nat k /\
    descend (replicate k false) n = Some m /\ n_left m = None.
Proof.
  induction n as [l r v b tok lvl IHl _ _ _] using Node_ind. intros c.
  destruct l as [ln|]; cbn [getmaxlevel_loop].
  - destruct (IHl (c + 1)) as (k & m & E & Hd & Hm).
    exists (S k), m. split; [rewrite E; lia|]. split; [exact Hd|exact Hm].
  - exists O, (mkNode None r v b tok lvl). split; [cbn; lia|]. now split.
Qed.

(** X15.  [getmaxlevel] does not return for a NULL root.  For a tree it
    is twice the number of [left] links that lead from the root to the
    first node without a left child; what hangs on the right of these
    nodes does not count. *)
Theorem getmaxlevel_is_twice_the_length_of_the_leftmost_path (root : option Node) :
  match root with
  | None => getmaxlevel root = None
  | Some n =>
      exists (k : nat) (m : Node),
        descend (replicate k false) n = Some m /\ n_left m = None /\
        getmaxlevel root = to_int (2 * Z.of_nat k)
  end.
Proof.
  destruct root as [n|]; [|reflexivity].
  destruct (getmaxlevel_loop_counts n 0) as (k & m & E & Hd & Hm).
  exists k, m. split; [exact Hd|]. split; [exact Hm|].
  unfold getmaxlevel. rewrite E. f_equal. lia.
Qed.

Lemma times_printf k s : forall g,
  times k (printf s) g = Some (tt, set_stdout (stdout g ++ replicate k s) g).
Proof.
  induction k as [|k IH]; intros g; cbn [times replicate].
  - globals g. now rewrite app_nil_r.
  - rewrite run_printf, IH. globals g. now rewrite <- app_assoc.
Qed.

Lemma blanks_print level h g :
  0 <= h <= INT_MAX -> 1 <= level <= INT_MAX ->
  blanks level h g
  = Some (tt, set_stdout (stdout g ++ replicate (Z.to_nat (h - level)) " ") g).
Proof.
  intros Hh Hl. unfold blanks, to_int, in_int. unfold INT_MIN, INT_MAX in *.
  destruct (Z.leb_spec (-2147483648) (h - 1)); [|lia].
  destruct (Z.leb_spec (h - 1) 2147483647); [|lia]. cbn [andb need]. run.
  destruct (Z.leb_spec (-2147483648) (h - 1 - level)); [|lia].
  destruct (Z.leb_spec (h - 1 - level) 2147483647); [|lia]. cbn [andb need]. run.
  rewrite times_printf. now replace (h - 1 - level + 1) with (h - level) by lia.
Qed.

Lemma filter_blanks k : filter (fun s : string => s <> " ") (replicate k " ") = [].
Proof.
  induction k as [|k IH]; [reflexivity|]. cbn [replicate].
  rewrite filter_cons_False; [exact IH|]. intros H. now apply H.
Qed.

Lemma printGivenLevel_at_prints n : forall level h g,
  0 <= h <= INT_MAX -> 1 <= level <= INT_MAX ->
  exists out,
    printGivenLevel_at n level h g = Some (tt, set_stdout (stdout g ++ out) g) /\
    filter (fun s => s <> " ") out
    = filter (fun s => s <> " ")
        ((fun tok => tok +:+ " ") <$> labels_at (Z.to_nat (level - 1)) n).
Proof.
  induction n as [l r v b tok lvl IHl IHr _ _] using Node_ind. intros level h g Hh Hl.
  cbn [printGivenLevel_at]. destruct (Z.eqb_spec level 1) as [E|E].
  - subst level.
    unfold bind at 1. rewrite (blanks_print 1 h g Hh Hl). unfold printf, modify.
    exists (replicate (Z.to_nat (h - 1)) " " ++ [tok +:+ " "]).
    split; [globals g; now rewrite <- app_assoc|].
    rewrite filter_app, filter_blanks. reflexivity.
  - destruct (Z.gtb_spec level 1) as [G|G]; [|lia].
    assert (Hsub : forall (c : option Node) g0,
               opt_all (fun n => forall level h g, 0 <= h <= INT_MAX -> 1 <= level <= INT_MAX ->
                 exists out,
                   printGivenLevel_at n level h g = Some (tt, set_stdout (stdout g ++ out) g) /\
                   filter (fun s => s <> " ") out
                   = filter (fun s => s <> " ")
                       ((fun tok => tok +:+ " ") <$> labels_at (Z.to_nat (level - 1)) n)) c ->
               exists out,
                 match c with Some n => printGivenLevel_at n (level - 1) h | None => ret tt end g0
                 = Some (tt, set_stdout (stdout g0 ++ out) g0) /\
                 filter (fun s => s <> " ") out
                 = filter (fun s => s <> " ")
                     ((fun tok => tok +:+ " ")
                      <$> match c with
                          | Some n => labels_at (Z.to_nat (level - 1 - 1)) n
                          | None => []
                          end)).
    { intros [c|] g0 IH.
      - apply IH; [exact Hh|lia].
      - exists []. split; [|reflexivity]. cbn. globals g0. now rewrite app_nil_r. }
    destruct (Hsub l g IHl) as (out1 & E1 & F1).
    unfold bind at 1. rewrite E1.
    unfold bind at 1. rewrite blanks_print by (proj; lia).
    destruct (Hsub r (set_stdout
                (stdout (set_stdout (stdout g ++ out1) g)
                 ++ replicate (Z.to_nat (h - level)) " ")
                (set_stdout (stdout g ++ out1) g)) IHr) as (out2 & E2 & F2).
    rewrite E2.
    exists (out1 ++ replicate (Z.to_nat (h - level)) " " ++ out2).
    split; [globals g; now rewrite <- !app_assoc|].
    rewrite !filter_app, filter_blanks, F1, F2. cbn [app].
    replace (Z.to_nat (level - 1)) with (S (Z.to_nat (level - 1 - 1))) by lia.
    cbn [labels_at]. now rewrite fmap_app, filter_app.
Qed.

(** X16.  [printGivenLevel] returns for every tree, for a width [h]
    from 0 up to [INT_MAX] and every level.  Leaving aside the blanks it
    pads with, it prints, for a level from 1 on, the labels of the nodes
    that lie [level - 1] links of [left] and [right] below the root, from
    left to right, each followed by a blank; for a level below 1, and for
    a NULL root, it prints nothing. *)
Theorem printGivenLevel_prints_the_labels_of_one_level
    (root : option Node) (level h : Z) (g : globals) :
  0 <= h <= INT_MAX -> level <= INT_MAX ->
  exists out,
    printGivenLevel root level h g = Some (tt, set_stdout (stdout g ++ out) g) /\
    filter (fun s => s <> " ") out
    = filter (fun s => s <> " ")
        ((fun tok => tok +:+ " ")
         <$> match root with
             | Some n => if 1 <=? level then labels_at (Z.to_nat (level - 1)) n else []
             | None => []
             end).
Proof.
  intros Hh Hl. destruct root as [n|].
  - destruct (Z.leb_spec 1 level) as [H1|H1].
    + apply printGivenLevel_at_prints; [exact Hh|lia].
    + exists []. split; [|reflexivity]. cbn [printGivenLevel].
      destruct n as [l r v b tok lvl]. cbn [printGivenLevel_at].
      destruct (Z.eqb_spec level 1); [lia|]. destruct (Z.gtb_spec level 1); [lia|].
      cbn. globals g. now rewrite app_nil_r.
  - exists []. split; [|reflexivity]. cbn. globals g. now rewrite app_nil_r.
Qed.

Lemma printGivenLevel_prints_the_labels_of_one_level_witness :
  0 <= 4 <= INT_MAX /\ 2 <= INT_MAX /\
  exists out,
    printGivenLevel (Some if_tree) 2 4 (init_globals [])
    = Some (tt, set_stdout (stdout (init_globals []) ++ out) (init_globals [])) /\
    filter (fun s => s <> " ") out
    = filter (fun s => s <> " ") ((fun tok => tok +:+ " ") <$> ["<"; "="]).
Proof.
  assert (H1 : 0 <= 4 <= INT_MAX) by (unfold INT_MAX; lia).
  assert (H2 : 2 <= INT_MAX) by (unfold INT_MAX; lia).
  exact (conj H1 (conj H2
    (printGivenLevel_prints_the_labels_of_one_level (Some if_tree) 2 4 (init_globals []) H1 H2))).
Defined.

(** ** Syntax errors *)

Lemma no_state_shifts_error :
  forallb (fun st => negb (shifts_error (Z.of_nat st))) (seq 0 170) = true.
Proof. vm_compute. reflexivity. Qed.

Lemma shifts_error_false st : st < YYNSTATES -> shifts_error st = false.
Proof.
  intros H. unfold YYNSTATES in H.
  assert (E : shifts_error st = shifts_error (Z.of_nat (Z.to_nat st))).
  { unfold shifts_error, at_. now rewrite Nat2Z.id. }
  rewrite E. apply negb_true_iff.
  apply (proj1 (forallb_forall _ _) no_state_shifts_error).
  apply in_seq. lia.
Qed.

Lemma yyerrpop_none ss : forall vs,
  Forall (fun st => st < YYNSTATES) ss -> yyerrpop ss vs = None.
Proof.
  induction ss as [|st below IH]; intros vs H; [reflexivity|].
  apply Forall_cons in H as [Hst Hbelow]. cbn [yyerrpop].
  fold (shifts_error st). rewrite (shifts_error_false st Hst).
  destruct below; [reflexivity|]. now apply IH.
Qed.

(** X17.  The parser has no error recovery: no state of its automaton
    shifts the error token.  So when it finds a syntax error, not being
    in recovery from an earlier one and with states of the automaton on
    its stack ([in_order], which holds all through a parse, see
    [yyloop_in_order] below), [yyparse] prints
    [Line:<n>: error: syntax error] through [yyerror] and returns 1, and
    no action runs after that. *)
Theorem syntax_error_ends_the_parse (p : parser) (g : globals) :
  in_order p ->
  yyerrlab p g
  = Some (Return 1,
          set_stdout (stdout g ++ error_text (line g) ("syntax error" +:+ NL)) g).
Proof.
  intros [Hst Hss]. unfold yyerrlab, yyerrlab1, yyerror. rewrite Hst. cbn [Z.eqb andb when].
  rewrite run_error. cbn [yyss yyvs]. now rewrite (yyerrpop_none _ _ Hss).
Qed.

Lemma syntax_error_ends_the_parse_witness :
  in_order yyinit /\
  yyerrlab yyinit (init_globals [])
  = Some (Return 1,
          set_stdout (stdout (init_globals [])
                      ++ error_text (line (init_globals [])) ("syntax error" +:+ NL))
                     (init_globals [])).
Proof.
  assert (H : in_order yyinit) by (split; [reflexivity|repeat constructor]).
  exact (conj H (syntax_error_ends_the_parse yyinit (init_globals []) H)).
Defined.

(** [in_order] holds all through a parse: it holds of [yyinit], and every
    round of the parser keeps it. *)
Lemma at_below (table : list Z) (bound : Z) i :
  forallb (fun v => v <? bound) table = true -> 0 < bound -> at_ table i < bound.
Proof.
  intros H Hb. unfold at_.
  destruct (nth_in_or_default (Z.to_nat i) table 0) as [Hin| ->]; [|exact Hb].
  apply Z.ltb_lt. exact (proj1 (forallb_forall _ _) H _ Hin).
Qed.

Lemma yytable_below i : at_ yytable i < YYNSTATES.
Proof. apply at_below; [vm_compute; reflexivity|reflexivity]. Qed.

Lemma yydefgoto_below i : at_ yydefgoto i < YYNSTATES.
Proof. apply at_below; [vm_compute; reflexivity|reflexivity]. Qed.

Lemma yynewstate_in_order st vs p g p' g' :
  st < YYNSTATES -> in_order p ->
  yynewstate st vs p g = Some (Goto p', g') -> in_order p'.
Proof.
  intros Hst [H1 H2]. unfold yynewstate. destruct (_ <=? _)%nat.
  - intros H. apply bind_inv in H as (? & ? & _ & [=]).
  - intros [= <- <-]. split; [exact H1|]. cbn. now constructor.
Qed.

Lemma yyreduce_in_order yyn p g p' g' :
  in_order p -> yyreduce yyn p g = Some (Goto p', g') -> in_order p'.
Proof.
  intros [H1 H2] H. unfold yyreduce in H.
  apply bind_inv in H as ([yyval|yyresult] & g1 & _ & H); [|discriminate].
  eapply yynewstate_in_order; [| |exact H].
  - destruct (_ && _); [apply yytable_below|apply yydefgoto_below].
  - split; [exact H1|]. cbn. now apply Forall_drop.
Qed.

Lemma yyerrlab_in_order p g p' g' :
  in_order p -> yyerrlab p g = Some (Goto p', g') -> in_order p'.
Proof.
  intros [H1 H2] H. unfold yyerrlab, yyerrlab1, yyerror in H. rewrite H1 in H.
  cbn [Z.eqb andb when] in H. rewrite run_error in H. cbn [yyss yyvs] in H.
  now rewrite (yyerrpop_none _ _ H2) in H.
Qed.

Lemma yydefault_in_order p g p' g' :
  in_order p -> yydefault p g = Some (Goto p', g') -> in_order p'.
Proof.
  intros Hp. unfold yydefault. destruct (_ =? _).
  - now apply yyerrlab_in_order.
  - now apply yyreduce_in_order.
Qed.

Lemma yylookahead_in_order yytoken yyn p g p' g' :
  in_order p -> yylookahead yytoken yyn p g = Some (Goto p', g') -> in_order p'.
Proof.
  intros Hp. unfold yylookahead. destruct (_ || _).
  - now apply yydefault_in_order.
  - destruct (_ <=? _).
    + now apply yyreduce_in_order.
    + apply yynewstate_in_order; [apply yytable_below|].
      destruct Hp as [H1 H2]. split; [cbn; now rewrite H1|exact H2].
Qed.

Lemma yybackup_in_order p g p' g' :
  in_order p -> yybackup p g = Some (Goto p', g') -> in_order p'.
Proof.
  intros Hp. unfold yybackup. destruct (_ =? _); [discriminate|].
  destruct (_ =? _); [now apply yydefault_in_order|].
  intros H. apply bind_inv in H as ([c lval] & g1 & _ & H). cbn [fst snd] in H.
  destruct Hp as [H1 H2].
  destruct (_ <=? _).
  - eapply yylookahead_in_order; [|exact H]. now split.
  - destruct (_ =? _).
    + unfold yyerrlab1 in H. cbn [yyss yyvs] in H.
      now rewrite (yyerrpop_none _ _ H2) in H.
    + eapply yylookahead_in_order; [|exact H]. now split.
Qed.

Lemma yyloop_in_order fuel : forall p g r p' g',
  in_order p -> yyloop fuel p g = Some (Some (r, p'), g') -> in_order p'.
Proof.
  induction fuel as [|fuel IH]; intros p g r p' g' Hp H; [discriminate|].
  cbn [yyloop] in H. apply bind_inv in H as ([p1|yyresult] & g1 & E & H).
  - apply (IH p1 g1 r p' g'); [|exact H]. now apply (yybackup_in_order p g p1 g1).
  - now injection H as <- <- <-.
Qed.

(** ** Assignments *)

Lemma run_update {B} p t f (k : unit -> M B) g :
  first g !! p = Some t ->
  bind (update p f) k g = k tt (set_first (<[p := f t]> (first g)) g).
Proof. intros H. unfold bind at 1. now rewrite (update_Some _ _ _ _ H). Qed.

(** X18.  An assignment with ['='] to a variable of type [int], [float]
    or [char] (rule 42, after a name has been read) builds the ["="] node
    over the two nodes on top of the tree stack and stores the value of
    the right-hand side in the symbol that [crt] points to, converted to
    the type of the variable; the other fields of the symbol and the other
    symbols stay as they are.  It prints the conversion warning under the
    same condition as a declaration does, and resets [crt], [assignop] and
    [assigntype]. *)
Theorem assignment_stores_the_converted_value
    (yyvsp : nat -> YYSTYPE) (yyval : YYSTYPE) (g : globals)
    (p : nat) (t : node) (r l : option Node) (rest : tree_stack) :
  assignop g = 0 -> idcheck g = 1 -> crt g = Some p ->
  first g !! p = Some t ->
  0 <= sym_dtype t <= 2 ->
  tree_top g = r :: l :: rest ->
  exists g',
    yyaction yyvsp 42 yyval g = Some (inl yyval, g') /\
    first g' = <[p := set_val (converted (sym_dtype t) (yy_fval (yyvsp 0%nat))) t]> (first g) /\
    tree_top g' = Some (mkNode l r None None "=" 0) :: rest /\
    stdout g' = stdout g
                ++ warning_lines (line g) (conversion_warning (sym_dtype t) (assigntype g)) /\
    crt g' = None /\ assignop g' = -1 /\ assigntype g' = -1.
Proof.
  intros Hop Hid Hcrt Hp Hty Htop. globals g. subst.
  cbn [yyaction]. run. cbn [Z.eqb]. unfold assign. run. cbn [Z.eqb Pos.eqb].
  run. rewrite (run_binary "=" _ _ r l rest) by reflexivity. run. cbn [need]. run.
  rewrite (run_deref p t) by exact Hp. run.
  unfold conversion_warning, converted, ifval, fval.
  destruct (Z.eqb_spec (sym_dtype t) 0) as [E0|E0].
  { rewrite ?E0. cbn [Z.eqb Pos.eqb andb].
    destruct (Z.eqb_spec g_assigntype 1) as [E1|E1]; cbn [when andb warning_lines];
      run; rewrite (run_update p t) by exact Hp; run;
      eexists; (split; [reflexivity|]); proj; rewrite ?app_nil_r; now repeat split. }
  destruct (Z.eqb_spec (sym_dtype t) 1) as [E1|E1].
  { rewrite ?E1. cbn [Z.eqb Pos.eqb andb].
    destruct (Z.eqb_spec g_assigntype 2) as [E2|E2]; cbn [when andb warning_lines];
      run; rewrite (run_update p t) by exact Hp; run;
      eexists; (split; [reflexivity|]); proj; rewrite ?app_nil_r; now repeat split. }
  destruct (Z.eqb_spec (sym_dtype t) 2) as [E2|E2]; [|lia].
  rewrite ?E2. cbn [Z.eqb Pos.eqb andb].
  destruct (Z.eqb_spec g_assigntype 1) as [E3|E3]; cbn [when andb warning_lines];
    run; rewrite (run_update p t) by exact Hp; run;
    eexists; (split; [reflexivity|]); proj; rewrite ?app_nil_r; now repeat split.
Qed.

Lemma assignment_stores_the_converted_value_witness :
  let half := F32.div (F32.of_Z 5) (F32.of_Z 2) in
  let yyvsp := fun k : nat => match k with O => Yfval half | _ => Yundef end in
  let t := sym "a" 0 0 1 (Vi 5) in
  let g := set_assigntype 1 (set_assignop 0 (set_idcheck 1 (set_crt (Some 0%nat)
             (set_tree_top [Some (leaf "2.500000"); Some (leaf "a"); None] outer_table)))) in
  assignop g = 0 /\ idcheck g = 1 /\ crt g = Some 0%nat /\
  first g !! 0%nat = Some t /\
  0 <= sym_dtype t <= 2 /\
  tree_top g = [Some (leaf "2.500000"); Some (leaf "a"); None] /\
  exists g',
    yyaction yyvsp 42 Yundef g = Some (inl Yundef, g') /\
    first g' = [sym "a" 0 0 1 (Vi 2)] /\
    tree_top g' = [Some (binary "=" (leaf "a") (leaf "2.500000")); None] /\
    stdout g' = warning_text 1 float_to_int /\
    crt g' = None /\ assignop g' = -1 /\ assigntype g' = -1.
Proof.
  intros half yyvsp t g.
  assert (H1 : assignop g = 0) by reflexivity.
  assert (H2 : idcheck g = 1) by reflexivity.
  assert (H3 : crt g = Some 0%nat) by reflexivity.
  assert (H4 : first g !! 0%nat = Some t) by reflexivity.
  assert (H5 : 0 <= sym_dtype t <= 2) by (cbn; lia).
  assert (H6 : tree_top g = [Some (leaf "2.500000"); Some (leaf "a"); None]) by reflexivity.
  repeat (split; [assumption|]).
  exact (assignment_stores_the_converted_value yyvsp Yundef g 0 t _ _ _ H1 H2 H3 H4 H5 H6).
Defined.

Lemma reduce_55_int p t i g :
  first g !! p = Some t -> sym_dtype t = 0 -> sym_val t = Vi i ->
  yyaction (stack_of [Yptr p]) 55 Yundef g
  = Some (inl (Yfval (F32.of_Z i)),
          set_tree_top (Some (leaf (sym_name t)) :: tree_top g)
            (set_assigntype 0 (set_lhs (Some p) (set_idcheck 1 g)))).
Proof.
  intros Hp Hty Hv. globals g.
  cbn [yyaction stack_of nth yy_ptr need]. run.
  rewrite (run_deref p t) by exact Hp. run. rewrite Hty, Hv. cbn [Z.eqb andb]. now run.
Qed.

(** X19.  What an assignment stores, a later use of the variable reads:
    after [a = e] for an [int] variable [a], the action of the name [a] in
    an expression (rule 55) yields the value of [e] cut down to its
    integer part, pushes the leaf of [a] and records [int] as the type of
    the operand. *)
Theorem assigned_int_is_read_back_truncated
    (yyvsp : nat -> YYSTYPE) (yyval : YYSTYPE) (g : globals)
    (p : nat) (t : node) (r l : option Node) (rest : tree_stack) (f : float) (z : Z) :
  assignop g = 0 -> idcheck g = 1 -> crt g = Some p ->
  first g !! p = Some t -> sym_dtype t = 0 ->
  tree_top g = r :: l :: rest ->
  yy_fval (yyvsp 0%nat) = Some f -> F32.trunc f = Some z ->
  exists g1 g2,
    yyaction yyvsp 42 yyval g = Some (inl yyval, g1) /\
    yyaction (stack_of [Yptr p]) 55 Yundef g1 = Some (inl (Yfval (F32.of_Z z)), g2) /\
    tree_top g2 = Some (leaf (sym_name t)) :: Some (mkNode l r None None "=" 0) :: rest /\
    assigntype g2 = 0 /\
    first g2 = <[p := set_val (Vi z) t]> (first g).
Proof.
  intros Hop Hid Hcrt Hp Hty Htop Hf Hz. record g. subst.
  destruct (g_assigntype =? 1) eqn:Ea; eexists _, _.
  all: split;
    [ cbn [yyaction]; run; cbn [Z.eqb]; unfold assign; run; cbn [Z.eqb Pos.eqb];
      run; rewrite (run_binary "=" _ _ r l rest) by reflexivity; run; cbn [need]; run;
      rewrite (run_deref p t) by exact Hp; run; rewrite Hty; cbn [Z.eqb];
      unfold ifval, fval; rewrite Hf; cbn [mbind option_bind]; rewrite Hz, Ea;
      cbn [when]; run; rewrite (run_update p t) by exact Hp; run; reflexivity
    | rewrite (reduce_55_int p (set_val (Vi z) t) z);
      [ split; [reflexivity|]; proj; now repeat split
      | proj; apply list_lookup_insert_eq; eapply lookup_lt_Some; eauto
      | exact Hty
      | reflexivity ] ].
Qed.

Lemma assigned_int_is_read_back_truncated_witness :
  let half := F32.div (F32.of_Z 5) (F32.of_Z 2) in
  let yyvsp := fun k : nat => match k with O => Yfval half | _ => Yundef end in
  let t := sym "a" 0 0 1 (Vi 5) in
  let g := set_assigntype 1 (set_assignop 0 (set_idcheck 1 (set_crt (Some 0%nat)
             (set_tree_top [Some (leaf "2.500000"); Some (leaf "a"); None] outer_table)))) in
  assignop g = 0 /\ idcheck g = 1 /\ crt g = Some 0%nat /\
  first g !! 0%nat = Some t /\ sym_dtype t = 0 /\
  tree_top g = [Some (leaf "2.500000"); Some (leaf "a"); None] /\
  yy_fval (yyvsp 0%nat) = Some half /\ F32.trunc half = Some 2 /\
  exists g1 g2,
    yyaction yyvsp 42 Yundef g = Some (inl Yundef, g1) /\
    yyaction (stack_of [Yptr 0]) 55 Yundef g1 = Some (inl (Yfval (F32.of_Z 2)), g2) /\
    tree_top g2 = [Some (leaf "a"); Some (binary "=" (leaf "a") (leaf "2.500000")); None] /\
    assigntype g2 = 0 /\
    first g2 = [sym "a" 0 0 1 (Vi 2)].
Proof.
  intros half yyvsp t g.
  assert (H1 : assignop g = 0) by reflexivity.
  assert (H2 : idcheck g = 1) by reflexivity.
  assert (H3 : crt g = Some 0%nat) by reflexivity.
  assert (H4 : first g !! 0%nat = Some t) by reflexivity.
  assert (H5 : sym_dtype t = 0) by reflexivity.
  assert (H6 : tree_top g = [Some (leaf "2.500000"); Some (leaf "a"); None]) by reflexivity.
  assert (H7 : yy_fval (yyvsp 0%nat) = Some half) by reflexivity.
  assert (H8 : F32.trunc half = Some 2) by reflexivity.
  repeat (split; [assumption|]).
  exact (assigned_int_is_read_back_truncated yyvsp Yundef g 0 t _ _ _ half 2
           H1 H2 H3 H4 H5 H6 H7 H8).
Defined.

(** ** Unary operators *)

(** X20.  The node of a unary operator (rule 64) is built with
    [create_node(label, 0)], as a binary node: the node of the operand,
    on top of the tree stack, becomes its right child, and the node below
    it, which belongs to what was parsed before the operator, is taken
    off the stack too and becomes its left child.  The action ends with
    [unaryop] reset to -1; for a value of [unaryop] that stands for no
    operator it builds nothing. *)
Theorem unary_operator_node_takes_two_nodes
    (yyvsp : nat -> YYSTYPE) (yyval : YYSTYPE) (g : globals)
    (r l : option Node) (rest : tree_stack) :
  tree_top g = r :: l :: rest ->
  exists v,
    yyaction yyvsp 64 yyval g
    = Some (inl v,
            set_unaryop (-1)
              (match unary_label (unaryop g) with
               | Some label => set_tree_top (Some (mkNode l r None None label 0) :: rest) g
               | None => g
               end)).
Proof.
  intros Htop. record g. subst. cbn [yyaction]. unfold unary_label. run.
  repeat (destruct (_ =? _);
    [ run; rewrite (run_binary _ _ _ r l rest) by reflexivity; run;
      eexists; reflexivity |]).
  run. eexists. reflexivity.
Qed.

Lemma unary_operator_node_takes_two_nodes_witness :
  let yyvsp := fun k : nat => match k with O => Yfval (F32.of_Z 3) | _ => Yundef end in
  let g := set_unaryop 2
             (set_tree_top [Some (leaf "3"); Some (leaf "x"); None] (init_globals [])) in
  tree_top g = [Some (leaf "3"); Some (leaf "x"); None] /\
  exists v,
    yyaction yyvsp 64 Yundef g
    = Some (inl v,
            set_unaryop (-1)
              (set_tree_top [Some (binary "'-'" (leaf "x") (leaf "3")); None] g)).
Proof.
  intros yyvsp g.
  assert (H : tree_top g = [Some (leaf "3"); Some (leaf "x"); None]) by reflexivity.
  exact (conj H (unary_operator_node_takes_two_nodes yyvsp Yundef g _ _ _ H)).
Defined.

(** ** Functions, conditional expressions and loops *)

Lemma close_entry_param sc t :
  sym_valid t = 1 -> sym_token t = "param" -> sym_valid (close_entry true sc t) = 0.
Proof.
  intros Hv Ht. unfold close_entry. rewrite Hv, Ht. cbn [Z.eqb Pos.eqb String.eqb].
  rewrite andb_true_r. now destruct (sym_scope t =? sc).
Qed.

Lemma close_entry_current params sc t :
  sym_valid t = 1 -> sym_scope t = sc -> sym_valid (close_entry params sc t) = 0.
Proof.
  intros Hv Hs. unfold close_entry. now rewrite Hv, Hs, Z.eqb_refl.
Qed.

Lemma close_entry_other sc t :
  sym_scope t <> sc -> sym_token t <> "param" -> close_entry true sc t = t.
Proof.
  intros Hs Ht. unfold close_entry.
  destruct (Z.eqb_spec (sym_scope t) sc); [contradiction|].
  destruct (String.eqb_spec (sym_token t) "param"); [contradiction|]. reflexivity.
Qed.

(** X21.  The action at the end of a function definition (rule 86)
    wraps the node on top of the tree stack, the body, in a node that is
    labelled with the name of the function and has the body for its only
    child.  It invalidates the valid symbols of the current scope and the
    valid parameters, of whatever scope, keeps every typed symbol that is
    neither, and lowers [scope] by one. *)
Theorem function_end_wraps_the_body_and_closes_the_parameters
    (yyvsp : nat -> YYSTYPE) (yyval : YYSTYPE) (g : globals)
    (name : string) (body : option Node) (rest : tree_stack) :
  yy_string (yyvsp 1%nat) = Some name ->
  tree_top g = body :: rest ->
  exists g',
    yyaction yyvsp 86 yyval g = Some (inl yyval, g') /\
    tree_top g' = Some (mkNode body None None None name 0) :: rest /\
    scope g' = scope g - 1 /\
    stdout g' = stdout g /\
    length (first g') = length (first g) /\
    (forall i t, first g !! i = Some t -> sym_valid t = 1 ->
       sym_scope t = scope g \/ sym_token t = "param" ->
       exists t', first g' !! i = Some t' /\ sym_valid t' = 0 /\ sym_name t' = sym_name t) /\
    (forall i t, first g !! i = Some t ->
       sym_scope t <> scope g -> sym_token t <> "param" -> first g' !! i = Some t).
Proof.
  intros Hname Htop. record g. subst. cbn [yyaction]. rewrite Hname. cbn [need]. run.
  unfold bind at 1. rewrite (create_node_unary name 3 _ body rest) by (cbn; congruence).
  unfold close_scope. run.
  eexists. split; [reflexivity|]. proj. repeat (split; [reflexivity|]).
  split; [apply length_map|]. split.
  - intros i t Hi Hv Hor. exists (close_entry true g_scope t).
    split; [change (map ?f ?l) with (f <$> l); now rewrite list_lookup_fmap, Hi|].
    split; [|now destruct (close_entry_fields true g_scope t) as (_ & ? & _)].
    destruct Hor; [now apply close_entry_current|now apply close_entry_param].
  - intros i t Hi Hs Ht. change (map ?f ?l) with (f <$> l).
    rewrite list_lookup_fmap, Hi. cbn. now rewrite close_entry_other.
Qed.

Lemma function_end_wraps_the_body_and_closes_the_parameters_witness :
  let yyvsp := fun k : nat => match k with 1%nat => Ystring "f" | _ => Yundef end in
  let param := {| sym_token := "param"; sym_name := "n"; sym_dtype := 0; sym_scope := 0;
                  sym_lineno := 1; sym_valid := 1; sym_val := Vi 0 |} in
  let g := set_scope 1 (set_tree_top [Some (leaf "body"); None]
             (set_first [param; sym "a" 0 1 1 (Vi 5)] (init_globals []))) in
  yy_string (yyvsp 1%nat) = Some "f" /\
  tree_top g = [Some (leaf "body"); None] /\
  exists g',
    yyaction yyvsp 86 Yundef g = Some (inl Yundef, g') /\
    tree_top g' = [Some (mkNode (Some (leaf "body")) None None None "f" 0); None] /\
    scope g' = scope g - 1 /\
    stdout g' = stdout g /\
    length (first g') = length (first g) /\
    (forall i t, first g !! i = Some t -> sym_valid t = 1 ->
       sym_scope t = scope g \/ sym_token t = "param" ->
       exists t', first g' !! i = Some t' /\ sym_valid t' = 0 /\ sym_name t' = sym_name t) /\
    (forall i t, first g !! i = Some t ->
       sym_scope t <> scope g -> sym_token t <> "param" -> first g' !! i = Some t).
Proof.
  intros yyvsp param g.
  assert (H1 : yy_string (yyvsp 1%nat) = Some "f") by reflexivity.
  assert (H2 : tree_top g = [Some (leaf "body"); None]) by reflexivity.
  exact (conj H1 (conj H2
    (function_end_wraps_the_body_and_closes_the_parameters yyvsp Yundef g "f" _ _ H1 H2))).
Defined.

(** X22.  The action of [c ? a : b] (rule 50) takes the three nodes on
    top of the tree stack and pushes an ["if"] node with the condition,
    the first and the second alternative as its first three children.
    The value of the expression is the value of [a] only when the value of
    [c] is exactly 1; for every other value of [c], the non-zero ones
    included, it is the value of [b]. *)
Theorem conditional_takes_the_first_alternative_only_for_one
    (yyvsp : nat -> YYSTYPE) (yyval : YYSTYPE) (g : globals)
    (c a b : float) (else_expr then_expr cond : option Node) (rest : tree_stack) :
  yy_fval (yyvsp 4%nat) = Some c ->
  yy_fval (yyvsp 2%nat) = Some a ->
  yy_fval (yyvsp 0%nat) = Some b ->
  tree_top g = else_expr :: then_expr :: cond :: rest ->
  yyaction yyvsp 50 yyval g
  = Some (inl (Yfval (if F32.eqb c F32.one then a else b)),
          set_tree_top (Some (mkNode cond then_expr else_expr None "if" 0) :: rest) g).
Proof.
  intros Hc Ha Hb Htop. record g. subst. cbn [yyaction]. unfold pop_tree, push_tree. run.
  unfold fval. rewrite Hc, Ha, Hb. cbn [mbind option_bind].
  now destruct (F32.eqb c F32.one).
Qed.

Lemma conditional_takes_the_first_alternative_only_for_one_witness :
  let yyvsp := fun k : nat =>
    match k with
    | 4%nat => Yfval (F32.of_Z 2) | 2%nat => Yfval (F32.of_Z 10) | _ => Yfval (F32.of_Z 20)
    end in
  let g := set_tree_top [Some (leaf "20"); Some (leaf "10"); Some (leaf "2"); None]
             (init_globals []) in
  yy_fval (yyvsp 4%nat) = Some (F32.of_Z 2) /\
  yy_fval (yyvsp 2%nat) = Some (F32.of_Z 10) /\
  yy_fval (yyvsp 0%nat) = Some (F32.of_Z 20) /\
  tree_top g = [Some (leaf "20"); Some (leaf "10"); Some (leaf "2"); None] /\
  yyaction yyvsp 50 Yundef g
  = Some (inl (Yfval (F32.of_Z 20)),
          set_tree_top
            [Some (mkNode (Some (leaf "2")) (Some (leaf "10")) (Some (leaf "20")) None "if" 0);
             None] g).
Proof.
  intros yyvsp g.
  assert (H1 : yy_fval (yyvsp 4%nat) = Some (F32.of_Z 2)) by reflexivity.
  assert (H2 : yy_fval (yyvsp 2%nat) = Some (F32.of_Z 10)) by reflexivity.
  assert (H3 : yy_fval (yyvsp 0%nat) = Some (F32.of_Z 20)) by reflexivity.
  assert (H4 : tree_top g = [Some (leaf "20"); Some (leaf "10"); Some (leaf "2"); None])
    by reflexivity.
  repeat (split; [assumption|]).
  exact (conditional_takes_the_first_alternative_only_for_one
           yyvsp Yundef g _ _ _ _ _ _ _ H1 H2 H3 H4).
Defined.

(** X23.  The action of a [for] statement (rule 29) takes four cells off
    the tree stack, the body on top, then the increment, the condition and
    the initialisation, and pushes one ["for"] node with them as its four
    children; with fewer than four cells on the stack it does not return.
    [preorder] prints the node as [( for init cond incr body )], the
    children in the order in which the statement has them. *)
Theorem for_node_takes_four_nodes_and_prints_them_in_source_order
    (yyvsp : nat -> YYSTYPE) (yyval : YYSTYPE) (g : globals) :
  match tree_top g with
  | body :: incr :: cond :: init :: rest =>
      yyaction yyvsp 29 yyval g
      = Some (inl yyval, set_tree_top (Some (mkNode init cond incr body "for" 0) :: rest) g) /\
      serialize (mkNode init cond incr body "for" 0)
      = (if is_some init || is_some cond || is_some incr || is_some body
         then serialize_node "for" init cond incr body
         else "for ")
  | _ => yyaction yyvsp 29 yyval g = None
  end.
Proof.
  record g. destruct g_tree_top as [|body [|incr [|cond [|init rest]]]]; try reflexivity.
  split; [reflexivity|]. unfold serialize_node.
  destruct init, cond, incr, body; cbn; rewrite ?append_nil_r; reflexivity.
Qed.

(** ** Blocks of statements *)

Lemma block_items_chain items : forall n g,
  tree_top g = Some n :: List.tl (tree_top g) ->
  block_items items g
  = Some (tt, set_tree_top (Some (statements n items) :: List.tl (tree_top g)) g).
Proof.
  induction items as [|m items IH]; intros n g Hg.
  - cbn. record g. cbn in Hg. now rewrite <- Hg.
  - cbn [block_items statements fold_left]. unfold push_tree at 1. rewrite run_modify.
    unfold reduce at 1. cbn [yyaction]. run.
    rewrite (run_binary "stmt" _ _ (Some m) (Some n) (List.tl (tree_top g)))
      by (record g; cbn in *; now rewrite Hg at 1).
    run. rewrite (IH (binary "stmt" n m)) by now record g.
    f_equal. f_equal. now record g.
Qed.

(** X24.  The items of a block become a chain of ["stmt"] nodes that
    leans to the left: with the node of the first item on the tree stack,
    each further item, once its node is pushed and the action of rule 14
    has run, is the right child of a new ["stmt"] node over all the items
    before it.  One node stands for the block in the end, and the first
    item is the deepest. *)
Theorem block_items_become_a_left_leaning_chain
    (n : Node) (items : list Node) (g : globals) :
  (push_tree n ;;; block_items items) g
  = Some (tt, set_tree_top (Some (statements n items) :: tree_top g) g) /\
  (forall m, statements n (items ++ [m]) = binary "stmt" (statements n items) m) /\
  (forall a b, serialize (statements n [a; b])
   = " ( stmt  ( stmt " +:+ serialize n +:+ serialize a +:+ ") " +:+ serialize b +:+ ") ").
Proof.
  split; [|split].
  - unfold push_tree. rewrite run_modify.
    rewrite (block_items_chain items n) by now record g.
    f_equal. f_equal. now record g.
  - intros m. unfold statements. now rewrite fold_left_app.
  - intros a b. cbn. now rewrite !append_assoc.
Qed.

(** ** Scopes (C5) *)


















(** The events of an assignment are what the parser does: from the state
    in which it has read [int main() {], the events of
    [int a = 5; { int a = 6; a = 7;] lead to the table, the scope, the
    tree stack and the output that the parser itself arrives at. *)
Lemma assignment_events_agree_with_parser :
  observe table_view
    ((main_rounds 10 ;;;
      run_block_events [Scoped (DeclareInit 0 "a" 5); Scoped BlockOpen;
                        Scoped (DeclareInit 0 "a" 6); Assign "a" 7])
       (init_globals inner_assignment_program))
  = observe table_view (main_rounds 74 (init_globals inner_assignment_program)).
Proof. vm_compute. reflexivity. Qed.





(** ** The order of the table *)

Lemma scope_ordered_transfer name g g' :
  (forall i t', first g' !! i = Some t' -> visible name t' = true ->
     exists t, first g !! i = Some t /\ visible name t = true /\
               sym_scope t = sym_scope t' /\ sym_scope t' <= scope g') ->
  scope_ordered name g -> scope_ordered name g'.
Proof.
  intros H Hord i j ti tj Hij Hi Hj Hvi Hvj.
  destruct (H i ti Hi Hvi) as (ui & Hui & Hvui & Esi & _).
  destruct (H j tj Hj Hvj) as (uj & Huj & Hvuj & Esj & Hbound).
  destruct (Hord i j ui uj Hij Hui Huj Hvui Hvuj) as [Hle _]. lia.
Qed.

Lemma ordered_same g g' :
  first g' = first g -> scope g' = scope g -> ordered g -> ordered g'.
Proof.
  intros Ef Es Hord name. apply (scope_ordered_transfer name g); [|apply Hord].
  intros i t' Hi Hv. rewrite Ef in Hi. exists t'. rewrite Es.
  repeat (split; [assumption || reflexivity|]).
  now destruct (Hord name i i t' t' (le_n _) Hi Hi Hv Hv).
Qed.

Lemma ordered_append g g' n :
  first g' = first g ++ [n] -> scope g' = scope g -> sym_scope n = scope g ->
  ordered g -> ordered g'.
Proof.
  intros Ef Es Hn Hord name i j ti tj Hij Hi Hj Hvi Hvj. rewrite Ef in Hi, Hj. rewrite Es.
  apply lookup_snoc_Some in Hi as [[Hi Hti]|[Hi <-]];
    apply lookup_snoc_Some in Hj as [[Hj Htj]|[Hj <-]].
  - exact (Hord name i j ti tj Hij Hti Htj Hvi Hvj).
  - destruct (Hord name i i ti ti (le_n _) Hti Hti Hvi Hvi). lia.
  - lia.
  - lia.
Qed.

Lemma ordered_insert g g' p n x :
  first g !! p = Some n -> first g' = <[p := x]> (first g) -> scope g' = scope g ->
  sym_name x = sym_name n -> sym_scope x = sym_scope n -> sym_valid x = sym_valid n ->
  ordered g -> ordered g'.
Proof.
  intros Hp Ef Es En Esc Ev Hord name. apply (scope_ordered_transfer name g); [|apply Hord].
  intros i t' Hi Hv. rewrite Ef in Hi. rewrite Es.
  assert (Hlt : (p < length (first g))%nat) by (eapply lookup_lt_Some; eauto).
  destruct (decide (p = i)) as [->|Hne].
  - rewrite list_lookup_insert_eq in Hi by exact Hlt. injection Hi as <-.
    assert (Hvn : visible name n = true) by (unfold visible in *; now rewrite <- En, <- Ev).
    exists n. split; [exact Hp|]. split; [exact Hvn|]. split; [now symmetry|].
    destruct (Hord name i i n n (le_n _) Hp Hp Hvn Hvn). lia.
  - rewrite list_lookup_insert_ne in Hi by exact Hne. exists t'.
    repeat (split; [assumption || reflexivity|]).
    now destruct (Hord name i i t' t' (le_n _) Hi Hi Hv Hv).
Qed.

Lemma ordered_close g g' :
  first g' = close_entry false (scope g) <$> first g -> scope g' = scope g - 1 ->
  ordered g -> ordered g'.
Proof.
  intros Ef Es Hord name. apply (scope_ordered_transfer name g); [|apply Hord].
  intros i t' Hi Hv. rewrite Ef, list_lookup_fmap in Hi.
  destruct (first g !! i) as [t|] eqn:Ht; [|discriminate]. injection Hi as <-.
  pose proof (visible_close_entry name false (scope g) t Hv) as Hvt.
  destruct (Hord name i i t t (le_n _) Ht Ht Hvt Hvt) as [_ Hle].
  destruct (Z.eq_dec (sym_scope t) (scope g)) as [E|E].
  - exfalso. apply visible_name in Hv as [_ Hv]. now apply (close_entry_closed _ t E).
  - rewrite (close_entry_scope _ t E) in *. exists t. rewrite Es.
    repeat (split; [assumption || reflexivity|]). lia.
Qed.

Section Order.

#[local] Abbreviation keep := (preserves ordered).

Lemma keep_ret {A} (a : A) : keep (ret a).
Proof. intros g b g' H [= <- <-]. exact H. Qed.

Lemma keep_bind {A B} (m : M A) (k : A -> M B) :
keep m -> (forall a, keep (k a)) -> keep (bind m k).
Proof. intros Hm Hk. eapply hoare_bind; [apply Hm|]. intros a. apply Hk. Qed.

Lemma keep_crash {A} : keep (@crash A).
Proof. apply hoare_crash. Qed.

Lemma keep_need {A} (o : option A) : keep (need o).
Proof. destruct o; [apply keep_ret|apply keep_crash]. Qed.

Lemma keep_gets {A} (f : globals -> A) : keep (gets f).
Proof. intros g a g' H [= <- <-]. exact H. Qed.

Lemma keep_modify (f : globals -> globals) :
(forall g, first (f g) = first g /\ scope (f g) = scope g) -> keep (modify f).
Proof.
intros Hf g [] g' H [= <-]. destruct (Hf g) as [E1 E2]. now apply (ordered_same g).
Qed.

Lemma keep_when (b : bool) (m : M unit) : keep m -> keep (when b m).
Proof. destruct b; cbn; [auto|]. intros _. apply keep_ret. Qed.

Lemma keep_printf s : keep (printf s).
Proof. apply keep_modify. intros g. now globals g. Qed.

Ltac keep_with prim :=
repeat first
  [ prim
  | lazymatch goal with
    | |- preserves _ (bind _ _) => apply keep_bind; [|intro]
    | |- preserves _ (ret _) => apply keep_ret
    | |- preserves _ crash => apply keep_crash
    | |- preserves _ (need _) => apply keep_need
    | |- preserves _ (gets _) => apply keep_gets
    | |- preserves _ (printf _) => apply keep_printf
    | |- preserves _ (when _ _) => apply keep_when
    | |- preserves _ (modify _) =>
        apply keep_modify; let g := fresh "g" in intros g; now globals g
    | |- preserves _ (if ?b then _ else _) => destruct b
    | |- preserves _ (match ?o with _ => _ end) => destruct o
    end ].

Lemma keep_warning s : keep (warning s).
Proof. unfold warning. keep_with fail. Qed.

Lemma keep_error s : keep (error s).
Proof. unfold error. keep_with fail. Qed.

Lemma keep_create_node tok leaf : keep (create_node tok leaf).
Proof. unfold create_node, pop_tree, push_tree. keep_with fail. Qed.

Lemma keep_deref p : keep (deref p).
Proof. unfold deref. keep_with fail. Qed.

Lemma keep_typing p (f : node -> node) :
(forall n, sym_name (f n) = sym_name n /\ sym_scope (f n) = sym_scope n
           /\ sym_valid (f n) = sym_valid n) ->
keep (n <- deref p ;; when (sym_dtype n =? -1) (update p f)).
Proof.
intros Hf g [] g' Hord H.
apply bind_inv in H as (n & g1 & [-> Hn]%deref_inv & H).
destruct (sym_dtype n =? -1); cbn in H.
- rewrite (update_Some _ _ _ _ Hn) in H. injection H as <-.
  destruct (Hf n) as (E1 & E2 & E3).
  apply (ordered_insert g _ p n (f n)); auto; now globals g.
- now injection H as <-.
Qed.

Lemma keep_addInt p ty v : keep (addInt p ty v).
Proof. apply keep_typing. now intros n. Qed.

Lemma keep_addFloat p ty v : keep (addFloat p ty v).
Proof. apply keep_typing. now intros n. Qed.

Lemma keep_addChar p ty v : keep (addChar p ty v).
Proof. apply keep_typing. now intros n. Qed.

Lemma keep_shadow n : keep (shadow n).
Proof.
intros g a g' Hord [= <- <-].
apply (ordered_append g _ (new_symbol n g)); auto; now globals g.
Qed.

Lemma keep_checksym n : keep (checksym n).
Proof.
intros g a g' Hord. rewrite checksym_resolution. unfold resolution.
destruct (first_visible n (first g)) as [[j tj]|]; intros [= <- <-].
- apply (ordered_same g); auto; now globals g.
- apply (ordered_append g _ (new_symbol n g)); auto; now globals g.
Qed.

Lemma keep_declare_init yyvsp p : keep (declare_init yyvsp p).
Proof.
unfold declare_init.
keep_with ltac:(first [ apply keep_addInt | apply keep_addFloat
                      | apply keep_addChar | apply keep_warning ]).
Qed.

Lemma keep_declare_plain p : keep (declare_plain p).
Proof.
unfold declare_plain.
keep_with ltac:(first [ apply keep_addInt | apply keep_addFloat | apply keep_addChar ]).
Qed.

Lemma keep_close_scope : keep (close_scope false).
Proof.
intros g [] g' Hord [= <-]. apply (ordered_close g); auto; now globals g.
Qed.

Lemma keep_reduce yyn vs :
yyn ∈ [23; 33; 37; 38; 39; 55; 56] -> keep (reduce yyn vs).
Proof.
intros H. unfold reduce.
repeat (apply elem_of_cons in H as [->|H]); [..|now apply elem_of_nil in H];
  cbn [yyaction];
  keep_with ltac:(first
    [ apply keep_create_node | apply keep_deref | apply keep_error
    | apply keep_warning | apply keep_shadow | apply keep_checksym
    | apply keep_declare_init | apply keep_declare_plain | apply keep_close_scope ]).
Qed.

Lemma keep_event e : keep (run_event e).
Proof.
destruct e; cbn [run_event].
- intros g [] g' Hord [= <-] name i j ti tj Hij Hi Hj Hvi Hvj.
  replace (first _) with (first g) in Hi, Hj by now globals g.
  replace (scope _) with (scope g + 1) by now globals g.
  destruct (Hord name i j ti tj Hij Hi Hj Hvi Hvj). lia.
- apply keep_reduce. repeat constructor.
- keep_with ltac:(first [ apply keep_checksym | apply keep_reduce; repeat constructor ]).
- keep_with ltac:(first [ apply keep_checksym | apply keep_reduce; repeat constructor ]).
- keep_with ltac:(first [ apply keep_checksym | apply keep_reduce; repeat constructor ]).
Qed.

Lemma keep_events es : keep (run_events es).
Proof.
induction es as [|e es IH]; cbn [run_events]; [apply keep_ret|].
apply keep_bind; [apply keep_event|intros _; exact IH].
Qed.

End Order.

(** ** The precedence of the scopes (C4) *)

(** C4.  In every state that blocks, declarations and uses of names lead
    to from a table in which the valid symbols of every name lie in the
    order of their scopes, none deeper than the current scope (the empty
    table that [main] starts from is one), [checksym] decides for a name
    that fits the name field among its four outcomes in the precedence of
    the specification.  First, when a valid symbol of the name with a
    scope strictly outer than the current one exists, the first of these
    is returned and the inherited flag [check_un] is set; nothing is
    allocated.  Second, when none does and a valid symbol of the current
    scope exists, that one is returned and nothing is allocated.  Third,
    when neither does and the table holds an invalid symbol of the name
    from a strictly inner scope, the name is taken for a new one: a new
    untyped symbol of the current scope is appended and returned, with
    the flag cleared.  Fourth, with no match at all, a new untyped symbol
    of the current scope is appended and returned. *)
Theorem checksym_decides_in_the_precedence_of_the_scopes
    (es : list scope_event) (g0 g : globals) (name : string) :
  ordered g0 ->
  run_events es g0 = Some (tt, g) ->
  fits name ->
  exists p g',
    checksym name g = Some (p, g') /\
    match resolveOrDeclare_outcome name g with
    | Inherited i =>
        p = i /\ first g' = first g /\ check_un g' = 1 /\
        exists t, first g !! i = Some t /\
                  sym_name t = name /\ sym_valid t = 1 /\ sym_scope t < scope g
    | Current i =>
        p = i /\ first g' = first g /\
        check_un g' = flag_after name (scope g) (check_un g) (take i (first g)) /\
        exists t, first g !! i = Some t /\
                  sym_name t = name /\ sym_valid t = 1 /\ sym_scope t = scope g
    | Reopened =>
        p = length (first g) /\ first g' = first g ++ [new_symbol name g] /\
        check_un g' = 0
    | Unknown =>
        p = length (first g) /\ first g' = first g ++ [new_symbol name g] /\
        check_un g' = check_un g
    end.
Proof.
  intros Hord E _. apply precedence_in_order.
  exact (keep_events es g0 tt g Hord E name).
Qed.

Lemma checksym_decides_in_the_precedence_of_the_scopes_witness :
  let es := [DeclareInit 0 "a" 5; BlockOpen; DeclareInit 0 "a" 6] in
  let g := default (init_globals []) (snd <$> run_events es (init_globals [])) in
  ordered (init_globals []) /\
  run_events es (init_globals []) = Some (tt, g) /\
  fits "a" /\
  resolveOrDeclare_outcome "a" g = Inherited 0 /\
  exists p g',
    checksym "a" g = Some (p, g') /\
    match resolveOrDeclare_outcome "a" g with
    | Inherited i =>
        p = i /\ first g' = first g /\ check_un g' = 1 /\
        exists t, first g !! i = Some t /\
                  sym_name t = "a" /\ sym_valid t = 1 /\ sym_scope t < scope g
    | Current i =>
        p = i /\ first g' = first g /\
        check_un g' = flag_after "a" (scope g) (check_un g) (take i (first g)) /\
        exists t, first g !! i = Some t /\
                  sym_name t = "a" /\ sym_valid t = 1 /\ sym_scope t = scope g
    | Reopened =>
        p = length (first g) /\ first g' = first g ++ [new_symbol "a" g] /\
        check_un g' = 0
    | Unknown =>
        p = length (first g) /\ first g' = first g ++ [new_symbol "a" g] /\
        check_un g' = check_un g
    end.
Proof.
  intros es g.
  assert (H1 : ordered (init_globals [])).
  { intros name i j ti tj _ Hi. cbn in Hi. now rewrite lookup_nil in Hi. }
  assert (H2 : run_events es (init_globals []) = Some (tt, g)) by (vm_compute; reflexivity).
  assert (H3 : fits "a") by (unfold fits; cbn; lia).
  assert (H4 : resolveOrDeclare_outcome "a" g = Inherited 0) by (vm_compute; reflexivity).
  exact (conj H1 (conj H2 (conj H3 (conj H4
    (checksym_decides_in_the_precedence_of_the_scopes es (init_globals []) g "a" H1 H2 H3))))).
Defined.



(** * The lexical analyser *)

(** ** Sets *)

Lemma elem_of_set_insert {A} (compare : A -> A -> comparison) (x y : A) (s : list A) :
  (forall a b, compare a b = Eq -> a = b) ->
  x ∈ Lexical.set_insert compare y s <-> x = y \/ x ∈ s.
Proof.
  intros Heq. induction s as [|z s IH]; cbn [Lexical.set_insert].
  - rewrite list_elem_of_singleton. rewrite elem_of_nil. tauto.
  - destruct (compare y z) eqn:E.
    + apply Heq in E. subst z. rewrite elem_of_cons. tauto.
    + rewrite !elem_of_cons. tauto.
    + rewrite !elem_of_cons, IH. tauto.
Qed.

Lemma elem_of_insert_string x y s :
  x ∈ Lexical.set_insert String.compare y s <-> x = y \/ x ∈ s.
Proof. apply elem_of_set_insert. apply String.compare_eq_iff. Qed.

Lemma elem_of_insert_char x y s :
  x ∈ Lexical.set_insert Ascii.compare y s <-> x = y \/ x ∈ s.
Proof. apply elem_of_set_insert. apply Ascii.compare_eq_iff. Qed.

Lemma count_true ops s : Lexical.count ops s = true -> s ∈ ops.
Proof.
  intros (k & Hk & E)%existsb_exists. apply String.eqb_eq in E. subst k.
  now apply list_elem_of_In.
Qed.

Lemma isKeyword_loop_spec ks buffer :
  (Lexical.isKeyword_loop ks buffer = 1 /\ buffer ∈ ks) \/
  (Lexical.isKeyword_loop ks buffer = 0 /\ buffer ∉ ks).
Proof.
  induction ks as [|k ks IH]; cbn [Lexical.isKeyword_loop].
  - right. split; [reflexivity|apply not_elem_of_nil].
  - destruct (String.eqb_spec k buffer) as [->|Hne].
    + left. split; [reflexivity|apply list_elem_of_here].
    + destruct IH as [[E H]|[E H]]; [left|right]; (split; [exact E|]).
      * now apply list_elem_of_further.
      * rewrite not_elem_of_cons. split; [congruence|exact H].
Qed.

(** [isKeyword] returns 1 for the 32 keywords and 0 for everything
    else. *)
Lemma isKeyword_spec buffer :
  (Lexical.isKeyword buffer = 1 /\ buffer ∈ Lexical.keywords) \/
  (Lexical.isKeyword buffer = 0 /\ buffer ∉ Lexical.keywords).
Proof. apply isKeyword_loop_spec. Qed.

(** ** Words *)

Lemma chars_app a b : Lexical.chars (a +:+ b) = Lexical.chars a ++ Lexical.chars b.
Proof. induction a as [|c a IH]; [reflexivity|]. cbn. now rewrite <- IH. Qed.

Lemma is_word_snoc token ch :
  token = "" \/ Lexical.is_word token -> Lexical.word_char ch = true ->
  Lexical.is_word (token +:+ String ch "").
Proof.
  intros Ht Hc. split.
  - destruct token; discriminate.
  - rewrite chars_app. apply Forall_app. split.
    + destruct Ht as [->|[_ H]]; [constructor|exact H].
    + now repeat constructor.
Qed.

Lemma keywords_start_with_no_digit k :
  k ∈ Lexical.keywords -> exists c rest, k = String c rest /\ Lexical.isdigit c = false.
Proof.
  intros H. unfold Lexical.keywords in H.
  repeat (apply elem_of_cons in H as [->|H]; [eexists _, _; split; reflexivity|]).
  now apply elem_of_nil in H.
Qed.

Lemma classify_classified token w :
  token = "" \/ Lexical.is_word token ->
  Lexical.classified w -> Lexical.classified (Lexical.classify token w).
Proof.
  intros Ht (Hn & Hk & Hi). destruct token as [|c0 rest]; [now split|].
  destruct Ht as [Ht|Ht]; [discriminate|]. cbn [Lexical.classify].
  destruct (Lexical.isdigit c0) eqn:Ed.
  { split; [|now split]. cbn. intros s [->|Hs]%elem_of_insert_string; [|now apply Hn].
    split; [exact Ht|]. now exists c0, rest. }
  destruct (isKeyword_spec (String c0 rest)) as [[E Hin]|[E Hin]]; rewrite E; cbn [Z.eqb negb].
  - split; [exact Hn|]. split; [|exact Hi].
    cbn. intros s [->|Hs]%elem_of_insert_string; [exact Hin|now apply Hk].
  - split; [exact Hn|]. split; [exact Hk|].
    cbn. intros s [->|Hs]%elem_of_insert_string; [|now apply Hi].
    split; [exact Ht|]. split; [exact Hin|]. now exists c0, rest.
Qed.

Lemma words_scan_classified s : forall token w,
  token = "" \/ Lexical.is_word token -> Lexical.classified w ->
  (fst (Lexical.words_scan s token w) = ""
   \/ Lexical.is_word (fst (Lexical.words_scan s token w))) /\
  Lexical.classified (snd (Lexical.words_scan s token w)).
Proof.
  induction s as [|ch s IH]; intros token w Ht Hw; cbn [Lexical.words_scan].
  - now split.
  - destruct (Lexical.word_char ch) eqn:Ec.
    + apply IH; [right; now apply is_word_snoc|exact Hw].
    + apply IH; [now left|now apply classify_classified].
Qed.

Lemma words_of_classified content : Lexical.classified (Lexical.words_of content).
Proof.
  unfold Lexical.words_of.
  pose proof (words_scan_classified content ""
                {| Lexical.keywordsFound := []; Lexical.identifiersFound := [];
                   Lexical.numericalValues := [] |}) as H.
  destruct (Lexical.words_scan content "" _) as [token w]. cbn [fst snd] in H.
  destruct H as [Ht Hw].
  - now left.
  - split; [|split]; intros s Hs; cbn in Hs; now apply elem_of_nil in Hs.
  - now apply classify_classified.
Qed.

(** X26.  The second pass of the analyser sorts the words of the content
    into three sets that have no element in common: a word that begins
    with a digit is a numerical value, whatever follows the digit; of the
    other words, those among the 32 keywords are keywords, and the rest
    are identifiers.  Every element of the sets is a word: a run of
    letters, digits and underscores that is not empty. *)
Theorem words_are_sorted_into_three_disjoint_sets (content : string) :
  let w := Lexical.words_of content in
  (forall s, s ∈ Lexical.numericalValues w ->
     Lexical.is_word s /\ exists c rest, s = String c rest /\ Lexical.isdigit c = true) /\
  (forall s, s ∈ Lexical.keywordsFound w -> s ∈ Lexical.keywords) /\
  (forall s, s ∈ Lexical.identifiersFound w ->
     Lexical.is_word s /\ (s ∉ Lexical.keywords) /\
     exists c rest, s = String c rest /\ Lexical.isdigit c = false) /\
  (forall s, s ∈ Lexical.numericalValues w ->
     (s ∉ Lexical.keywordsFound w) /\ (s ∉ Lexical.identifiersFound w)) /\
  (forall s, s ∈ Lexical.keywordsFound w -> s ∉ Lexical.identifiersFound w).
Proof.
  intros w. destruct (words_of_classified content) as (Hn & Hk & Hi). fold w in Hn, Hk, Hi.
  split; [exact Hn|]. split; [exact Hk|]. split; [exact Hi|]. split.
  - intros s (_ & c & rest & -> & Hd)%Hn. split.
    + intros (c' & rest' & [= <- <-] & Hd')%Hk%keywords_start_with_no_digit. congruence.
    + intros (_ & _ & c' & rest' & [= <- <-] & Hd')%Hi. congruence.
  - intros s Hs (_ & Hnot & _)%Hi. now apply Hnot, Hk.
Qed.

Lemma words_scan_app a : forall b token w,
  Lexical.words_scan (a +:+ b) token w
  = Lexical.words_scan b (fst (Lexical.words_scan a token w))
                         (snd (Lexical.words_scan a token w)).
Proof.
  induction a as [|ch a IH]; intros b token w; [reflexivity|].
  change (String ch a +:+ b) with (String ch (a +:+ b)).
  cbn [Lexical.words_scan]. destruct (Lexical.word_char ch); apply IH.
Qed.

Lemma words_scan_word s : forall token w,
  Forall (fun c => Lexical.word_char c = true) (Lexical.chars s) ->
  Lexical.words_scan s token w = (token +:+ s, w).
Proof.
  induction s as [|ch s IH]; intros token w H; cbn [Lexical.words_scan].
  - now rewrite append_nil_r.
  - cbn in H. apply Forall_cons in H as [Hc Hs]. rewrite Hc, (IH _ _ Hs).
    now rewrite append_assoc.
Qed.

Lemma words_scan_stops_before pre token w :
  Lexical.stops_before pre -> token = "" ->
  fst (Lexical.words_scan pre token w) = "".
Proof.
  intros [->|(p & c & -> & Hc)] ->; [reflexivity|].
  rewrite words_scan_app. cbn [Lexical.words_scan]. now rewrite Hc.
Qed.

Lemma grows_refl w : Lexical.grows w w.
Proof. now repeat split. Qed.

Lemma grows_trans w1 w2 w3 : Lexical.grows w1 w2 -> Lexical.grows w2 w3 -> Lexical.grows w1 w3.
Proof. intros (A1 & A2 & A3) (B1 & B2 & B3). repeat split; auto. Qed.

Lemma classify_grows token w : Lexical.grows w (Lexical.classify token w).
Proof.
  destruct token as [|c0 rest]; [apply grows_refl|]. cbn [Lexical.classify].
  destruct (Lexical.isdigit c0); [|destruct (negb _)];
    repeat split; cbn; intros s Hs; try assumption;
    apply elem_of_insert_string; now right.
Qed.

Lemma words_scan_grows s : forall token w,
  Lexical.grows w (snd (Lexical.words_scan s token w)).
Proof.
  induction s as [|ch s IH]; intros token w; cbn [Lexical.words_scan].
  - apply grows_refl.
  - destruct (Lexical.word_char ch); [apply IH|].
    eapply grows_trans; [apply classify_grows|apply IH].
Qed.

Lemma classify_lists token w :
  token <> "" -> Lexical.listed token (Lexical.classify token w).
Proof.
  destruct token as [|c0 rest]; [congruence|]. intros _. cbn [Lexical.classify].
  unfold Lexical.listed.
  destruct (Lexical.isdigit c0); [|destruct (negb _)]; cbn;
    [left|right; left|right; right]; apply elem_of_insert_string; now left.
Qed.

Lemma listed_grows s w w' : Lexical.grows w w' -> Lexical.listed s w -> Lexical.listed s w'.
Proof. intros (A1 & A2 & A3) [H|[H|H]]; [left|right; left|right; right]; auto. Qed.

(** X27.  The second pass misses no word: a run of letters, digits and
    underscores in the content that is not part of a longer one is in one
    of the three sets at the end.  The pass does not look at comments and
    string literals, so this holds of the words inside them too. *)
Theorem every_word_of_the_content_is_listed (pre word post : string) :
  Lexical.is_word word ->
  Lexical.stops_before pre ->
  Lexical.stops_after post ->
  let w := Lexical.words_of (pre +:+ word +:+ post) in
  word ∈ Lexical.numericalValues w \/
  word ∈ Lexical.keywordsFound w \/
  word ∈ Lexical.identifiersFound w.
Proof.
  intros [Hne Hword] Hpre Hpost w. subst w. unfold Lexical.words_of.
  set (w0 := {| Lexical.keywordsFound := []; Lexical.identifiersFound := [];
                Lexical.numericalValues := [] |}).
  rewrite words_scan_app, (words_scan_stops_before pre "" w0 Hpre eq_refl).
  set (w1 := snd (Lexical.words_scan pre "" w0)).
  rewrite words_scan_app, (words_scan_word word "" w1 Hword). cbn [fst snd].
  change ("" +:+ word) with word.
  destruct Hpost as [->|(c & p & -> & Hc)].
  - cbn [Lexical.words_scan]. now apply classify_lists.
  - cbn [Lexical.words_scan]. rewrite Hc.
    destruct (Lexical.words_scan p "" (Lexical.classify word w1)) as [token w2] eqn:E.
    apply (listed_grows word (Lexical.classify word w1)); [|now apply classify_lists].
    apply (grows_trans _ w2); [|apply classify_grows].
    replace w2 with (snd (Lexical.words_scan p "" (Lexical.classify word w1)))
      by now rewrite E.
    apply words_scan_grows.
Qed.

Lemma every_word_of_the_content_is_listed_witness :
  Lexical.is_word "x1" /\
  Lexical.stops_before "int " /\
  Lexical.stops_after " = 42;" /\
  let w := Lexical.words_of ("int " +:+ "x1" +:+ " = 42;") in
  "x1" ∈ Lexical.numericalValues w \/
  "x1" ∈ Lexical.keywordsFound w \/
  "x1" ∈ Lexical.identifiersFound w.
Proof.
  assert (H1 : Lexical.is_word "x1") by (split; [discriminate|repeat constructor]).
  assert (H2 : Lexical.stops_before "int ").
  { right. exists "int", (Ascii.ascii_of_nat 32). now split. }
  assert (H3 : Lexical.stops_after " = 42;").
  { right. exists (Ascii.ascii_of_nat 32), "= 42;". now split. }
  exact (conj H1 (conj H2 (conj H3
    (every_word_of_the_content_is_listed "int " "x1" " = 42;" H1 H2 H3)))).
Defined.

(** ** Operators *)

Lemma length_advance s : (String.length (Lexical.advance s) <= String.length s)%nat.
Proof. destruct s; cbn; lia. Qed.

Lemma length_skip_line s : (String.length (Lexical.skip_line s) <= String.length s)%nat.
Proof.
  induction s as [|c s IH]; cbn [Lexical.skip_line]; [lia|].
  destruct (Ascii.eqb c Lexical.newline); cbn; lia.
Qed.

Lemma length_skip_block s : (String.length (Lexical.skip_block s) <= String.length s)%nat.
Proof.
  induction s as [|c s IH]; cbn [Lexical.skip_block]; [lia|].
  destruct s as [|c' s']; [cbn; lia|].
  destruct (_ && _); [lia|]. cbn [String.length] in *. lia.
Qed.

Lemma length_skip_string s : forall n,
  (String.length s <= n)%nat -> (String.length (Lexical.skip_string s) <= String.length s)%nat.
Proof.
  intros n. revert s. induction n as [|n IH]; intros s Hn.
  - destruct s; [cbn; lia|cbn in Hn; lia].
  - destruct s as [|c s]; [cbn; lia|]. cbn [Lexical.skip_string].
    destruct (Ascii.eqb c Lexical.quote); [lia|].
    cbn [String.length] in Hn.
    destruct (Ascii.eqb c Lexical.backslash).
    + destruct s as [|c' s']; [cbn; lia|]. cbn [String.length] in *.
      specialize (IH s'). lia.
    + specialize (IH s). cbn [String.length]. lia.
Qed.

Lemma length_operators_round c rest o :
  (String.length (fst (Lexical.operators_round c rest o)) <= String.length rest)%nat.
Proof.
  unfold Lexical.operators_round.
  pose proof (length_skip_string rest _ (le_n _)) as Hs.
  pose proof (length_advance (Lexical.skip_string rest)) as Ha.
  destruct rest as [|c1 rest1].
  - destruct (Ascii.eqb c Lexical.quote); cbn [fst]; [|lia]. exact Ha.
  - pose proof (length_skip_line rest1) as Hl.
    pose proof (length_advance (Lexical.skip_line rest1)) as Hal.
    pose proof (length_skip_block rest1) as Hb.
    pose proof (length_advance (Lexical.skip_block rest1)) as Hab.
    pose proof (length_advance (Lexical.advance (Lexical.skip_block rest1))) as Hab2.
    cbn [String.length] in *.
    destruct (_ && _); [cbn [fst]; lia|].
    destruct (_ && _); [cbn [fst]; lia|].
    destruct (Ascii.eqb c Lexical.quote); [cbn [fst]; lia|].
    destruct (Lexical.isLogicalOperator _); [cbn [fst]; lia|].
    destruct (Lexical.isMathOperator _); cbn [fst String.length]; lia.
Qed.

(** As many rounds as the rest has characters are enough: more rounds
    change nothing. *)
Lemma operators_loop_enough f1 : forall f2 s o,
  (String.length s <= f1)%nat -> (String.length s <= f2)%nat ->
  Lexical.operators_loop f1 s o = Lexical.operators_loop f2 s o.
Proof.
  induction f1 as [|f1 IH]; intros f2 s o H1 H2.
  - destruct s; [|cbn in H1; lia]. now destruct f2.
  - destruct s as [|c rest]; [now destruct f2|].
    destruct f2 as [|f2]; [cbn in H2; lia|]. cbn [Lexical.operators_loop].
    pose proof (length_operators_round c rest o) as Hr.
    destruct (Lexical.operators_round c rest o) as [s' o']. cbn [fst] in Hr.
    cbn [String.length] in H1, H2. apply IH; lia.
Qed.

Lemma operators_from_round c rest o :
  Lexical.operators_from (String c rest) o
  = Lexical.operators_from (fst (Lexical.operators_round c rest o))
                           (snd (Lexical.operators_round c rest o)).
Proof.
  unfold Lexical.operators_from. cbn [String.length Lexical.operators_loop].
  pose proof (length_operators_round c rest o) as Hr.
  destruct (Lexical.operators_round c rest o) as [s' o']. cbn [fst snd] in *.
  apply operators_loop_enough; lia.
Qed.

Lemma skip_line_to_newline line rest :
  Lexical.newline ∉ Lexical.chars line ->
  Lexical.skip_line (line +:+ String Lexical.newline rest) = String Lexical.newline rest.
Proof.
  induction line as [|c line IH]; intros H.
  - reflexivity.
  - cbn in H. apply not_elem_of_cons in H as [Hc Hl].
    change (String c line +:+ String Lexical.newline rest)
      with (String c (line +:+ String Lexical.newline rest)).
    cbn [Lexical.skip_line]. destruct (Ascii.eqb_spec c Lexical.newline); [congruence|].
    now apply IH.
Qed.

Lemma skip_line_to_end line :
  Lexical.newline ∉ Lexical.chars line -> Lexical.skip_line line = "".
Proof.
  induction line as [|c line IH]; intros H; [reflexivity|].
  cbn in H. apply not_elem_of_cons in H as [Hc Hl]. cbn [Lexical.skip_line].
  destruct (Ascii.eqb_spec c Lexical.newline); [congruence|]. now apply IH.
Qed.

Lemma skip_block_to_end body rest :
  (forall a b, body +:+ "*" <> a +:+ "*/" +:+ b) ->
  Lexical.skip_block (body +:+ String Lexical.star (String Lexical.slash rest))
  = String Lexical.star (String Lexical.slash rest).
Proof.
  induction body as [|c body IH]; intros H.
  - reflexivity.
  - change (String c body +:+ String Lexical.star (String Lexical.slash rest))
      with (String c (body +:+ String Lexical.star (String Lexical.slash rest))).
    cbn [Lexical.skip_block].
    assert (Hnext : exists c' s', body +:+ String Lexical.star (String Lexical.slash rest)
                                  = String c' s' /\
                                  exists t, body +:+ "*" = String c' t).
    { destruct body as [|c' body']; [now eexists _, _; split; [reflexivity|exists ""]|].
      eexists _, _. split; [reflexivity|]. now eexists. }
    destruct Hnext as (c' & s' & E & t & Et). rewrite E.
    destruct (Ascii.eqb_spec c Lexical.star) as [->|Hc];
      [destruct (Ascii.eqb_spec c' Lexical.slash) as [->|Hc']|]; cbn [andb].
    + exfalso. apply (H "" t).
      change (String Lexical.star (body +:+ "*") = String Lexical.star (String Lexical.slash t)).
      now rewrite Et.
    + rewrite <- E. apply IH. intros a b Hab. apply (H (String Lexical.star a) b).
      change (String Lexical.star (body +:+ "*") = String Lexical.star (a +:+ "*/" +:+ b)).
      now rewrite Hab.
    + rewrite <- E. apply IH. intros a b Hab. apply (H (String c a) b).
      change (String c (body +:+ "*") = String c (a +:+ "*/" +:+ b)).
      now rewrite Hab.
Qed.

Lemma skip_string_to_quote text rest :
  Lexical.quote ∉ Lexical.chars text -> Lexical.backslash ∉ Lexical.chars text ->
  Lexical.skip_string (text +:+ String Lexical.quote rest) = String Lexical.quote rest.
Proof.
  induction text as [|c text IH]; intros Hq Hb.
  - reflexivity.
  - cbn in Hq, Hb. apply not_elem_of_cons in Hq as [Hq Hq'].
    apply not_elem_of_cons in Hb as [Hb Hb'].
    change (String c text +:+ String Lexical.quote rest)
      with (String c (text +:+ String Lexical.quote rest)).
    cbn [Lexical.skip_string].
    destruct (Ascii.eqb_spec c Lexical.quote); [congruence|].
    destruct (Ascii.eqb_spec c Lexical.backslash); [congruence|]. now apply IH.
Qed.

(** X28.  The first pass steps over comments and string literals: at a
    line comment it goes on after the end of the line, at a block comment
    after the first [*/] that follows the opening, at a double quote after
    the next double quote (when no backslash comes before it), each time
    with the sets as they were; a line comment that no newline ends takes
    the rest of the content.  So no operator or symbol inside them is
    reported. *)
Theorem operator_pass_steps_over_comments_and_string_literals
    (line body text rest : string) (o : Lexical.operators) :
  Lexical.newline ∉ Lexical.chars line ->
  (forall a b, body +:+ "*" <> a +:+ "*/" +:+ b) ->
  Lexical.quote ∉ Lexical.chars text ->
  Lexical.backslash ∉ Lexical.chars text ->
  Lexical.operators_from ("//" +:+ line +:+ NL +:+ rest) o = Lexical.operators_from rest o /\
  Lexical.operators_from ("//" +:+ line) o = o /\
  Lexical.operators_from ("/*" +:+ body +:+ "*/" +:+ rest) o = Lexical.operators_from rest o /\
  Lexical.operators_from (String Lexical.quote (text +:+ String Lexical.quote rest)) o
  = Lexical.operators_from rest o.
Proof.
  intros Hline Hbody Hq Hb. repeat split.
  - change ("//" +:+ line +:+ NL +:+ rest)
      with (String Lexical.slash (String Lexical.slash (line +:+ String Lexical.newline rest))).
    rewrite operators_from_round. cbn [Lexical.operators_round].
    rewrite Ascii.eqb_refl. cbn [andb fst snd].
    now rewrite (skip_line_to_newline line rest Hline).
  - change ("//" +:+ line) with (String Lexical.slash (String Lexical.slash line)).
    rewrite operators_from_round. cbn [Lexical.operators_round].
    rewrite Ascii.eqb_refl. cbn [andb fst snd].
    now rewrite (skip_line_to_end line Hline).
  - change ("/*" +:+ body +:+ "*/" +:+ rest)
      with (String Lexical.slash (String Lexical.star
              (body +:+ String Lexical.star (String Lexical.slash rest)))).
    rewrite operators_from_round. cbn [Lexical.operators_round].
    rewrite Ascii.eqb_refl.
    replace (Ascii.eqb Lexical.star Lexical.slash) with false by reflexivity.
    rewrite Ascii.eqb_refl. cbn [andb fst snd].
    now rewrite (skip_block_to_end body rest Hbody).
  - rewrite operators_from_round. unfold Lexical.operators_round.
    destruct (text +:+ String Lexical.quote rest) as [|c1 rest1] eqn:E.
    { destruct text; discriminate. }
    replace (Ascii.eqb Lexical.quote Lexical.slash) with false by reflexivity.
    rewrite Ascii.eqb_refl. cbn [andb fst snd]. rewrite <- E.
    now rewrite (skip_string_to_quote text rest Hq Hb).
Qed.

Lemma operator_pass_steps_over_comments_and_string_literals_witness :
  let o := {| Lexical.logicalOperators := []; Lexical.mathOperators := [];
              Lexical.others := [] |} in
  (Lexical.newline ∉ Lexical.chars " a<=b") /\
  (forall a b, "a+b" +:+ "*" <> a +:+ "*/" +:+ b) /\
  (Lexical.quote ∉ Lexical.chars "x-y") /\
  (Lexical.backslash ∉ Lexical.chars "x-y") /\
  Lexical.operators_from ("//" +:+ " a<=b" +:+ NL +:+ "z;") o = Lexical.operators_from "z;" o /\
  Lexical.operators_from ("//" +:+ " a<=b") o = o /\
  Lexical.operators_from ("/*" +:+ "a+b" +:+ "*/" +:+ "z;") o = Lexical.operators_from "z;" o /\
  Lexical.operators_from (String Lexical.quote ("x-y" +:+ String Lexical.quote "z;")) o
  = Lexical.operators_from "z;" o.
Proof.
  intros o.
  assert (H1 : Lexical.newline ∉ Lexical.chars " a<=b").
  { intros H. cbn in H. repeat (apply elem_of_cons in H as [H|H]; [discriminate H|]).
    now apply elem_of_nil in H. }
  assert (H2 : forall a b, "a+b" +:+ "*" <> a +:+ "*/" +:+ b).
  { intros a b H. cbn in H.
    repeat (destruct a as [|? a]; [discriminate H|cbn in H; injection H as _ H]).
    destruct a; discriminate H. }
  assert (H3 : Lexical.quote ∉ Lexical.chars "x-y").
  { intros H. cbn in H. repeat (apply elem_of_cons in H as [H|H]; [discriminate H|]).
    now apply elem_of_nil in H. }
  assert (H4 : Lexical.backslash ∉ Lexical.chars "x-y").
  { intros H. cbn in H. repeat (apply elem_of_cons in H as [H|H]; [discriminate H|]).
    now apply elem_of_nil in H. }
  exact (conj H1 (conj H2 (conj H3 (conj H4
    (operator_pass_steps_over_comments_and_string_literals
       " a<=b" "a+b" "x-y" "z;" o H1 H2 H3 H4))))).
Defined.

Lemma find_true c s : Lexical.find c s = true -> c ∈ Lexical.chars s.
Proof.
  induction s as [|c' s IH]; cbn [Lexical.find Lexical.chars]; [discriminate|].
  destruct (Ascii.eqb_spec c c') as [->|Hne]; cbn [orb].
  - intros _. apply list_elem_of_here.
  - intros H. apply list_elem_of_further. now apply IH.
Qed.

Lemma insert_logical_vocabulary s o :
  s ∈ Lexical.logicalOps -> Lexical.vocabulary o ->
  Lexical.vocabulary (Lexical.insert_logical s o).
Proof.
  intros Hs (H1 & H2 & H3). split; [|now split].
  cbn. intros x [->|Hx]%elem_of_insert_string; auto.
Qed.

Lemma insert_math_vocabulary s o :
  s ∈ Lexical.mathOps -> Lexical.vocabulary o ->
  Lexical.vocabulary (Lexical.insert_math s o).
Proof.
  intros Hs (H1 & H2 & H3). split; [exact H1|]. split; [|exact H3].
  cbn. intros x [->|Hx]%elem_of_insert_string; auto.
Qed.

Lemma one_char_vocabulary c o :
  c <> Lexical.quote -> Lexical.vocabulary o -> Lexical.vocabulary (Lexical.one_char c o).
Proof.
  intros Hc Ho. unfold Lexical.one_char.
  destruct (Lexical.isLogicalOperator _) eqn:El.
  { apply insert_logical_vocabulary; [now apply count_true|exact Ho]. }
  destruct (Lexical.isMathOperator _) eqn:Em.
  { apply insert_math_vocabulary; [now apply count_true|exact Ho]. }
  destruct (Lexical.find c Lexical.otherSymbols) eqn:Ef; [|exact Ho].
  destruct Ho as (H1 & H2 & H3). split; [exact H1|]. split; [exact H2|].
  cbn. intros x [->|Hx]%elem_of_insert_char; [|now apply H3].
  split; [now apply find_true|exact Hc].
Qed.

Lemma operators_round_vocabulary c rest o :
  Lexical.vocabulary o -> Lexical.vocabulary (snd (Lexical.operators_round c rest o)).
Proof.
  intros Ho. unfold Lexical.operators_round. destruct rest as [|c1 rest1].
  - destruct (Ascii.eqb_spec c Lexical.quote); cbn [snd]; [exact Ho|].
    now apply one_char_vocabulary.
  - destruct (_ && _); [exact Ho|]. destruct (_ && _); [exact Ho|].
    destruct (Ascii.eqb_spec c Lexical.quote); [exact Ho|].
    destruct (Lexical.isLogicalOperator _) eqn:El.
    { cbn [snd]. apply insert_logical_vocabulary; [now apply count_true|exact Ho]. }
    destruct (Lexical.isMathOperator _) eqn:Em.
    { cbn [snd]. apply insert_math_vocabulary; [now apply count_true|exact Ho]. }
    cbn [snd]. now apply one_char_vocabulary.
Qed.

Lemma operators_loop_vocabulary fuel : forall s o,
  Lexical.vocabulary o -> Lexical.vocabulary (Lexical.operators_loop fuel s o).
Proof.
  induction fuel as [|fuel IH]; intros s o Ho; [exact Ho|].
  destruct s as [|c rest]; [exact Ho|]. cbn [Lexical.operators_loop].
  pose proof (operators_round_vocabulary c rest o Ho) as Hr.
  destruct (Lexical.operators_round c rest o) as [s' o']. now apply IH.
Qed.

(** X29.  Whatever the content is, the first pass reports as logical
    operators only the nine of [isLogicalOperator], as math operators only
    the ten of [isMathOperator], and as other symbols only characters of
    [otherSymbols].  The double quote is one of these and is still never
    reported, as every double quote is taken for the start of a string
    literal before the symbols are looked at. *)
Theorem operator_pass_reports_only_the_listed_operators (content : string) :
  let o := Lexical.operators_of content in
  (forall s, s ∈ Lexical.logicalOperators o -> s ∈ Lexical.logicalOps) /\
  (forall s, s ∈ Lexical.mathOperators o -> s ∈ Lexical.mathOps) /\
  (forall c, c ∈ Lexical.others o ->
     c ∈ Lexical.chars Lexical.otherSymbols /\ c <> Lexical.quote) /\
  Lexical.quote ∈ Lexical.chars Lexical.otherSymbols.
Proof.
  intros o.
  assert (H : Lexical.vocabulary o).
  { apply operators_loop_vocabulary.
    split; [|split]; intros x Hx; cbn in Hx; now apply elem_of_nil in Hx. }
  destruct H as (H1 & H2 & H3). repeat (split; [assumption|]).
  apply find_true. reflexivity.
Qed.
